(** * ISL mesh: topology generation, static shortest-path routing,
      link addressing and route installation.

    A shallow embedding of
      - isl-topology-generator.{h,cc}  (GenerateWalkerDeltaTopology, BFS,
        Dijkstra, ComputeMeshConnectivity),
      - static-isl-routing.{h,cc}      (RoutingTables, ComputeStaticRoutes,
        GetHopCount),
      - isl-network-creator.cc         (CreateIslMesh, AssignIslAddresses,
        InstallStaticRoutes),
      - routing-protocol.h             (RoutingProtocolFactory),
      - packet-tracer.cc               (PacketTracer),
    followed by the properties established about them.

    Conventions.  A [uint32_t] is an [N] below [2^32]; arithmetic that can
    leave that range is wrapped with [wrap32].  A [std::vector] is a [list]
    whose indexing is checked: reading or writing past the end is undefined
    behaviour in C++ and is the outcome [OutOfRange] here.  A [std::map] is a
    [gmap], a [std::set] a [gset].  [while] loops take a fuel argument; running
    out of it is the outcome [OutOfFuel], and the theorems show that the fuel
    handed to each loop is never exhausted.  A failed [NS_ASSERT_MSG] or an
    uncaught exception is the outcome [Aborted]. *)

From Stdlib Require Import NArith ZArith Lia List Floats Uint63.
From stdpp Require Import base numbers option list gmap fin_maps fin_sets strings.

Local Open Scope N_scope.

(** ** Machine integers *)

Definition UINT32_MAX : N := 4294967295.

Definition wrap32 (x : N) : N := x mod 4294967296.

(** ** Outcomes of a computation that indexes vectors and runs loops *)

Inductive outcome (A : Type) : Type :=
| Done (a : A)
| OutOfRange
| OutOfFuel
| Aborted.

Arguments Done {A} a.
Arguments OutOfRange {A}.
Arguments OutOfFuel {A}.
Arguments Aborted {A}.

Definition obind {A B : Type} (m : outcome A) (k : A → outcome B) : outcome B :=
  match m with
  | Done a => k a
  | OutOfRange => OutOfRange
  | OutOfFuel => OutOfFuel
  | Aborted => Aborted
  end.

#[global] Instance outcome_bind : MBind outcome := λ A B k m, obind m k.

(** [v[i]] and [v[i] = x] on a [std::vector]. *)
Definition vec_get {A : Type} (v : list A) (i : N) : outcome A :=
  match v !! N.to_nat i with
  | Some x => Done x
  | None => OutOfRange
  end.

Definition vec_set {A : Type} (v : list A) (i : N) (x : A) : outcome (list A) :=
  if decide (N.to_nat i < length v)%nat then Done (<[N.to_nat i := x]> v)
  else OutOfRange.

(** The values [0, 1, ..., n-1] of a [for (uint32_t i = 0; i < n; ++i)]. *)
Definition N_range (n : N) : list N := map N.of_nat (seq 0 (N.to_nat n)).

(** ** Data model (isl-topology-generator.h, static-isl-routing.h) *)

Record IslTopology : Type := mkTopology {
  numSatellites : N;
  numLinks : N;
  neighbors : gmap N (list N)
}.

(** [IslTopology() : numSatellites(0), numLinks(0) {}] *)
Definition IslTopology_default : IslTopology :=
  {| numSatellites := 0; numLinks := 0; neighbors := ∅ |}.

Module RoutingTables.

(** [std::map<uint32_t, std::map<uint32_t, uint32_t>> m_nextHop] *)
Record t : Type := mk { m_nextHop : gmap N (gmap N N) }.

Definition empty : t := {| m_nextHop := ∅ |}.

Definition GetNextHop (r : t) (src dst : N) : N :=
  match m_nextHop r !! src with
  | None => UINT32_MAX
  | Some row =>
      match row !! dst with
      | None => UINT32_MAX
      | Some nh => nh
      end
  end.

(** [m_nextHop[src][dst] = nextHop]: [operator[]] creates the row on demand. *)
Definition SetNextHop (r : t) (src dst nextHop : N) : t :=
  {| m_nextHop :=
       <[src := <[dst := nextHop]> (default ∅ (m_nextHop r !! src))]> (m_nextHop r) |}.

Definition GetAllNextHops (r : t) (src : N) : gmap N N :=
  default ∅ (m_nextHop r !! src).

End RoutingTables.

Import RoutingTables.

(** ** GenerateWalkerDeltaTopology (isl-topology-generator.cc) *)

Definition NUM_PLANES : N := 3.
Definition SATS_PER_PLANE : N := 8.

(** The body of the two nested loops for one [(plane, idx)]. *)
Definition walker_neighbors (plane idx : N) : list N :=
  let forward := wrap32 (wrap32 (plane * SATS_PER_PLANE)
                         + (wrap32 (idx + 1)) mod SATS_PER_PLANE) in
  let backward := wrap32 (wrap32 (plane * SATS_PER_PLANE)
                          + (wrap32 (wrap32 (idx + SATS_PER_PLANE) + UINT32_MAX))
                            mod SATS_PER_PLANE) in
  let nextPlane := (wrap32 (plane + 1)) mod NUM_PLANES in
  let prevPlane := (wrap32 (wrap32 (plane + NUM_PLANES) + UINT32_MAX)) mod NUM_PLANES in
  let rightNeighbor := wrap32 (wrap32 (nextPlane * SATS_PER_PLANE) + idx) in
  let leftNeighbor := wrap32 (wrap32 (prevPlane * SATS_PER_PLANE) + idx) in
  [forward; backward; rightNeighbor; leftNeighbor].

Definition walker_fill (nb : gmap N (list N)) : gmap N (list N) :=
  foldl (fun nb plane =>
    foldl (fun nb idx =>
      let satId := wrap32 (wrap32 (plane * SATS_PER_PLANE) + idx) in
      <[satId := walker_neighbors plane idx]> nb)
      nb (N_range SATS_PER_PLANE))
    nb (N_range NUM_PLANES).

(** The [std::set] of normalised links built after the generation loops. *)
Definition uniqueLinks (nb : gmap N (list N)) : gset (N * N) :=
  foldl (fun acc '(satId, nbrs) =>
    foldl (fun acc neighbor =>
      let link := if satId <? neighbor then (satId, neighbor) else (neighbor, satId) in
      {[link]} ∪ acc) acc nbrs)
    ∅ (map_to_list nb).

Definition GenerateWalkerDeltaTopology (numSatellites neighborsPerSat : N) : IslTopology :=
  let topology := {| numSatellites := numSatellites; numLinks := 0; neighbors := ∅ |} in
  if negb (numSatellites =? 24) then topology
  else if negb (neighborsPerSat =? 4) then topology
  else
    let nb := walker_fill (neighbors topology) in
    {| numSatellites := numSatellites;
       numLinks := wrap32 (N.of_nat (size (uniqueLinks nb)));
       neighbors := nb |}.

(** ** BFS, Dijkstra and ComputeMeshConnectivity (isl-topology-generator.cc) *)

(** The [for (uint32_t neighbor : it->second)] loop of [BFS]. *)
Fixpoint bfs_scan (n : N) (nbrs : list N) (visited : list bool) (q : list N)
  : outcome (list bool * list N) :=
  match nbrs with
  | [] => Done (visited, q)
  | neighbor :: rest =>
      if neighbor <? n then
        vis ← vec_get visited neighbor;
        if negb vis then
          visited' ← vec_set visited neighbor true;
          bfs_scan n rest visited' (q ++ [neighbor])
        else bfs_scan n rest visited q
      else bfs_scan n rest visited q
  end.

Fixpoint bfs_loop (fuel : nat) (t : IslTopology) (visited : list bool) (q : list N)
  : outcome (list bool) :=
  match q with
  | [] => Done visited
  | current :: q' =>
      match fuel with
      | O => OutOfFuel
      | S fuel' =>
          match neighbors t !! current with
          | Some nbrs =>
              '(visited', q'') ← bfs_scan (numSatellites t) nbrs visited q';
              bfs_loop fuel' t visited' q''
          | None => bfs_loop fuel' t visited q'
          end
      end
  end.

Definition BFS (t : IslTopology) (src : N) : outcome (list bool) :=
  let visited := replicate (N.to_nat (numSatellites t)) false in
  if negb (src <? numSatellites t) then Done visited
  else
    visited' ← vec_set visited src true;
    bfs_loop (S (N.to_nat (numSatellites t))) t visited' [src].

(** The inner [for (v ...)] of [Dijkstra]: the unvisited node of least
    distance, as the pair [(u, minDist)]. *)
Fixpoint dijkstra_select (vs : list N) (dist : list N) (visited : list bool)
    (u minDist : N) : outcome (N * N) :=
  match vs with
  | [] => Done (u, minDist)
  | v :: rest =>
      vis ← vec_get visited v;
      if negb vis then
        dv ← vec_get dist v;
        if dv <? minDist then dijkstra_select rest dist visited v dv
        else dijkstra_select rest dist visited u minDist
      else dijkstra_select rest dist visited u minDist
  end.

(** The [for (uint32_t neighbor : it->second)] loop of [Dijkstra]. *)
Fixpoint dijkstra_update (n u : N) (nbrs : list N) (dist : list N) (visited : list bool)
  : outcome (list N) :=
  match nbrs with
  | [] => Done dist
  | neighbor :: rest =>
      if neighbor <? n then
        vis ← vec_get visited neighbor;
        if negb vis then
          du ← vec_get dist u;
          let newDist := wrap32 (du + 1) in
          dn ← vec_get dist neighbor;
          if newDist <? dn then
            dist' ← vec_set dist neighbor newDist;
            dijkstra_update n u rest dist' visited
          else dijkstra_update n u rest dist visited
        else dijkstra_update n u rest dist visited
      else dijkstra_update n u rest dist visited
  end.

(** The outer [for (i ...)] of [Dijkstra]; [rounds] is the number of values
    of [i] still to run, and the [break] leaves the loop early. *)
Fixpoint dijkstra_rounds (rounds : nat) (t : IslTopology) (dist : list N)
    (visited : list bool) : outcome (list N) :=
  match rounds with
  | O => Done dist
  | S rounds' =>
      '(u, _) ← dijkstra_select (N_range (numSatellites t)) dist visited
                   UINT32_MAX UINT32_MAX;
      if u =? UINT32_MAX then Done dist
      else
        visited' ← vec_set visited u true;
        dist' ← match neighbors t !! u with
                 | Some nbrs => dijkstra_update (numSatellites t) u nbrs dist visited'
                 | None => Done dist
                 end;
        dijkstra_rounds rounds' t dist' visited'
  end.

Definition Dijkstra (t : IslTopology) (src : N) : outcome (list N) :=
  let dist := replicate (N.to_nat (numSatellites t)) UINT32_MAX in
  let visited := replicate (N.to_nat (numSatellites t)) false in
  if negb (src <? numSatellites t) then Done dist
  else
    dist' ← vec_set dist src 0;
    dijkstra_rounds (N.to_nat (numSatellites t)) t dist' visited.

(** [std::count(reachable.begin(), reachable.end(), true)] *)
Definition count_true (v : list bool) : N := N.of_nat (length (filter (λ b, b = true) v)).

(** The accumulation loop of [ComputeMeshConnectivity]; subtracting one from
    a [uint32_t] sum is adding [2^32 - 1] modulo [2^32]. *)
Fixpoint mesh_reachable_pairs (t : IslTopology) (srcs : list N) (reachablePairs : N)
  : outcome N :=
  match srcs with
  | [] => Done reachablePairs
  | src :: rest =>
      reachable ← BFS t src;
      mesh_reachable_pairs t rest
        (wrap32 (wrap32 (reachablePairs + count_true reachable) + UINT32_MAX))
  end.

Definition double_of_uint32 (x : N) : float := PrimFloat.of_uint63 (Uint63.of_Z (Z.of_N x)).

Definition ComputeMeshConnectivity (t : IslTopology) : outcome float :=
  let totalPairs :=
    wrap32 (numSatellites t * wrap32 (numSatellites t + UINT32_MAX)) in
  if totalPairs =? 0 then Done 0%float
  else
    reachablePairs ← mesh_reachable_pairs t (N_range (numSatellites t)) 0;
    Done (PrimFloat.div (double_of_uint32 reachablePairs) (double_of_uint32 totalPairs)).

(** ** ComputeStaticRoutes and GetHopCount (static-isl-routing.cc) *)

(** [std::priority_queue<PQNode, std::vector<PQNode>, std::greater<PQNode>>]:
    a min-queue of [(distance, node)] pairs under the lexicographic order of
    [std::pair].  It is kept as an ascending list, so that [top]/[pop] are the
    head and the tail. *)
Definition pq_lt (a b : N * N) : bool :=
  (a.1 <? b.1) || ((a.1 =? b.1) && (a.2 <? b.2)).

Fixpoint pq_push (x : N * N) (pq : list (N * N)) : list (N * N) :=
  match pq with
  | [] => [x]
  | y :: rest => if pq_lt y x then y :: pq_push x rest else x :: pq
  end.

Record dijkstra_state : Type := mkState {
  st_dist : list N;
  st_prev : list N;
  st_visited : list bool;
  st_pq : list (N * N)
}.

(** The relaxation loop [for (uint32_t v : neighbors)] of [ComputeStaticRoutes]. *)
Fixpoint relax (u : N) (nbrs : list N) (st : dijkstra_state) : outcome dijkstra_state :=
  match nbrs with
  | [] => Done st
  | v :: rest =>
      vis ← vec_get (st_visited st) v;
      if negb vis then
        du ← vec_get (st_dist st) u;
        let newDist := wrap32 (du + 1) in
        dv ← vec_get (st_dist st) v;
        if newDist <? dv then
          dist' ← vec_set (st_dist st) v newDist;
          prev' ← vec_set (st_prev st) v u;
          relax u rest {| st_dist := dist'; st_prev := prev';
                          st_visited := st_visited st;
                          st_pq := pq_push (newDist, v) (st_pq st) |}
        else relax u rest st
      else relax u rest st
  end.

(** [while (!pq.empty())]; the fuel is [S (adjacency_entries t)], see below. *)
Fixpoint dijkstra_loop (fuel : nat) (t : IslTopology) (st : dijkstra_state)
  : outcome dijkstra_state :=
  match st_pq st with
  | [] => Done st
  | (_, u) :: pq' =>
      match fuel with
      | O => OutOfFuel
      | S fuel' =>
          vis ← vec_get (st_visited st) u;
          if (vis : bool) then
            dijkstra_loop fuel' t
              {| st_dist := st_dist st; st_prev := st_prev st;
                 st_visited := st_visited st; st_pq := pq' |}
          else
            visited' ← vec_set (st_visited st) u true;
            let st1 := {| st_dist := st_dist st; st_prev := st_prev st;
                          st_visited := visited'; st_pq := pq' |} in
            st2 ← match neighbors t !! u with
                   | Some nbrs => relax u nbrs st1
                   | None => Done st1
                   end;
            dijkstra_loop fuel' t st2
      end
  end.

(** [while (prev[current] != src && prev[current] != UINT32_MAX)]; a chain
    of predecessors has fewer links than there are satellites, which is the
    fuel handed over by the extraction loop. *)
Fixpoint trace_back (fuel : nat) (prev : list N) (src current : N) : outcome N :=
  p ← vec_get prev current;
  if negb (p =? src) && negb (p =? UINT32_MAX) then
    match fuel with
    | O => OutOfFuel
    | S fuel' => trace_back fuel' prev src p
    end
  else Done current.

(** The extraction loop [for (uint32_t dst ...)]. *)
Fixpoint extract_next_hops (n src : N) (dist prev : list N) (dsts : list N)
    (routes : RoutingTables.t) : outcome RoutingTables.t :=
  match dsts with
  | [] => Done routes
  | dst :: rest =>
      if src =? dst then extract_next_hops n src dist prev rest routes
      else
        dd ← vec_get dist dst;
        if dd =? UINT32_MAX then extract_next_hops n src dist prev rest routes
        else
          current ← trace_back (N.to_nat n) prev src dst;
          extract_next_hops n src dist prev rest (SetNextHop routes src dst current)
  end.

(** The number of neighbor-list entries of the nodes below [n]: every
    iteration of the queue loop either discards a stale entry or settles a
    node, and a settled node pushes at most one entry per neighbor. *)
Definition adjacency_entries (t : IslTopology) : nat :=
  foldr (λ u acc, (length (default [] (neighbors t !! u)) + acc)%nat) 0%nat
        (N_range (numSatellites t)).

(** The body of [for (uint32_t src ...)]: one run of the shortest-path search
    from [src], followed by the extraction of the next hops. *)
Definition routes_from (t : IslTopology) (src : N) (routes : RoutingTables.t)
  : outcome RoutingTables.t :=
  let n := numSatellites t in
  let dist := replicate (N.to_nat n) UINT32_MAX in
  let prev := replicate (N.to_nat n) UINT32_MAX in
  let visited := replicate (N.to_nat n) false in
  dist' ← vec_set dist src 0;
  st ← dijkstra_loop (S (adjacency_entries t)) t
         {| st_dist := dist'; st_prev := prev; st_visited := visited;
            st_pq := pq_push (0, src) [] |};
  extract_next_hops n src (st_dist st) (st_prev st) (N_range n) routes.

Fixpoint routes_loop (t : IslTopology) (srcs : list N) (routes : RoutingTables.t)
  : outcome RoutingTables.t :=
  match srcs with
  | [] => Done routes
  | src :: rest =>
      routes' ← routes_from t src routes;
      routes_loop t rest routes'
  end.

Definition ComputeStaticRoutes (t : IslTopology) : outcome RoutingTables.t :=
  routes_loop t (N_range (numSatellites t)) RoutingTables.empty.

(** [while (current != dst)]; the [std::set] of visited nodes is a [gset]. *)
Fixpoint hop_loop (fuel : nat) (routes : RoutingTables.t) (dst current : N)
    (visited : gset N) (hops : N) : outcome N :=
  if current =? dst then Done hops
  else
    match fuel with
    | O => OutOfFuel
    | S fuel' =>
        if decide (current ∈ visited) then Done UINT32_MAX
        else
          let visited' := {[current]} ∪ visited in
          let current' := GetNextHop routes current dst in
          if current' =? UINT32_MAX then Done UINT32_MAX
          else
            let hops' := wrap32 (hops + 1) in
            if 100 <? hops' then Done UINT32_MAX
            else hop_loop fuel' routes dst current' visited' hops'
    end.

Definition GetHopCount (routes : RoutingTables.t) (src dst : N) : outcome N :=
  if src =? dst then Done 0
  else hop_loop 101 routes dst src ∅ 0.

(** ** IslNetworkCreator (isl-network-creator.cc) *)

(** The text of an address in dotted form, as the four decimal numbers
    between its dots.  The code prints the numbers into a string without
    bounding them, so they are not bounded here either; [valid_dotted] says
    that all four are octets. *)
Record DottedDecimal : Type := mkDotted { num1 : N; num2 : N; num3 : N; num4 : N }.

#[global] Instance DottedDecimal_eq_dec : EqDecision DottedDecimal.
Proof. solve_decision. Defined.

Definition valid_dotted (text : DottedDecimal) : Prop :=
  num1 text ≤ 255 ∧ num2 text ≤ 255 ∧ num3 text ≤ 255 ∧ num4 text ≤ 255.

Definition valid_dottedb (text : DottedDecimal) : bool :=
  (num1 text <=? 255) && (num2 text <=? 255) && (num3 text <=? 255)
  && (num4 text <=? 255).

(** The number that four octets stand for, the first one in the high bits. *)
Definition dotted_value (text : DottedDecimal) : N :=
  ((num1 text * 256 + num2 text) * 256 + num3 text) * 256 + num4 text.

(** An [Ipv4Address] holds 32 bits ([uint32_t m_address]). *)
Record Ipv4Address : Type := mkAddr { m_address : N }.

#[global] Instance Ipv4Address_eq_dec : EqDecision Ipv4Address.
Proof. solve_decision. Defined.

Definition valid_ipv4 (a : Ipv4Address) : Prop := m_address a < 4294967296.

(** The dotted form of an address ([Ipv4Address::Print]). *)
Definition octets (a : Ipv4Address) : DottedDecimal :=
  {| num1 := (m_address a / 16777216) mod 256;
     num2 := (m_address a / 65536) mod 256;
     num3 := (m_address a / 256) mod 256;
     num4 := m_address a mod 256 |}.

(** The constructor of [Ipv4Address] from text, of the simulation library,
    which is not part of the repository: text of four octets gives the
    address they stand for.
    Text with a number that is no octet is the dotted form of no address; no
    address is built from it here, the call ending in [Aborted]. *)
Definition Ipv4Address_of_text (text : DottedDecimal) : outcome Ipv4Address :=
  if valid_dottedb text then Done {| m_address := dotted_value text |} else Aborted.

(** One entry of an [Ipv4InterfaceContainer], with the address that
    [GetAddress] reads back for it. *)
Record Ipv4Interface : Type := mkInterface {
  if_node : N;
  if_index : N;
  if_addr : Ipv4Address
}.

(** The interfaces of the nodes of a [NodeContainer]: entry [k] is the list
    of addresses of node [k], interface 0 (the loopback) first.  Node ids are
    the positions in the container. *)
Definition NodeInterfaces : Type := list (list Ipv4Address).

(** The inner [for (uint32_t neighbor : neighbors)] of [CreateIslMesh].  A
    [NetDeviceContainer] is the list of the owning nodes of its devices; the
    distance and delay of a link do not influence which devices are created. *)
Fixpoint mesh_links (nNodes sat : N) (nbrs : list N) (createdLinks : gset (N * N))
    (allIslDevices : list N) : outcome (gset (N * N) * list N) :=
  match nbrs with
  | [] => Done (createdLinks, allIslDevices)
  | neighbor :: rest =>
      if neighbor <=? sat then mesh_links nNodes sat rest createdLinks allIslDevices
      else if decide ((sat, neighbor) ∈ createdLinks)
      then mesh_links nNodes sat rest createdLinks allIslDevices
      else if negb (neighbor <? nNodes) then OutOfRange
      else mesh_links nNodes sat rest ({[(sat, neighbor)]} ∪ createdLinks)
             (allIslDevices ++ [sat; neighbor])
  end.

Fixpoint mesh_loop (nNodes : N) (t : IslTopology) (sats : list N)
    (createdLinks : gset (N * N)) (allIslDevices : list N) : outcome (list N) :=
  match sats with
  | [] => Done allIslDevices
  | sat :: rest =>
      match neighbors t !! sat with
      | None => Aborted
      | Some nbrs =>
          '(createdLinks', devices') ←
             mesh_links nNodes sat nbrs createdLinks allIslDevices;
          mesh_loop nNodes t rest createdLinks' devices'
      end
  end.

Definition CreateIslMesh (nNodes : N) (t : IslTopology) : outcome (list N) :=
  if negb (nNodes =? numSatellites t) then Aborted
  else mesh_loop nNodes t (N_range (numSatellites t)) ∅ [].

(** ["10." << (i / 64) << "." << ((i % 64) * 4) << ".0"] *)
Definition link_subnet (i : N) : DottedDecimal :=
  {| num1 := 10; num2 := i / 64; num3 := wrap32 ((i mod 64) * 4); num4 := 0 |}.

(** [address.SetBase (subnet.str ().c_str (), "255.255.255.252")]: the text is
    handed to the library, which makes the network address of it. *)
Definition SetBase (subnet : DottedDecimal) : outcome Ipv4Address :=
  Ipv4Address_of_text subnet.

(** Address number [k] of the network at [network]. *)
Definition host_address (network : Ipv4Address) (k : N) : Ipv4Address :=
  {| m_address := wrap32 (m_address network + k) |}.

(** The four addresses of the block of mask 255.255.255.252 at [network]:
    the network address, the two host addresses and the broadcast address. *)
Definition subnet_block (network : Ipv4Address) : list Ipv4Address :=
  map (host_address network) [0; 1; 2; 3].

(** Modelled from the spec: [Ipv4AddressHelper::Assign] of the simulation
    library, which is not part of the repository.  A device that has no
    interface yet gets the next free interface index of its node, so that the
    index is the creation rank of the link among the links of that node, and
    the two devices of a link get the first and the second host address of
    the block. *)
Definition assign_device (nodes : NodeInterfaces) (dev : N) (addr : Ipv4Address)
  : outcome (NodeInterfaces * Ipv4Interface) :=
  ifs ← vec_get nodes dev;
  nodes' ← vec_set nodes dev (ifs ++ [addr]);
  Done (nodes', {| if_node := dev; if_index := N.of_nat (length ifs); if_addr := addr |}).

(** The loop [for (uint32_t i = 0; i < linkCount; ++i)]. *)
Fixpoint assign_links (links : list N) (islDevices : list N) (nodes : NodeInterfaces)
    (interfaces : list Ipv4Interface) : outcome (NodeInterfaces * list Ipv4Interface) :=
  match links with
  | [] => Done (nodes, interfaces)
  | i :: rest =>
      let subnet := link_subnet i in
      network ← SetBase subnet;
      devA ← vec_get islDevices (wrap32 (i * 2));
      devB ← vec_get islDevices (wrap32 (wrap32 (i * 2) + 1));
      '(nodes1, ifA) ← assign_device nodes devA (host_address network 1);
      '(nodes2, ifB) ← assign_device nodes1 devB (host_address network 2);
      assign_links rest islDevices nodes2 (interfaces ++ [ifA; ifB])
  end.

Definition AssignIslAddresses (nodes : NodeInterfaces) (islDevices : list N)
  : outcome (NodeInterfaces * list Ipv4Interface) :=
  let linkCount := wrap32 (N.of_nat (length islDevices)) / 2 in
  assign_links (N_range linkCount) islDevices nodes [].

Inductive skip_reason : Type :=
| NoRoute | NoAddress | NoInterface | NoGateway.

Record HostRoute : Type := mkRoute {
  rt_node : N;
  rt_dest : Ipv4Address;
  rt_gateway : Ipv4Address;
  rt_interface : N
}.

(** What [InstallStaticRoutes] leaves behind: the host routes handed to the
    nodes' static routing, in order, the counter [totalRoutes], and the pairs
    for which a warning was logged. *)
Record install_result : Type := mkInstall {
  installed : list HostRoute;
  totalRoutes : N;
  skipped : list (N * N * skip_reason)
}.

(** Step 1: the loop [for (i = 0; i < islInterfaces.GetN(); i += 2)]. *)
Fixpoint build_link_index (islInterfaces : list Ipv4Interface)
    (linkToLocalInterface : gmap (N * N) (N * Ipv4Address))
  : outcome (gmap (N * N) (N * Ipv4Address)) :=
  match islInterfaces with
  | [] => Done linkToLocalInterface
  | [_] => OutOfRange
  | ifA :: ifB :: rest =>
      let satA := if_node ifA in
      let satB := if_node ifB in
      build_link_index rest
        (<[(satB, satA) := (if_index ifB, if_addr ifB)]>
           (<[(satA, satB) := (if_index ifA, if_addr ifA)]> linkToLocalInterface))
  end.

(** Step 2: the first non-loopback address of every satellite. *)
Fixpoint build_satellite_address (sats : list N) (nodes : NodeInterfaces)
    (satelliteAddress : gmap N Ipv4Address) : outcome (gmap N Ipv4Address) :=
  match sats with
  | [] => Done satelliteAddress
  | sat :: rest =>
      ifs ← vec_get nodes sat;
      if (1 <? length ifs)%nat then
        a ← vec_get ifs 1;
        build_satellite_address rest nodes (<[sat := a]> satelliteAddress)
      else build_satellite_address rest nodes satelliteAddress
  end.

(** Step 3, the body of the inner loop for one [(src, dst)] with [src != dst]. *)
Definition install_pair (routes : RoutingTables.t)
    (linkToLocalInterface : gmap (N * N) (N * Ipv4Address))
    (satelliteAddress : gmap N Ipv4Address) (src dst : N) : HostRoute + skip_reason :=
  let nextHop := GetNextHop routes src dst in
  if nextHop =? UINT32_MAX then inr NoRoute
  else
    match satelliteAddress !! dst with
    | None => inr NoAddress
    | Some dstAddr =>
        match linkToLocalInterface !! (src, nextHop) with
        | None => inr NoInterface
        | Some (localInterface, _) =>
            match linkToLocalInterface !! (nextHop, src) with
            | None => inr NoGateway
            | Some (_, gateway) =>
                inl {| rt_node := src; rt_dest := dstAddr; rt_gateway := gateway;
                       rt_interface := localInterface |}
            end
        end
    end.

Fixpoint install_dsts (routes : RoutingTables.t)
    (linkToLocalInterface : gmap (N * N) (N * Ipv4Address))
    (satelliteAddress : gmap N Ipv4Address) (src : N) (dsts : list N)
    (res : install_result) : install_result :=
  match dsts with
  | [] => res
  | dst :: rest =>
      if src =? dst
      then install_dsts routes linkToLocalInterface satelliteAddress src rest res
      else
        match install_pair routes linkToLocalInterface satelliteAddress src dst with
        | inr why =>
            install_dsts routes linkToLocalInterface satelliteAddress src rest
              {| installed := installed res; totalRoutes := totalRoutes res;
                 skipped := skipped res ++ [(src, dst, why)] |}
        | inl route =>
            install_dsts routes linkToLocalInterface satelliteAddress src rest
              {| installed := installed res ++ [route];
                 totalRoutes := wrap32 (totalRoutes res + 1);
                 skipped := skipped res |}
        end
  end.

Fixpoint install_srcs (routes : RoutingTables.t)
    (linkToLocalInterface : gmap (N * N) (N * Ipv4Address))
    (satelliteAddress : gmap N Ipv4Address) (n : N) (srcs : list N)
    (res : install_result) : install_result :=
  match srcs with
  | [] => res
  | src :: rest =>
      install_srcs routes linkToLocalInterface satelliteAddress n rest
        (install_dsts routes linkToLocalInterface satelliteAddress src (N_range n) res)
  end.

Definition InstallStaticRoutes (nodes : NodeInterfaces) (routes : RoutingTables.t)
    (islInterfaces : list Ipv4Interface) : outcome install_result :=
  let n := wrap32 (N.of_nat (length nodes)) in
  linkToLocalInterface ← build_link_index islInterfaces ∅;
  satelliteAddress ← build_satellite_address (N_range n) nodes ∅;
  Done (install_srcs routes linkToLocalInterface satelliteAddress n (N_range n)
          {| installed := []; totalRoutes := 0; skipped := [] |}).

(** The setup sequence of the simulation driver for static ISL routing:
    every satellite starts with its loopback interface only. *)
Definition loopback : Ipv4Address :=
  {| m_address := dotted_value {| num1 := 127; num2 := 0; num3 := 0; num4 := 1 |} |}.

Definition build_and_install (t : IslTopology) : outcome install_result :=
  let nodes := replicate (N.to_nat (numSatellites t)) [loopback] in
  islDevices ← CreateIslMesh (numSatellites t) t;
  '(nodes', islInterfaces) ← AssignIslAddresses nodes islDevices;
  routes ← ComputeStaticRoutes t;
  InstallStaticRoutes nodes' routes islInterfaces.

(** ** Specification vocabulary *)

(** [b] is listed among the neighbors of [a]. *)
Definition is_neighbor (t : IslTopology) (a b : N) : Prop :=
  ∃ l, neighbors t !! a = Some l ∧ b ∈ l.

Definition symmetric (t : IslTopology) : Prop :=
  ∀ a b, is_neighbor t a b ↔ is_neighbor t b a.

(** A boolean test of one direction of the symmetry, over the entries of the map. *)
Definition symmetricb (nb : gmap N (list N)) : bool :=
  forallb (λ '(a, l),
    forallb (λ b, match nb !! b with
                  | Some l' => bool_decide (a ∈ l')
                  | None => false
                  end) l)
    (map_to_list nb).

(** Every neighbor id in every list is a node of the topology. *)
Definition neighbors_in_range (t : IslTopology) : Prop :=
  ∀ u l v, neighbors t !! u = Some l → v ∈ l → v < numSatellites t.

Definition neighbors_in_rangeb (t : IslTopology) : bool :=
  forallb (λ '(_, l), forallb (λ v, v <? numSatellites t) l) (map_to_list (neighbors t)).

(** The node reached from [x] after [k] applications of [GetNextHop (., dst)]. *)
Fixpoint walk (routes : RoutingTables.t) (dst : N) (k : nat) (x : N) : N :=
  match k with
  | O => x
  | S k' => GetNextHop routes (walk routes dst k' x) dst
  end.

(** The walk from [src] comes back to a node before it has reached [dst]. *)
Definition walk_revisits (routes : RoutingTables.t) (src dst : N) : Prop :=
  ∃ i j, (i < j)%nat ∧ walk routes dst i src = walk routes dst j src
         ∧ ∀ m, (m ≤ j)%nat → walk routes dst m src ≠ dst.

(** The walk from [src] arrives, before it has reached [dst], at a node for
    which the table has no next hop. *)
Definition walk_dead_end (routes : RoutingTables.t) (src dst : N) : Prop :=
  ∃ j, GetNextHop routes (walk routes dst j src) dst = UINT32_MAX
       ∧ ∀ m, (m ≤ j)%nat → walk routes dst m src ≠ dst.

(** The supported configuration and two tables used as examples. *)
Definition walker24 : IslTopology := GenerateWalkerDeltaTopology 24 4.

Definition two_cycle_table : RoutingTables.t :=
  SetNextHop (SetNextHop RoutingTables.empty 0 2 1) 1 2 0.

(** The shape of the four neighbors of node [x] in the 24-satellite mesh:
    forward and backward on the ring of the node's own plane, then the node of
    the same index in the next and in the previous plane. *)
Definition walker_shape (x : N) (l : list N) : Prop :=
  ∃ f b r p, l = [f; b; r; p] ∧ NoDup l
    ∧ (f / 8 = x / 8 ∧ f mod 8 = (x mod 8 + 1) mod 8)
    ∧ (b / 8 = x / 8 ∧ b mod 8 = (x mod 8 + 7) mod 8)
    ∧ (r mod 8 = x mod 8 ∧ r / 8 = (x / 8 + 1) mod 3)
    ∧ (p mod 8 = x mod 8 ∧ p / 8 = (x / 8 + 2) mod 3).

(** The network address that the text of link [i] stands for. *)
Definition link_network (i : N) : Ipv4Address :=
  {| m_address := dotted_value (link_subnet i) |}.

Definition link_hosts (i : N) : list Ipv4Address :=
  [host_address (link_network i) 1; host_address (link_network i) 2].

(** The ordered pairs [(src, dst)], [src ≠ dst], in the order of the two
    nested loops of step 3. *)
Definition ordered_pairs (n : N) : list (N * N) :=
  flat_map (λ src, map (pair src) (filter (λ dst, src ≠ dst) (N_range n))) (N_range n).

Definition route_of (routes : RoutingTables.t)
    (linkToLocalInterface : gmap (N * N) (N * Ipv4Address))
    (satelliteAddress : gmap N Ipv4Address) (p : N * N) : option HostRoute :=
  match install_pair routes linkToLocalInterface satelliteAddress p.1 p.2 with
  | inl route => Some route
  | inr _ => None
  end.

Definition skip_of (routes : RoutingTables.t)
    (linkToLocalInterface : gmap (N * N) (N * Ipv4Address))
    (satelliteAddress : gmap N Ipv4Address) (p : N * N) : option (N * N * skip_reason) :=
  match install_pair routes linkToLocalInterface satelliteAddress p.1 p.2 with
  | inl _ => None
  | inr why => Some (p.1, p.2, why)
  end.

(** A small installation with missing bindings: node 2 has no address and
    there is no route out of it. *)
Definition partial_nodes : NodeInterfaces :=
  [[loopback; host_address (link_network 0) 1];
   [loopback; host_address (link_network 0) 2];
   [loopback]].

Definition partial_interfaces : list Ipv4Interface :=
  [{| if_node := 0; if_index := 1; if_addr := host_address (link_network 0) 1 |};
   {| if_node := 1; if_index := 1; if_addr := host_address (link_network 0) 2 |}].

Definition partial_routes : RoutingTables.t :=
  SetNextHop (SetNextHop (SetNextHop RoutingTables.empty 0 1 1) 1 0 0) 0 2 1.

(** ** Paths, distances and the invariant of the shortest-path search *)

(** [path t u v k]: there are [k] edges leading from [u] to [v], an edge
    [a -> b] meaning that [b] is listed among the neighbors of [a]. *)
Inductive path (t : IslTopology) (u : N) : N → nat → Prop :=
| path_nil : path t u u 0
| path_snoc (v w : N) (k : nat) :
    path t u v k → is_neighbor t v w → path t u w (S k).

Definition reachable (t : IslTopology) (u v : N) : Prop := ∃ k, path t u v k.

(** [d] is the hop distance from [u] to [v]. *)
Definition shortest (t : IslTopology) (u v : N) (d : nat) : Prop :=
  path t u v d ∧ ∀ k, path t u v k → (d ≤ k)%nat.

(** [D] bounds every hop distance of the graph, as its diameter does. *)
Definition diameter_bound (t : IslTopology) (D : nat) : Prop :=
  ∀ u v d, shortest t u v d → (d ≤ D)%nat.

(** A next hop of the right kind: a neighbor of [src] that is one hop closer
    to [dst]. *)
Definition next_hop_ok (t : IslTopology) (src dst h : N) : Prop :=
  h < numSatellites t ∧ is_neighbor t src h
  ∧ ∃ k, shortest t src dst (S k) ∧ shortest t h dst k.

Definition vec_at {A : Type} (v : list A) (i : N) : option A := v !! N.to_nat i.

Definition pq_min (x : N * N) (pq : list (N * N)) : Prop :=
  ∀ y, y ∈ pq → pq_lt y x = false.

Fixpoint pq_sorted (pq : list (N * N)) : Prop :=
  match pq with
  | [] => True
  | x :: rest => pq_min x rest ∧ pq_sorted rest
  end.

Definition neighbor_list (t : IslTopology) (u : N) : list N :=
  default [] (neighbors t !! u).

(** The neighbor-list entries of the nodes not settled yet. *)
Definition pending (t : IslTopology) (visited : list bool) (nodes : list N) : nat :=
  foldr (λ u acc,
           ((if decide (vec_at visited u = Some true) then 0
             else length (neighbor_list t u)) + acc)%nat)
        0%nat nodes.

Definition loop_measure (t : IslTopology) (st : dijkstra_state) : nat :=
  (length (st_pq st) + pending t (st_visited st) (N_range (numSatellites t)))%nat.

(** The state of the search from [src] at the head of the queue loop;
    [relaxed a b] are the edges out of settled nodes that have been relaxed. *)
Record search_inv (t : IslTopology) (src : N) (relaxed : N → N → Prop)
    (st : dijkstra_state) : Prop := mkInv {
  inv_len_dist : length (st_dist st) = N.to_nat (numSatellites t);
  inv_len_prev : length (st_prev st) = N.to_nat (numSatellites t);
  inv_len_visited : length (st_visited st) = N.to_nat (numSatellites t);
  inv_queue : ∀ d v, (d, v) ∈ st_pq st →
    v < numSatellites t ∧ d < UINT32_MAX
    ∧ ∃ dv, vec_at (st_dist st) v = Some dv ∧ dv ≤ d;
  inv_sorted : pq_sorted (st_pq st);
  inv_src : vec_at (st_dist st) src = Some 0;
  inv_tree : ∀ v dv,
    vec_at (st_dist st) v = Some dv → dv ≠ UINT32_MAX → v ≠ src →
    ∃ u du, vec_at (st_prev st) v = Some u
            ∧ vec_at (st_visited st) u = Some true
            ∧ vec_at (st_dist st) u = Some du
            ∧ dv = du + 1 ∧ is_neighbor t u v;
  inv_settled : ∀ v, vec_at (st_visited st) v = Some true →
    ∃ dv, vec_at (st_dist st) v = Some dv
          ∧ dv < count_true (st_visited st)
          ∧ ∀ k, path t src v k → dv ≤ N.of_nat k;
  inv_relaxed : ∀ u v du,
    vec_at (st_visited st) u = Some true → relaxed u v →
    vec_at (st_dist st) u = Some du →
    ∃ dv, vec_at (st_dist st) v = Some dv ∧ dv ≤ du + 1;
  inv_frontier : ∀ v dv,
    vec_at (st_visited st) v = Some false →
    vec_at (st_dist st) v = Some dv → dv ≠ UINT32_MAX →
    (dv, v) ∈ st_pq st;
  inv_src_first : ∀ v,
    vec_at (st_visited st) v = Some true → vec_at (st_visited st) src = Some true
}.

(** The edges still to relax while the neighbors [rest] of [u] are pending. *)
Definition relaxed_but (t : IslTopology) (u : N) (rest : list N) (a b : N) : Prop :=
  is_neighbor t a b ∧ (a = u → b ∉ rest).

(** The initial state of the search from [src]. *)
Definition initial_state (t : IslTopology) (src : N) : dijkstra_state :=
  {| st_dist := <[N.to_nat src := 0]> (replicate (N.to_nat (numSatellites t)) UINT32_MAX);
     st_prev := replicate (N.to_nat (numSatellites t)) UINT32_MAX;
     st_visited := replicate (N.to_nat (numSatellites t)) false;
     st_pq := [(0, src)] |}.

(** What one row of the table looks like after the extraction loop over
    [dsts]. *)
Definition row_ok (t : IslTopology) (src : N) (dsts : list N)
    (before after : RoutingTables.t) : Prop :=
  (∀ s d, s ≠ src → GetNextHop after s d = GetNextHop before s d)
  ∧ (∀ d, d ∉ dsts ∨ d = src ∨ ¬ reachable t src d →
          GetNextHop after src d = GetNextHop before src d)
  ∧ (∀ d, d ∈ dsts → d ≠ src → reachable t src d →
          next_hop_ok t src d (GetNextHop after src d)).

(** A line of [n] nodes, [0 -> 1 -> ... -> n-1], edges in both directions. *)
Definition line_topology (n : N) : IslTopology :=
  {| numSatellites := n;
     numLinks := n - 1;
     neighbors :=
       list_to_map
         (map (λ u, (u, (if u =? 0 then [] else [u - 1])
                        ++ (if u + 1 <? n then [u + 1] else [])))
              (N_range n)) |}.

(** A topology whose only neighbor list names a node that does not exist. *)
Definition stray_topology : IslTopology :=
  {| numSatellites := 2; numLinks := 1; neighbors := {[0 := [5]]} |}.

(** A boolean test that consecutive nodes of a list are joined by edges. *)
Fixpoint is_pathb (t : IslTopology) (x : N) (nodes : list N) : bool :=
  match nodes with
  | [] => true
  | y :: rest =>
      match neighbors t !! x with
      | Some l => bool_decide (y ∈ l) && is_pathb t y rest
      | None => false
      end
  end.

(** The table entry for the pair (x, x), if there is one. *)
Definition self_entry (r : RoutingTables.t) (x : N) : option N :=
  m_nextHop r !! x ≫= (λ row, row !! x).

(** The walk from [src] is at [dst] after [k] steps and not before, and
    every node it leaves has a table entry towards [dst]. *)
Definition first_arrival (routes : RoutingTables.t) (src dst : N) (k : nat) : Prop :=
  walk routes dst k src = dst
  ∧ ∀ j, (j < k)%nat →
      walk routes dst j src ≠ dst
      ∧ GetNextHop routes (walk routes dst j src) dst ≠ UINT32_MAX.

(** A table with the chain 0 -> 1 -> 2 towards destination 2. *)
Definition chain_table : RoutingTables.t :=
  SetNextHop (SetNextHop RoutingTables.empty 0 2 1) 1 2 2.

(** The state of [BFS] from [src] at the head of its queue loop. *)
Record bfs_inv (t : IslTopology) (src : N) (visited : list bool) (q : list N)
  : Prop := mkBfsInv {
  bfs_len : length visited = N.to_nat (numSatellites t);
  bfs_src : vec_at visited src = Some true;
  bfs_sound : ∀ v, vec_at visited v = Some true → reachable t src v;
  bfs_queue : ∀ u, u ∈ q → vec_at visited u = Some true;
  bfs_closed : ∀ u v,
    vec_at visited u = Some true → is_neighbor t u v →
    u ∈ q ∨ vec_at visited v = Some true
}.

(** The devices of a list of links, in creation order: the device on the
    first end of a link, then the device on its second end. *)
Definition link_devices (links : list (N * N)) : list N :=
  flat_map (λ p, [p.1; p.2]) links.

(** A triangle whose adjacency lists are neither symmetric nor free of
    duplicates. *)
Definition triangle_topology : IslTopology :=
  {| numSatellites := 3; numLinks := 3;
     neighbors := {[0 := [1; 2; 1]; 1 := [0; 2]; 2 := []]} |}.

(** The state of [Dijkstra] (isl-topology-generator.cc) at the head of its
    loop over [i]; [relaxed a b] are the edges out of visited nodes whose
    update has been done. *)
Record scan_inv (t : IslTopology) (src : N) (relaxed : N → N → Prop)
    (dist : list N) (visited : list bool) : Prop := mkScanInv {
  scan_len_dist : length dist = N.to_nat (numSatellites t);
  scan_len_visited : length visited = N.to_nat (numSatellites t);
  scan_src : vec_at dist src = Some 0;
  scan_real : ∀ v dv,
    vec_at dist v = Some dv → dv ≠ UINT32_MAX →
    path t src v (N.to_nat dv) ∧ dv ≤ count_true visited;
  scan_settled : ∀ v, vec_at visited v = Some true →
    ∃ dv, vec_at dist v = Some dv
          ∧ dv < count_true visited
          ∧ ∀ k, path t src v k → dv ≤ N.of_nat k;
  scan_relaxed : ∀ u v du,
    vec_at visited u = Some true → relaxed u v →
    vec_at dist u = Some du →
    ∃ dv, vec_at dist v = Some dv ∧ dv ≤ du + 1;
  scan_src_first : ∀ v,
    vec_at visited v = Some true → vec_at visited src = Some true
}.

(** [itf] is the interface of node [a] on a link between [a] and [b]: one of
    the two consecutive entries of the container that a link contributes. *)
Definition link_side (islInterfaces : list Ipv4Interface) (a b : N)
    (itf : Ipv4Interface) : Prop :=
  ∃ k ifA ifB,
    islInterfaces !! (2 * k)%nat = Some ifA
    ∧ islInterfaces !! (2 * k + 1)%nat = Some ifB
    ∧ ((itf = ifA ∧ if_node ifA = a ∧ if_node ifB = b)
       ∨ (itf = ifB ∧ if_node ifB = a ∧ if_node ifA = b)).

(** The nodes of the two devices of link [i] in a device container. *)
Definition link_nodes (islDevices : list N) (i : N) : list N :=
  [default 0 (islDevices !! N.to_nat (i * 2));
   default 0 (islDevices !! N.to_nat (i * 2 + 1))].

(** Every node keeps its interfaces, and may have got more of them. *)
Definition interfaces_grow (nodes nodes' : NodeInterfaces) : Prop :=
  length nodes' = length nodes
  ∧ ∀ s ifs, nodes !! s = Some ifs →
      ∃ ifs', nodes' !! s = Some ifs' ∧ (length ifs ≤ length ifs')%nat.

(** ** RoutingProtocolFactory (routing-protocol.h) *)

(** The classes that implement the [RoutingProtocol] interface. *)
Inductive protocol_kind : Type :=
| StaticRoutingProtocol
| OlsrRoutingProtocol
| AodvRoutingProtocol
| DsdvRoutingProtocol.

(** [::tolower] on one [char], in the C locale: the letters [A] to [Z] are
    moved to [a] to [z], every other byte is left as it is. *)
Definition tolower (c : Ascii.ascii) : Ascii.ascii :=
  let n := Ascii.N_of_ascii c in
  if (65 <=? n) && (n <=? 90) then Ascii.ascii_of_N (n + 32) else c.

(** [std::transform(name.begin(), name.end(), name.begin(), ::tolower)] *)
Fixpoint lowercase (name : string) : string :=
  match name with
  | EmptyString => EmptyString
  | String c rest => String (tolower c) (lowercase rest)
  end.

Module RoutingProtocolFactory.

(** The exception [std::invalid_argument] is the outcome [Aborted]. *)
Definition Create (name : string) : outcome protocol_kind :=
  let name := lowercase name in
  if String.eqb name "static" then Done StaticRoutingProtocol
  else if String.eqb name "olsr" then Done OlsrRoutingProtocol
  else if String.eqb name "aodv" then Done AodvRoutingProtocol
  else if String.eqb name "dsdv" then Done DsdvRoutingProtocol
  else Aborted.

Definition GetSupportedProtocols : list string := ["static"; "olsr"; "aodv"; "dsdv"]%string.

End RoutingProtocolFactory.

(** ** PacketTracer (packet-tracer.cc) *)

Definition wrap64 (x : N) : N := x mod 18446744073709551616.

(** What the callbacks read from a packet: its size ([GetSize], 32 bits),
    the protocol number of its IPv4 header and the destination port of its
    UDP header, each present when [RemoveHeader] finds the header. *)
Record Packet : Type := mkPacket {
  pkt_size : N;
  pkt_ipv4_protocol : option N;
  pkt_udp_dest_port : option N
}.

Module PacketTracer.

(** The four 64-bit counters. *)
Record t : Type := mk {
  m_controlBytesTx : N;
  m_controlBytesRx : N;
  m_dataBytesTx : N;
  m_dataBytesRx : N
}.

(** The constructor. *)
Definition new : t :=
  {| m_controlBytesTx := 0; m_controlBytesRx := 0; m_dataBytesTx := 0; m_dataBytesRx := 0 |}.

Definition GetControlBytesTx (tr : t) : N := m_controlBytesTx tr.
Definition GetControlBytesRx (tr : t) : N := m_controlBytesRx tr.
Definition GetDataBytesTx (tr : t) : N := m_dataBytesTx tr.
Definition GetDataBytesRx (tr : t) : N := m_dataBytesRx tr.

Definition Reset (tr : t) : t := new.

Definition IsDataPacket (packet : Packet) : bool :=
  match pkt_ipv4_protocol packet with
  | None => false
  | Some protocol =>
      if negb (protocol =? 17) then false
      else
        match pkt_udp_dest_port packet with
        | None => false
        | Some destPort => (9 <=? destPort) && (destPort <=? 14)
        end
  end.

Definition TxCallback (tr : t) (packet : Packet) : t :=
  let size := pkt_size packet in
  if IsDataPacket packet
  then {| m_controlBytesTx := m_controlBytesTx tr;
          m_controlBytesRx := m_controlBytesRx tr;
          m_dataBytesTx := wrap64 (m_dataBytesTx tr + size);
          m_dataBytesRx := m_dataBytesRx tr |}
  else {| m_controlBytesTx := wrap64 (m_controlBytesTx tr + size);
          m_controlBytesRx := m_controlBytesRx tr;
          m_dataBytesTx := m_dataBytesTx tr;
          m_dataBytesRx := m_dataBytesRx tr |}.

Definition RxCallback (tr : t) (packet : Packet) : t :=
  let size := pkt_size packet in
  if IsDataPacket packet
  then {| m_controlBytesTx := m_controlBytesTx tr;
          m_controlBytesRx := m_controlBytesRx tr;
          m_dataBytesTx := m_dataBytesTx tr;
          m_dataBytesRx := wrap64 (m_dataBytesRx tr + size) |}
  else {| m_controlBytesTx := m_controlBytesTx tr;
          m_controlBytesRx := wrap64 (m_controlBytesRx tr + size);
          m_dataBytesTx := m_dataBytesTx tr;
          m_dataBytesRx := m_dataBytesRx tr |}.

End PacketTracer.

(** The trace sources fire the two callbacks in some order. *)
Inductive trace_event : Type :=
| Tx (packet : Packet)
| Rx (packet : Packet).

Fixpoint run_trace (events : list trace_event) (tr : PacketTracer.t) : PacketTracer.t :=
  match events with
  | [] => tr
  | Tx packet :: rest => run_trace rest (PacketTracer.TxCallback tr packet)
  | Rx packet :: rest => run_trace rest (PacketTracer.RxCallback tr packet)
  end.

(** The bytes of the events of one direction and one class. *)
Fixpoint traced_bytes (tx data : bool) (events : list trace_event) : N :=
  match events with
  | [] => 0
  | Tx packet :: rest =>
      (if tx && bool_decide (PacketTracer.IsDataPacket packet = data)
       then pkt_size packet else 0) + traced_bytes tx data rest
  | Rx packet :: rest =>
      (if negb tx && bool_decide (PacketTracer.IsDataPacket packet = data)
       then pkt_size packet else 0) + traced_bytes tx data rest
  end.

(** The bytes of all the events of one direction. *)
Fixpoint total_bytes (tx : bool) (events : list trace_event) : N :=
  match events with
  | [] => 0
  | Tx packet :: rest => (if tx then pkt_size packet else 0) + total_bytes tx rest
  | Rx packet :: rest => (if tx then 0 else pkt_size packet) + total_bytes tx rest
  end.

(** All four counters are 64-bit values. *)
Definition counters_ok (tr : PacketTracer.t) : Prop :=
  PacketTracer.m_controlBytesTx tr < 18446744073709551616
  ∧ PacketTracer.m_controlBytesRx tr < 18446744073709551616
  ∧ PacketTracer.m_dataBytesTx tr < 18446744073709551616
  ∧ PacketTracer.m_dataBytesRx tr < 18446744073709551616.

(** No entry of the table holds the sentinel [UINT32_MAX]. *)
Definition no_sentinel_stored (routes : RoutingTables.t) : Prop :=
  ∀ s row d, m_nextHop routes !! s = Some row → row !! d ≠ Some UINT32_MAX.

(** The address of interface 1 of node [dst], its first interface after the
    loopback. *)
Definition node_address (nodes : NodeInterfaces) (dst : N) : option Ipv4Address :=
  match nodes !! N.to_nat dst with
  | Some ifs => ifs !! 1%nat
  | None => None
  end.

(** Written from the specification of the route installer: what is to
    happen to one ordered pair [p = (src, dst)], [h] being its next hop.
    Without a next hop, without an address of [dst], without an interface of
    [src] on a link to [h], or without an interface of [h] on a link to
    [src], the pair is skipped for that reason, the first of them that
    applies; with all four the route of the pair is installed, from [src] to
    the address of [dst] through such an interface of [src], the address of
    such an interface of [h] being the gateway. *)
Definition pair_handled (nodes : NodeInterfaces) (routes : RoutingTables.t)
    (islInterfaces : list Ipv4Interface) (p : N * N) (o : HostRoute + skip_reason)
  : Prop :=
  let h := GetNextHop routes p.1 p.2 in
  match o with
  | inr NoRoute => h = UINT32_MAX
  | inr NoAddress => h ≠ UINT32_MAX ∧ node_address nodes p.2 = None
  | inr NoInterface =>
      h ≠ UINT32_MAX ∧ is_Some (node_address nodes p.2)
      ∧ ¬ (∃ itf, link_side islInterfaces p.1 h itf)
  | inr NoGateway =>
      h ≠ UINT32_MAX ∧ is_Some (node_address nodes p.2)
      ∧ (∃ itf, link_side islInterfaces p.1 h itf)
      ∧ ¬ (∃ itf, link_side islInterfaces h p.1 itf)
  | inl route =>
      h ≠ UINT32_MAX
      ∧ rt_node route = p.1
      ∧ node_address nodes p.2 = Some (rt_dest route)
      ∧ ∃ ifL ifG,
          link_side islInterfaces p.1 h ifL
          ∧ link_side islInterfaces h p.1 ifG
          ∧ rt_interface route = if_index ifL
          ∧ rt_gateway route = if_addr ifG
  end.

(** The route of an outcome, and the record of a skipped pair. *)
Definition installed_of (o : HostRoute + skip_reason) : option HostRoute :=
  match o with
  | inl route => Some route
  | inr _ => None
  end.

Definition skipped_of (po : (N * N) * (HostRoute + skip_reason))
  : option (N * N * skip_reason) :=
  match po.2 with
  | inl _ => None
  | inr why => Some (po.1.1, po.1.2, why)
  end.

(** A table over the same three nodes that routes 1 to 0 through node 2,
    with which node 1 shares no link, and 0 to 2 through node 1. *)
Definition detour_routes : RoutingTables.t :=
  SetNextHop (SetNextHop (SetNextHop RoutingTables.empty 0 1 1) 0 2 1) 1 0 2.

(** * Properties *)

(** A computation that is run on a concrete input is inspected through its
    outcome. *)
Lemma outcome_done {A : Type} (o : outcome A) (P : A → Prop) :
  match o with Done a => P a | _ => False end → ∃ a, o = Done a ∧ P a.
Proof. destruct o; intros H; try contradiction. eauto. Qed.

(** ** The generator *)

Lemma symmetricb_sound (t : IslTopology) :
  symmetricb (neighbors t) = true → symmetric t.
Proof.
  intros Hb.
  assert (Hdir : ∀ a b, is_neighbor t a b → is_neighbor t b a).
  { intros a b (l & Hl & Hin).
    unfold symmetricb in Hb. rewrite forallb_forall in Hb.
    specialize (Hb (a, l)). simpl in Hb.
    assert (Hmem : In (a, l) (map_to_list (neighbors t))).
    { apply list_elem_of_In, elem_of_map_to_list. exact Hl. }
    specialize (Hb Hmem). rewrite forallb_forall in Hb.
    specialize (Hb b (proj1 (list_elem_of_In _ _) Hin)).
    destruct (neighbors t !! b) as [l'|] eqn:Hb'; [|discriminate].
    exists l'. split; [exact Hb'|]. by apply bool_decide_eq_true in Hb. }
  intros a b. split; apply Hdir.
Qed.

Lemma neighbors_in_rangeb_sound (t : IslTopology) :
  neighbors_in_rangeb t = true → neighbors_in_range t.
Proof.
  intros Hb u l v Hl Hin.
  unfold neighbors_in_rangeb in Hb. rewrite forallb_forall in Hb.
  specialize (Hb (u, l)). simpl in Hb.
  assert (Hmem : In (u, l) (map_to_list (neighbors t))).
  { apply list_elem_of_In, elem_of_map_to_list. exact Hl. }
  specialize (Hb Hmem). rewrite forallb_forall in Hb.
  specialize (Hb v (proj1 (list_elem_of_In _ _) Hin)).
  by apply N.ltb_lt in Hb.
Qed.

(** The generator has two results only: the bare topology for an unsupported
    request and the 24-satellite mesh. *)
Lemma generate_cases (n k : N) :
  (¬ (n = 24 ∧ k = 4)
   ∧ GenerateWalkerDeltaTopology n k
     = {| numSatellites := n; numLinks := 0; neighbors := ∅ |})
  ∨ (n = 24 ∧ k = 4 ∧ GenerateWalkerDeltaTopology n k = walker24).
Proof.
  destruct (N.eq_dec n 24) as [-> | Hn].
  - destruct (N.eq_dec k 4) as [-> | Hk].
    + right. split; [reflexivity|]. split; reflexivity.
    + left. split; [tauto|].
      unfold GenerateWalkerDeltaTopology.
      rewrite (proj2 (N.eqb_neq k 4) Hk). reflexivity.
  - left. split; [tauto|].
    unfold GenerateWalkerDeltaTopology.
    rewrite (proj2 (N.eqb_neq n 24) Hn). reflexivity.
Qed.

(** C2: every topology returned by GenerateWalkerDeltaTopology is symmetric:
    B is listed among the neighbors of A if and only if A is listed among the
    neighbors of B. *)
Theorem generated_topology_symmetric (n k : N) :
  symmetric (GenerateWalkerDeltaTopology n k).
Proof.
  destruct (generate_cases n k) as [[_ ->] | (_ & _ & ->)].
  - intros a b. unfold is_neighbor. simpl.
    split; intros (l & Hl & _); by rewrite lookup_empty in Hl.
  - apply symmetricb_sound. vm_compute. reflexivity.
Qed.

(** C5: a request other than (24, 4) returns, without error, the bare
    topology: zero links and an empty neighbor map (the requested satellite
    count is kept); in particular the request (10, 4) has zero links. *)
Theorem unsupported_request_is_empty (n k : N) :
  ¬ (n = 24 ∧ k = 4) →
  numLinks (GenerateWalkerDeltaTopology n k) = 0
  ∧ neighbors (GenerateWalkerDeltaTopology n k) = ∅
  ∧ numSatellites (GenerateWalkerDeltaTopology n k) = n.
Proof.
  intros Hne.
  destruct (generate_cases n k) as [[_ ->] | (Hn & Hk & _)]; [auto | tauto].
Qed.

Lemma unsupported_request_10_4 :
  numLinks (GenerateWalkerDeltaTopology 10 4) = 0
  ∧ neighbors (GenerateWalkerDeltaTopology 10 4) = ∅
  ∧ numSatellites (GenerateWalkerDeltaTopology 10 4) = 10.
Proof.
  apply (unsupported_request_is_empty 10 4).
  intros [H _]. discriminate H.
Defined.

(** C3: in GenerateWalkerDeltaTopology(24, 4) each of the 24 nodes has exactly
    four neighbors, two on the ring of its plane and two of the same index in
    the adjacent planes; numLinks is 48; after ComputeStaticRoutes the next hop
    from 0 to 1 is 1; and ComputeMeshConnectivity returns exactly 1.0. *)
Theorem walker24_scenario :
  numSatellites walker24 = 24
  ∧ dom (neighbors walker24) = list_to_set (N_range 24)
  ∧ Forall (λ x, ∃ l, neighbors walker24 !! x = Some l ∧ length l = 4%nat
                      ∧ walker_shape x l) (N_range 24)
  ∧ numLinks walker24 = 48
  ∧ (∃ routes, ComputeStaticRoutes walker24 = Done routes
               ∧ GetNextHop routes 0 1 = 1
               ∧ GetHopCount routes 0 1 = Done 1)
  ∧ ComputeMeshConnectivity walker24 = Done 1%float.
Proof.
  split; [reflexivity|].
  split; [vm_compute; reflexivity|].
  split.
  { unfold N_range. simpl.
    repeat (apply Forall_cons; split;
      [ eexists; split; [vm_compute; reflexivity|]; split; [reflexivity|];
        eexists _, _, _, _; split; [reflexivity|]; split;
        [ apply (bool_decide_unpack _); vm_compute; exact I
        | vm_compute; repeat split ] | ]).
    apply Forall_nil_2. }
  split; [vm_compute; reflexivity|].
  split.
  { apply outcome_done. vm_compute. split; reflexivity. }
  vm_compute. reflexivity.
Qed.

(** ** GetHopCount *)

Lemma wrap32_small (x : N) : x < 4294967296 → wrap32 x = x.
Proof. intros H. unfold wrap32. by apply N.mod_small. Qed.

Lemma walk_shift (routes : RoutingTables.t) (dst : N) (j : nat) (x : N) :
  walk routes dst (S j) x = walk routes dst j (GetNextHop routes x dst).
Proof.
  induction j as [|j IHj]; [reflexivity|].
  change (walk routes dst (S (S j)) x)
    with (GetNextHop routes (walk routes dst (S j) x) dst).
  rewrite IHj. reflexivity.
Qed.

(** The loop returns within the iterations that the cap on [hops] leaves. *)
Lemma hop_loop_returns (routes : RoutingTables.t) (dst : N) (fuel : nat) :
  ∀ current visited hops,
    hops ≤ 100 → (101 - N.to_nat hops ≤ fuel)%nat →
    ∃ r, hop_loop fuel routes dst current visited hops = Done r.
Proof.
  induction fuel as [|fuel IH]; intros current visited hops Hh Hf; [lia|].
  simpl. destruct (current =? dst); [eauto|].
  destruct (decide (current ∈ visited)); [eauto|].
  destruct (GetNextHop routes current dst =? UINT32_MAX); [eauto|].
  rewrite wrap32_small by lia.
  destruct (100 <? hops + 1) eqn:Hcap; [eauto|].
  apply N.ltb_ge in Hcap. apply IH; lia.
Qed.

(** A count other than the sentinel is the length of a walk that reaches
    [dst] through pairwise distinct nodes, none of them visited before and each
    with a table entry. *)
Lemma hop_loop_finite (routes : RoutingTables.t) (dst : N) (fuel : nat) :
  ∀ current visited hops r,
    hop_loop fuel routes dst current visited hops = Done r →
    r ≠ UINT32_MAX → hops ≤ 100 →
    ∃ k, r = hops + N.of_nat k ∧ r ≤ 100
         ∧ walk routes dst k current = dst
         ∧ (∀ j, (j < k)%nat →
              walk routes dst j current ≠ dst
              ∧ (walk routes dst j current ∉ visited)
              ∧ GetNextHop routes (walk routes dst j current) dst ≠ UINT32_MAX)
         ∧ (∀ i j, (i < j)%nat → (j < k)%nat →
              walk routes dst i current ≠ walk routes dst j current).
Proof.
  pose proof (walk_shift routes dst) as Hshift.
  induction fuel as [|fuel IH]; intros current visited hops r Hrun Hr Hh; simpl in Hrun.
  - destruct (current =? dst) eqn:Hcd; [|discriminate].
    apply N.eqb_eq in Hcd. injection Hrun as <-.
    exists 0%nat. repeat split; try lia; try (intros; lia). exact Hcd.
  - destruct (current =? dst) eqn:Hcd.
    { apply N.eqb_eq in Hcd. injection Hrun as <-.
      exists 0%nat. repeat split; try lia; try (intros; lia). exact Hcd. }
    apply N.eqb_neq in Hcd.
    destruct (decide (current ∈ visited)) as [|Hfresh]; [congruence|].
    destruct (GetNextHop routes current dst =? UINT32_MAX) eqn:Hnh; [congruence|].
    apply N.eqb_neq in Hnh.
    rewrite wrap32_small in Hrun by lia.
    destruct (100 <? hops + 1) eqn:Hcap; [congruence|].
    apply N.ltb_ge in Hcap.
    destruct (IH _ _ _ _ Hrun Hr Hcap) as (k & -> & Hle & Hend & Hall & Hdist).
    exists (S k). split; [lia|]. split; [lia|]. split; [by rewrite Hshift|].
    split.
    + intros [|j] Hj; simpl.
      * auto.
      * destruct (Hall j ltac:(lia)) as (H1 & H2 & H3).
        change (GetNextHop routes (walk routes dst j current) dst)
          with (walk routes dst (S j) current).
        rewrite Hshift. split; [exact H1|]. split; [|exact H3].
        intros Hin. apply H2, elem_of_union_r, Hin.
    + intros [|i] [|j] Hij Hj; try lia.
      * rewrite Hshift. simpl.
        destruct (Hall j ltac:(lia)) as (_ & H2 & _).
        intros Heq. apply H2, elem_of_union_l, elem_of_singleton. symmetry. exact Heq.
      * rewrite !Hshift. apply Hdist; lia.
Qed.

Lemma GetHopCount_returns (routes : RoutingTables.t) (src dst : N) :
  ∃ r, GetHopCount routes src dst = Done r.
Proof.
  unfold GetHopCount. destruct (src =? dst); [eauto|].
  apply hop_loop_returns; simpl; lia.
Qed.

Lemma GetHopCount_finite (routes : RoutingTables.t) (src dst r : N) :
  GetHopCount routes src dst = Done r → r ≠ UINT32_MAX →
  ∃ k, r = N.of_nat k ∧ r ≤ 100
       ∧ walk routes dst k src = dst
       ∧ (∀ j, (j < k)%nat →
            walk routes dst j src ≠ dst
            ∧ GetNextHop routes (walk routes dst j src) dst ≠ UINT32_MAX)
       ∧ (∀ i j, (i < j)%nat → (j < k)%nat →
            walk routes dst i src ≠ walk routes dst j src).
Proof.
  unfold GetHopCount. intros Hrun Hr.
  destruct (src =? dst) eqn:Hsd.
  - apply N.eqb_eq in Hsd. injection Hrun as <-.
    exists 0%nat. repeat split; try lia; try (intros; lia). exact Hsd.
  - destruct (hop_loop_finite _ _ _ _ _ _ _ Hrun Hr ltac:(lia))
      as (k & -> & Hle & Hend & Hall & Hdist).
    exists k. split; [lia|]. split; [lia|]. split; [exact Hend|].
    split; [|exact Hdist].
    intros j Hj. destruct (Hall j Hj) as (? & ? & ?). split; assumption.
Qed.

(** C4: on every routing table GetHopCount returns, and it returns the
    UINT32_MAX sentinel whenever the next-hop walk from src comes back to a
    node, or finds no table entry, before reaching dst; a finite count is
    never returned for such a walk. *)
Theorem hop_count_loop_safe (routes : RoutingTables.t) (src dst : N) :
  (∃ r, GetHopCount routes src dst = Done r)
  ∧ (walk_revisits routes src dst ∨ walk_dead_end routes src dst →
     GetHopCount routes src dst = Done UINT32_MAX).
Proof.
  split; [apply GetHopCount_returns|].
  intros Hbad.
  destruct (GetHopCount_returns routes src dst) as [r Hrun].
  rewrite Hrun. f_equal.
  destruct (N.eq_dec r UINT32_MAX) as [|Hr]; [assumption|exfalso].
  destruct (GetHopCount_finite _ _ _ _ Hrun Hr) as (k & _ & _ & Hend & Hall & Hdist).
  destruct Hbad as [(i & j & Hij & Heq & Hnot) | (j & Hnone & Hnot)].
  - destruct (le_lt_dec k j) as [Hkj | Hjk].
    + exact (Hnot k Hkj Hend).
    + exact (Hdist i j Hij Hjk Heq).
  - destruct (le_lt_dec k j) as [Hkj | Hjk].
    + exact (Hnot k Hkj Hend).
    + destruct (Hall j Hjk) as [_ H]. exact (H Hnone).
Qed.

(** The corrupted table with the cycle 0 -> 1 -> 0 towards destination 2. *)
Lemma hop_count_two_cycle :
  (∃ r, GetHopCount two_cycle_table 0 2 = Done r)
  ∧ GetHopCount two_cycle_table 0 2 = Done UINT32_MAX.
Proof.
  split; [apply (hop_count_loop_safe two_cycle_table 0 2)|].
  apply (hop_count_loop_safe two_cycle_table 0 2).
  left. exists 0%nat, 2%nat. split; [lia|]. split; [vm_compute; reflexivity|].
  intros m Hm.
  destruct m as [|[|[|m]]]; [vm_compute; discriminate ..|lia].
Defined.

(** C10: for every routing table, the empty one included, and every node x,
    GetHopCount(routes, x, x) is 0; where the table has no entry for (x, x), as
    is the case of the empty table, GetNextHop(x, x) is the no-route sentinel:
    the self hop count is defined while the self next hop is not. *)
Theorem hop_count_self_is_zero (routes : RoutingTables.t) (x : N) :
  GetHopCount routes x x = Done 0
  ∧ (self_entry routes x = None → GetNextHop routes x x = UINT32_MAX)
  ∧ self_entry RoutingTables.empty x = None.
Proof.
  split; [unfold GetHopCount; rewrite N.eqb_refl; reflexivity|].
  split; [|reflexivity].
  unfold self_entry, GetNextHop.
  destruct (m_nextHop routes !! x) as [row|]; simpl; [|reflexivity].
  intros ->. reflexivity.
Qed.

(** On the empty table, for node 5. *)
Lemma hop_count_self_empty_table :
  GetHopCount RoutingTables.empty 5 5 = Done 0
  ∧ GetNextHop RoutingTables.empty 5 5 = UINT32_MAX.
Proof.
  destruct (hop_count_self_is_zero RoutingTables.empty 5) as (Hcount & Hnext & Hnone).
  split; [exact Hcount | apply Hnext; reflexivity].
Defined.

(** ** Checked vector accesses *)

Lemma vec_get_lt {A : Type} (v : list A) (i : N) :
  (N.to_nat i < length v)%nat → ∃ x, vec_get v i = Done x ∧ v !! N.to_nat i = Some x.
Proof.
  intros Hlt. unfold vec_get.
  destruct (lookup_lt_is_Some_2 v _ Hlt) as [x Hx]. rewrite Hx. eauto.
Qed.

Lemma vec_get_Done {A : Type} (v : list A) (i : N) (x : A) :
  vec_get v i = Done x → v !! N.to_nat i = Some x.
Proof.
  unfold vec_get. destruct (v !! N.to_nat i); intros H; [congruence | discriminate].
Qed.

Lemma vec_set_lt {A : Type} (v : list A) (i : N) (x : A) :
  (N.to_nat i < length v)%nat → vec_set v i x = Done (<[N.to_nat i := x]> v).
Proof. intros Hlt. unfold vec_set. by rewrite decide_True. Qed.

Lemma vec_set_Done {A : Type} (v v' : list A) (i : N) (x : A) :
  vec_set v i x = Done v' → (N.to_nat i < length v)%nat ∧ v' = <[N.to_nat i := x]> v.
Proof.
  unfold vec_set. destruct (decide _); intros H; [|discriminate].
  split; [assumption | congruence].
Qed.

Lemma N_range_lookup (n : N) (k : nat) :
  (k < N.to_nat n)%nat → N_range n !! k = Some (N.of_nat k).
Proof.
  intros Hk. unfold N_range. rewrite list_lookup_fmap.
  rewrite lookup_seq_lt by assumption. reflexivity.
Qed.

Lemma N_range_elem (n x : N) : x ∈ N_range n ↔ x < n.
Proof.
  unfold N_range. rewrite list_elem_of_fmap. split.
  - intros (k & -> & Hk). apply elem_of_seq in Hk. lia.
  - intros Hx. exists (N.to_nat x). split; [lia|]. apply elem_of_seq. lia.
Qed.

Lemma N_range_length (n : N) : length (N_range n) = N.to_nat n.
Proof. unfold N_range. by rewrite length_map, length_seq. Qed.

Lemma N_range_NoDup (n : N) : NoDup (N_range n).
Proof.
  unfold N_range. apply NoDup_fmap_2; [|apply NoDup_seq].
  intros a b Hab. lia.
Qed.

(** ** AssignIslAddresses *)

Lemma assign_device_in_range (nodes : NodeInterfaces) (dev : N) (addr : Ipv4Address) :
  (N.to_nat dev < length nodes)%nat →
  ∃ nodes' itf, assign_device nodes dev addr = Done (nodes', itf)
                ∧ length nodes' = length nodes ∧ if_addr itf = addr.
Proof.
  intros Hlt. unfold assign_device.
  destruct (vec_get_lt nodes dev Hlt) as (ifs & -> & _). simpl.
  rewrite vec_set_lt by assumption. simpl.
  eexists _, _. split; [reflexivity|]. split; [apply length_insert | reflexivity].
Qed.

Lemma link_subnet_formula (i : N) :
  link_subnet i = {| num1 := 10; num2 := i / 64; num3 := (i mod 64) * 4; num4 := 0 |}.
Proof.
  unfold link_subnet. f_equal. apply wrap32_small.
  pose proof (N.mod_upper_bound i 64 ltac:(lia)). lia.
Qed.

Lemma link_subnet_valid (i : N) : i < 16384 → valid_dotted (link_subnet i).
Proof.
  intros Hi. rewrite link_subnet_formula. unfold valid_dotted. simpl.
  pose proof (N.mod_upper_bound i 64 ltac:(lia)) as Hm.
  assert (Hd : i / 64 < 256) by (apply N.Div0.div_lt_upper_bound; lia).
  lia.
Qed.

Lemma valid_dottedb_spec (text : DottedDecimal) :
  valid_dottedb text = true ↔ valid_dotted text.
Proof.
  unfold valid_dottedb, valid_dotted. rewrite !andb_true_iff, !N.leb_le. tauto.
Qed.

(** Below link 16384 the text of the block is that of an address. *)
Lemma SetBase_link_subnet (i : N) :
  i < 16384 → SetBase (link_subnet i) = Done (link_network i).
Proof.
  intros Hi. unfold SetBase, Ipv4Address_of_text.
  rewrite (proj2 (valid_dottedb_spec _) (link_subnet_valid i Hi)). reflexivity.
Qed.

(** Every device of the container sits on a node of the node table, and the
    links handled are links of the container, each below 16384. *)
Lemma assign_links_spec (islDevices : list N) (links : list N) :
  ∀ nodes interfaces,
    Forall (λ i, i < 16384 ∧ (N.to_nat (i * 2 + 1) < length islDevices)%nat) links →
    Forall (λ d, (N.to_nat d < length nodes)%nat) islDevices →
    ∃ nodes' interfaces',
      assign_links links islDevices nodes interfaces = Done (nodes', interfaces')
      ∧ map if_addr interfaces' = map if_addr interfaces ++ flat_map link_hosts links.
Proof.
  induction links as [|i links IH]; intros nodes interfaces Hlinks Hdevs.
  - eexists _, _. split; [reflexivity|]. simpl. by rewrite app_nil_r.
  - apply Forall_cons in Hlinks as [[Hi Hidx] Hlinks].
    cbn [assign_links]. rewrite (SetBase_link_subnet i Hi).
    cbn [mbind outcome_bind obind].
    rewrite (wrap32_small (i * 2)) by lia.
    rewrite (wrap32_small (i * 2 + 1)) by lia.
    destruct (vec_get_lt islDevices (i * 2) ltac:(lia)) as (devA & -> & HA).
    cbn [mbind outcome_bind obind].
    destruct (vec_get_lt islDevices (i * 2 + 1) ltac:(lia)) as (devB & -> & HB).
    cbn [mbind outcome_bind obind].
    rewrite Forall_lookup in Hdevs.
    destruct (assign_device_in_range nodes devA (host_address (link_network i) 1)
                (Hdevs _ _ HA)) as (nodes1 & ifA & -> & Hlen1 & HaddrA).
    cbn [mbind outcome_bind obind].
    destruct (assign_device_in_range nodes1 devB (host_address (link_network i) 2))
      as (nodes2 & ifB & -> & Hlen2 & HaddrB).
    { rewrite Hlen1. exact (Hdevs _ _ HB). }
    cbn [mbind outcome_bind obind].
    destruct (IH nodes2 (interfaces ++ [ifA; ifB]) Hlinks) as (nodes' & ifs' & -> & Hmap).
    { apply Forall_lookup. intros k d Hd. rewrite Hlen2, Hlen1. exact (Hdevs _ _ Hd). }
    eexists _, _. split; [reflexivity|].
    rewrite Hmap, map_app. cbn [map flat_map link_hosts app].
    rewrite HaddrA, HaddrB, <- app_assoc. reflexivity.
Qed.

Lemma flat_map_pairs_lookup {A B : Type} (f g : A → B) (l : list A) :
  ∀ k x, l !! k = Some x →
    flat_map (λ i, [f i; g i]) l !! (2 * k)%nat = Some (f x)
    ∧ flat_map (λ i, [f i; g i]) l !! (2 * k + 1)%nat = Some (g x).
Proof.
  induction l as [|a l IH]; intros k x Hk; [discriminate|].
  destruct k as [|k]; simpl in *.
  - injection Hk as ->. auto.
  - replace (k + S (k + 0))%nat with (S (2 * k)) by lia.
    replace (k + S (k + 0) + 1)%nat with (S (2 * k + 1)) by lia.
    simpl. apply IH. exact Hk.
Qed.

(** The run of [AssignIslAddresses] on at most 16384 links: it returns, and
    the interfaces of link [i] carry the first and the second host address of
    the network of [link_subnet i]. *)
Lemma AssignIslAddresses_spec (nodes : NodeInterfaces) (islDevices : list N) :
  N.of_nat (length islDevices) / 2 ≤ 16384 →
  Forall (λ d, (N.to_nat d < length nodes)%nat) islDevices →
  ∃ nodes' interfaces,
    AssignIslAddresses nodes islDevices = Done (nodes', interfaces)
    ∧ ∀ i, i < N.of_nat (length islDevices) / 2 →
        if_addr <$> interfaces !! N.to_nat (2 * i) = Some (host_address (link_network i) 1)
        ∧ if_addr <$> interfaces !! N.to_nat (2 * i + 1)
          = Some (host_address (link_network i) 2).
Proof.
  intros Hlen Hdevs. unfold AssignIslAddresses.
  assert (Hsmall : N.of_nat (length islDevices) < 4294967296).
  { pose proof (N.mul_succ_div_gt (N.of_nat (length islDevices)) 2 ltac:(lia)). lia. }
  rewrite wrap32_small by assumption.
  set (linkCount := N.of_nat (length islDevices) / 2) in *.
  assert (Hcount : 2 * linkCount ≤ N.of_nat (length islDevices)).
  { unfold linkCount. apply N.Div0.mul_div_le. }
  destruct (assign_links_spec islDevices (N_range linkCount) nodes [])
    as (nodes' & ifs & Hrun & Hmap).
  { apply Forall_forall. intros i Hi. apply N_range_elem in Hi. lia. }
  { assumption. }
  eexists _, _. split; [exact Hrun|].
  intros i Hi. simpl in Hmap.
  destruct (flat_map_pairs_lookup
              (λ i, host_address (link_network i) 1)
              (λ i, host_address (link_network i) 2)
              (N_range linkCount) (N.to_nat i) i) as [H1 H2].
  { rewrite N_range_lookup by lia. f_equal. lia. }
  change (flat_map (λ i0, [host_address (link_network i0) 1; host_address (link_network i0) 2]))
    with (flat_map link_hosts) in H1, H2.
  rewrite <- Hmap in H1, H2. rewrite !list_lookup_fmap in H1, H2.
  replace (N.to_nat (2 * i)) with (2 * N.to_nat i)%nat by lia.
  replace (N.to_nat (2 * i + 1)) with (2 * N.to_nat i + 1)%nat by lia.
  auto.
Qed.

(** The network of link [i] is link [i]'s multiple of 1024 above 10.0.0.0. *)
Lemma link_network_value (i : N) :
  m_address (link_network i) = 167772160 + 1024 * i.
Proof.
  unfold link_network. rewrite link_subnet_formula. unfold dotted_value. simpl.
  pose proof (N.div_mod i 64 ltac:(lia)) as Hi. lia.
Qed.

Lemma host_address_value (i k : N) :
  i < 16384 → k ≤ 3 →
  m_address (host_address (link_network i) k) = 167772160 + 1024 * i + k.
Proof.
  intros Hi Hk. unfold host_address. cbn [m_address].
  rewrite link_network_value. apply wrap32_small. lia.
Qed.

Lemma octets_of_value (a b c d : N) :
  a ≤ 255 → b ≤ 255 → c ≤ 255 → d ≤ 255 →
  octets {| m_address := ((a * 256 + b) * 256 + c) * 256 + d |}
  = {| num1 := a; num2 := b; num3 := c; num4 := d |}.
Proof.
  intros Ha Hb Hc Hd. unfold octets. cbn [m_address].
  assert (H4 : (((a * 256 + b) * 256 + c) * 256 + d) mod 256 = d).
  { symmetry. apply (N.mod_unique _ _ ((a * 256 + b) * 256 + c)); lia. }
  assert (D3 : (((a * 256 + b) * 256 + c) * 256 + d) / 256 = (a * 256 + b) * 256 + c).
  { symmetry. apply (N.div_unique _ _ _ d); lia. }
  assert (D2 : (((a * 256 + b) * 256 + c) * 256 + d) / 65536 = a * 256 + b).
  { symmetry. apply (N.div_unique _ _ _ (c * 256 + d)); lia. }
  assert (D1 : (((a * 256 + b) * 256 + c) * 256 + d) / 16777216 = a).
  { symmetry. apply (N.div_unique _ _ _ ((b * 256 + c) * 256 + d)); lia. }
  rewrite H4, D3, D2, D1. f_equal.
  - apply N.mod_small. lia.
  - symmetry. apply (N.mod_unique _ _ a); lia.
  - symmetry. apply (N.mod_unique _ _ (a * 256 + b)); lia.
Qed.

(** The addresses of the block of link [i], in dotted form. *)
Lemma host_address_octets (i k : N) :
  i < 16384 → k ≤ 3 →
  octets (host_address (link_network i) k)
  = {| num1 := 10; num2 := i / 64; num3 := (i mod 64) * 4; num4 := k |}.
Proof.
  intros Hi Hk.
  pose proof (N.mod_upper_bound i 64 ltac:(lia)) as Hm.
  assert (Hd : i / 64 < 256) by (apply N.Div0.div_lt_upper_bound; lia).
  rewrite <- (octets_of_value 10 (i / 64) ((i mod 64) * 4) k) by lia.
  f_equal. destruct (host_address (link_network i) k) as [v] eqn:Hv.
  f_equal. change v with (m_address {| m_address := v |}). rewrite <- Hv.
  rewrite host_address_value by assumption.
  pose proof (N.div_mod i 64 ltac:(lia)). lia.
Qed.

Lemma link_block_octets (i : N) :
  i < 16384 →
  map octets (subnet_block (link_network i))
  = map (λ k, {| num1 := 10; num2 := i / 64; num3 := (i mod 64) * 4; num4 := k |})
        [0; 1; 2; 3].
Proof.
  intros Hi. unfold subnet_block. cbn [map].
  rewrite !host_address_octets by lia. reflexivity.
Qed.

Lemma link_block_valid (i : N) :
  i < 16384 → Forall valid_ipv4 (subnet_block (link_network i)).
Proof.
  intros Hi. unfold subnet_block, valid_ipv4. cbn [map].
  repeat (apply Forall_cons; split; [rewrite host_address_value by lia; lia|]).
  apply Forall_nil_2.
Qed.

(** From link 16384 on the text of the block has a second number that is no
    octet, and is the dotted form of no address. *)
Lemma link_subnet_invalid (i : N) :
  16384 ≤ i →
  ¬ valid_dotted (link_subnet i) ∧ ∀ a : Ipv4Address, octets a ≠ link_subnet i.
Proof.
  intros Hi. rewrite link_subnet_formula.
  assert (Hd : 256 ≤ i / 64) by (apply N.div_le_lower_bound; lia).
  split.
  - unfold valid_dotted. simpl. lia.
  - intros a Heq. apply (f_equal num2) in Heq. simpl in Heq.
    pose proof (N.mod_upper_bound (m_address a / 65536) 256 ltac:(lia)). lia.
Qed.

Lemma link_blocks_disjoint (i j : N) :
  i < 16384 → j < 16384 → i ≠ j →
  Forall (λ a, Forall (λ b, a ≠ b ∧ m_address a ≠ m_address b)
                      (subnet_block (link_network j)))
         (subnet_block (link_network i)).
Proof.
  intros Hi Hj Hij. unfold subnet_block. cbn [map].
  assert (Hne : ∀ k k', k ≤ 3 → k' ≤ 3 →
            host_address (link_network i) k ≠ host_address (link_network j) k'
            ∧ m_address (host_address (link_network i) k)
              ≠ m_address (host_address (link_network j) k')).
  { intros k k' Hk Hk'.
    assert (Hv : m_address (host_address (link_network i) k)
                 ≠ m_address (host_address (link_network j) k')).
    { rewrite !host_address_value by assumption. lia. }
    split; [|exact Hv]. intros Heq. apply Hv. rewrite Heq. reflexivity. }
  repeat (apply Forall_cons; split;
          [repeat (apply Forall_cons; split; [apply Hne; lia|]); apply Forall_nil_2|]).
  apply Forall_nil_2.
Qed.

(** C6 (as amended): for a device container of at most 16384 links whose
    devices sit on nodes of the node table, AssignIslAddresses returns; the
    text printed for link i is 10.(i/64).((i mod 64)*4).0, whose four numbers
    are octets, so that SetBase gets the address of a network; the block of
    the link is the four valid addresses 10.(i/64).((i mod 64)*4).0 to .3, its
    two interfaces get the first and second host address of that block; the
    blocks of two distinct links have no address in common; and the third
    number never exceeds 252: after 64 links it starts again at 0 and the
    second number goes up by one. *)
Theorem link_addresses_disjoint (nodes : NodeInterfaces) (islDevices : list N) (i j : N) :
  N.of_nat (length islDevices) ≤ 32768 →
  Forall (λ d, (N.to_nat d < length nodes)%nat) islDevices →
  i < N.of_nat (length islDevices) / 2 →
  j < N.of_nat (length islDevices) / 2 →
  i ≠ j →
  ∃ nodes' interfaces,
    AssignIslAddresses nodes islDevices = Done (nodes', interfaces)
    ∧ if_addr <$> interfaces !! N.to_nat (2 * i) = Some (host_address (link_network i) 1)
    ∧ if_addr <$> interfaces !! N.to_nat (2 * i + 1) = Some (host_address (link_network i) 2)
    ∧ link_subnet i = {| num1 := 10; num2 := i / 64; num3 := (i mod 64) * 4; num4 := 0 |}
    ∧ valid_dotted (link_subnet i)
    ∧ SetBase (link_subnet i) = Done (link_network i)
    ∧ map octets (subnet_block (link_network i))
      = map (λ k, {| num1 := 10; num2 := i / 64; num3 := (i mod 64) * 4; num4 := k |})
            [0; 1; 2; 3]
    ∧ Forall valid_ipv4 (subnet_block (link_network i))
    ∧ Forall (λ a, Forall (λ b, a ≠ b ∧ m_address a ≠ m_address b)
                          (subnet_block (link_network j)))
             (subnet_block (link_network i))
    ∧ num3 (link_subnet i) ≤ 252
    ∧ link_subnet (64 * (i / 64) + 64)
      = {| num1 := 10; num2 := i / 64 + 1; num3 := 0; num4 := 0 |}.
Proof.
  intros Hlen Hdevs Hi Hj Hij.
  assert (Hhalf : N.of_nat (length islDevices) / 2 ≤ 16384).
  { change 16384 with (32768 / 2). apply N.Div0.div_le_mono. exact Hlen. }
  destruct (AssignIslAddresses_spec nodes islDevices Hhalf Hdevs)
    as (nodes' & ifs & Hrun & Haddr).
  destruct (Haddr i Hi) as [H1 H2].
  assert (Hi' : i < 16384) by lia.
  assert (Hj' : j < 16384) by lia.
  exists nodes', ifs.
  split; [exact Hrun|]. split; [exact H1|]. split; [exact H2|].
  split; [apply link_subnet_formula|].
  split; [apply link_subnet_valid; exact Hi'|].
  split; [apply SetBase_link_subnet; exact Hi'|].
  split; [apply link_block_octets; exact Hi'|].
  split; [apply link_block_valid; exact Hi'|].
  split; [apply link_blocks_disjoint; assumption|].
  split.
  - rewrite link_subnet_formula. simpl.
    pose proof (N.mod_upper_bound i 64 ltac:(lia)). lia.
  - rewrite link_subnet_formula. f_equal.
    + replace (64 * (i / 64) + 64) with ((i / 64 + 1) * 64) by lia.
      apply N.div_mul. lia.
    + replace (64 * (i / 64) + 64) with ((i / 64 + 1) * 64) by lia.
      rewrite N.Div0.mod_mul. reflexivity.
Qed.

(** Links 63 and 64 of a container of 65 links on two nodes: the third
    number rolls from 252 to 0 and the second goes from 0 to 1. *)
Lemma link_addresses_disjoint_63_64 :
  ∃ nodes' interfaces a,
    AssignIslAddresses [[loopback]; [loopback]] (replicate 130 1) = Done (nodes', interfaces)
    ∧ if_addr <$> interfaces !! 126%nat = Some a
    ∧ octets a = {| num1 := 10; num2 := 0; num3 := 252; num4 := 1 |}
    ∧ link_subnet 64 = {| num1 := 10; num2 := 1; num3 := 0; num4 := 0 |}.
Proof.
  destruct (link_addresses_disjoint [[loopback]; [loopback]] (replicate 130 1) 63 64)
    as (nodes' & ifs & Hrun & H1 & _ & _ & _ & _ & _ & _ & _ & _ & Hroll).
  - vm_compute. discriminate.
  - apply Forall_replicate. vm_compute. lia.
  - vm_compute. reflexivity.
  - vm_compute. reflexivity.
  - discriminate.
  - exists nodes', ifs, (host_address (link_network 63) 1).
    split; [exact Hrun|]. split; [exact H1|]. split; [reflexivity | exact Hroll].
Defined.

(** C6 (as stated) fails from link 16384 on.  A container of 32770 devices
    has 16385 links, so that the loop reaches i = 16384; the text printed for
    that link is 10.256.0.0: the second number has passed 255 without any
    roll into the first one, it is no octet, and the text is the dotted form
    of no 32-bit address. *)
Lemma link_16384_is_invalid :
  wrap32 32770 / 2 = 16385
  ∧ 16384 ∈ N_range (wrap32 32770 / 2)
  ∧ link_subnet 16384 = {| num1 := 10; num2 := 256; num3 := 0; num4 := 0 |}
  ∧ ¬ valid_dotted (link_subnet 16384)
  ∧ ∀ a : Ipv4Address, octets a ≠ link_subnet 16384.
Proof.
  split; [reflexivity|].
  split; [apply N_range_elem; reflexivity|].
  split; [reflexivity|].
  apply link_subnet_invalid. discriminate.
Defined.

(** ** InstallStaticRoutes *)

Lemma wrap32_add_l (x y : N) : wrap32 (wrap32 x + y) = wrap32 (x + y).
Proof. unfold wrap32. apply N.Div0.add_mod_idemp_l. Qed.

Section InstallLoops.

Variable routes : RoutingTables.t.
Variable linkToLocalInterface : gmap (N * N) (N * Ipv4Address).
Variable satelliteAddress : gmap N Ipv4Address.

Lemma install_dsts_spec (src : N) (dsts : list N) :
  ∀ res,
    totalRoutes res < 4294967296 →
    let ps := map (pair src) (filter (λ dst, src ≠ dst) dsts) in
    let res' := install_dsts routes linkToLocalInterface satelliteAddress src dsts res in
    installed res' = installed res ++ omap (route_of routes linkToLocalInterface satelliteAddress) ps
    ∧ skipped res' = skipped res ++ omap (skip_of routes linkToLocalInterface satelliteAddress) ps
    ∧ totalRoutes res'
      = wrap32 (totalRoutes res + N.of_nat (length (omap (route_of routes linkToLocalInterface satelliteAddress) ps))).
Proof.
unfold route_of, skip_of.
  induction dsts as [|dst dsts IH]; intros res Hres; simpl.
  - rewrite !app_nil_r, N.add_0_r, wrap32_small by assumption. auto.
  - rewrite filter_cons.
    destruct (src =? dst) eqn:Hsd.
    + apply N.eqb_eq in Hsd. rewrite decide_False by tauto. apply IH. exact Hres.
    + apply N.eqb_neq in Hsd. rewrite decide_True by assumption. simpl.
      destruct (install_pair routes linkToLocalInterface satelliteAddress src dst)
        as [route | why].
      * edestruct IH as (-> & -> & ->).
        { simpl. apply N.mod_lt. lia. }
        simpl. rewrite <- app_assoc. split; [reflexivity|]. split; [reflexivity|].
        rewrite wrap32_add_l. f_equal. unfold omap. lia.
      * edestruct IH as (-> & -> & ->).
        { simpl. exact Hres. }
        simpl. rewrite <- app_assoc. auto.
Qed.

Lemma install_srcs_spec (n : N) (srcs : list N) :
  ∀ res,
    totalRoutes res < 4294967296 →
    let ps := flat_map (λ src, map (pair src) (filter (λ dst, src ≠ dst) (N_range n)))
                       srcs in
    let res' := install_srcs routes linkToLocalInterface satelliteAddress n srcs res in
    installed res' = installed res ++ omap (route_of routes linkToLocalInterface satelliteAddress) ps
    ∧ skipped res' = skipped res ++ omap (skip_of routes linkToLocalInterface satelliteAddress) ps
    ∧ totalRoutes res'
      = wrap32 (totalRoutes res + N.of_nat (length (omap (route_of routes linkToLocalInterface satelliteAddress) ps))).
Proof.
  induction srcs as [|src srcs IH]; intros res Hres; simpl.
  - rewrite !app_nil_r, N.add_0_r, wrap32_small by assumption. auto.
  - destruct (install_dsts_spec src (N_range n) res Hres) as (Hi & Hs & Ht).
    edestruct IH as (-> & -> & ->).
    { rewrite Ht. apply N.mod_lt. lia. }
    rewrite Hi, Hs, Ht, !omap_app, <- !app_assoc.
    split; [reflexivity|]. split; [reflexivity|].
    rewrite wrap32_add_l, length_app. f_equal. lia.
Qed.

End InstallLoops.

Lemma build_link_index_returns (half : nat) :
  ∀ islInterfaces index,
    length islInterfaces = (2 * half)%nat →
    ∃ index', build_link_index islInterfaces index = Done index'.
Proof.
  induction half as [|half IH]; intros ifs index Hlen.
  - destruct ifs; [|discriminate]. simpl. eauto.
  - destruct ifs as [|ifA [|ifB rest]]; simpl in Hlen; try lia.
    simpl. apply IH. lia.
Qed.

Lemma build_satellite_address_returns (nodes : NodeInterfaces) (sats : list N) :
  ∀ index,
    Forall (λ sat, (N.to_nat sat < length nodes)%nat) sats →
    ∃ index', build_satellite_address sats nodes index = Done index'.
Proof.
  induction sats as [|sat sats IH]; intros index Hsats; simpl; [eauto|].
  apply Forall_cons in Hsats as [Hsat Hsats].
  destruct (vec_get_lt nodes sat Hsat) as (ifs & -> & _). simpl.
  destruct (1 <? length ifs)%nat eqn:Hn.
  - apply Nat.ltb_lt in Hn.
    destruct (vec_get_lt ifs 1 ltac:(simpl; lia)) as (a & -> & _). simpl.
    apply IH. exact Hsats.
  - apply IH. exact Hsats.
Qed.

Lemma ordered_pairs_elem (n src dst : N) :
  (src, dst) ∈ ordered_pairs n ↔ src < n ∧ dst < n ∧ src ≠ dst.
Proof.
  unfold ordered_pairs. rewrite list_elem_of_In, in_flat_map. split.
  - intros (s & Hs & Hin).
    apply list_elem_of_In, N_range_elem in Hs.
    apply list_elem_of_In, list_elem_of_fmap in Hin as (d & Heq & Hd).
    injection Heq as -> ->.
    apply list_elem_of_filter in Hd as [Hne Hd]. apply N_range_elem in Hd. auto.
  - intros (Hs & Hd & Hne). exists src. split.
    + apply list_elem_of_In, N_range_elem. exact Hs.
    + apply list_elem_of_In, list_elem_of_fmap. exists dst. split; [reflexivity|].
      apply list_elem_of_filter. split; [exact Hne | apply N_range_elem; exact Hd].
Qed.

(** ** Helper lemmas for the shortest-path search *)

Lemma vec_at_insert {A : Type} (v : list A) (i j : N) (x : A) :
  (N.to_nat i < length v)%nat →
  vec_at (<[N.to_nat i := x]> v) j = if decide (i = j) then Some x else vec_at v j.
Proof.
  intros Hlt. unfold vec_at. destruct (decide (i = j)) as [-> | Hne].
  - by apply list_lookup_insert_eq.
  - apply list_lookup_insert_ne. lia.
Qed.

Lemma vec_at_lt {A : Type} (v : list A) (i : N) (x : A) :
  vec_at v i = Some x → (N.to_nat i < length v)%nat.
Proof. unfold vec_at. apply lookup_lt_Some. Qed.

Lemma vec_at_is_Some {A : Type} (v : list A) (i : N) :
  (N.to_nat i < length v)%nat → ∃ x, vec_at v i = Some x.
Proof. intros Hlt. apply lookup_lt_is_Some_2 in Hlt as [x Hx]. eauto. Qed.

Lemma vec_at_replicate {A : Type} (k : nat) (x y : A) (i : N) :
  vec_at (replicate k x) i = Some y → y = x.
Proof. unfold vec_at. intros H. apply lookup_replicate in H. tauto. Qed.

Lemma vec_get_at {A : Type} (v : list A) (i : N) (x : A) :
  vec_at v i = Some x → vec_get v i = Done x.
Proof. unfold vec_at, vec_get. by intros ->. Qed.

Lemma count_true_le (v : list bool) : (N.to_nat (count_true v) ≤ length v)%nat.
Proof.
  unfold count_true. rewrite Nat2N.id. apply length_filter.
Qed.

Lemma count_true_false (v : list bool) (i : N) :
  vec_at v i = Some false → (N.to_nat (count_true v) < length v)%nat.
Proof.
  unfold count_true, vec_at. rewrite Nat2N.id.
  generalize (N.to_nat i). clear i. intros i.
  revert i. induction v as [|b v IH]; intros i Hi; [discriminate|].
  destruct i as [|i]; simpl in Hi.
  - injection Hi as ->. rewrite filter_cons_False by discriminate.
    simpl. pose proof (length_filter (λ b : bool, b = true) v). lia.
  - specialize (IH i Hi). rewrite filter_cons.
    destruct (decide (b = true)); simpl; lia.
Qed.

Lemma count_true_insert (v : list bool) (i : N) :
  vec_at v i = Some false →
  count_true (<[N.to_nat i := true]> v) = count_true v + 1.
Proof.
  unfold count_true, vec_at.
  generalize (N.to_nat i). clear i. intros i.
  assert (H : ∀ i, v !! i = Some false →
            length (filter (λ b : bool, b = true) (<[i := true]> v))
            = S (length (filter (λ b : bool, b = true) v))).
  { clear i. induction v as [|b v IH]; intros i Hi; [discriminate|].
    destruct i as [|i]; simpl in Hi.
    - injection Hi as ->. change (<[0%nat := true]> (false :: v)) with (true :: v).
      rewrite (filter_cons_True (λ b : bool, b = true) true v) by reflexivity.
      rewrite (filter_cons_False (λ b : bool, b = true) false v) by discriminate.
      reflexivity.
    - change (<[S i := true]> (b :: v)) with (b :: <[i := true]> v).
      rewrite !filter_cons. destruct (decide (b = true)); simpl; rewrite IH; auto. }
  intros Hi. rewrite (H i Hi). lia.
Qed.

Lemma pq_lt_spec (a b : N * N) :
  pq_lt a b = true ↔ a.1 < b.1 ∨ (a.1 = b.1 ∧ a.2 < b.2).
Proof.
  unfold pq_lt. rewrite orb_true_iff, andb_true_iff, !N.ltb_lt, N.eqb_eq. tauto.
Qed.

Lemma pq_lt_false (a b : N * N) :
  pq_lt a b = false ↔ b.1 < a.1 ∨ (a.1 = b.1 ∧ b.2 ≤ a.2).
Proof.
  rewrite <- not_true_iff_false, pq_lt_spec. lia.
Qed.

Lemma pq_push_elem (x y : N * N) (pq : list (N * N)) :
  y ∈ pq_push x pq ↔ y = x ∨ y ∈ pq.
Proof.
  induction pq as [|z pq IH]; simpl.
  - rewrite list_elem_of_singleton. split; [auto|].
    intros [H | H]; [exact H | by apply elem_of_nil in H].
  - destruct (pq_lt z x); rewrite !elem_of_cons; [rewrite IH|]; tauto.
Qed.

Lemma pq_push_length (x : N * N) (pq : list (N * N)) :
  length (pq_push x pq) = S (length pq).
Proof.
  induction pq as [|z pq IH]; simpl; [reflexivity|].
  destruct (pq_lt z x); simpl; [by rewrite IH | reflexivity].
Qed.

Lemma pq_push_sorted (x : N * N) (pq : list (N * N)) :
  pq_sorted pq → pq_sorted (pq_push x pq).
Proof.
  induction pq as [|z pq IH]; simpl.
  - intros _. split; [|exact I]. intros y Hy. by apply elem_of_nil in Hy.
  - intros [Hmin Hsorted]. destruct (pq_lt z x) eqn:Hzx; simpl.
    + split; [|by apply IH].
      intros y Hy. apply pq_push_elem in Hy as [-> | Hy]; [|by apply Hmin].
      apply pq_lt_spec in Hzx. apply pq_lt_false. lia.
    + split; [|split; assumption].
      intros y Hy. apply elem_of_cons in Hy as [-> | Hy]; [assumption|].
      specialize (Hmin y Hy). apply pq_lt_false in Hzx, Hmin. apply pq_lt_false. lia.
Qed.

Lemma path_cons (t : IslTopology) (u v w : N) (k : nat) :
  is_neighbor t u v → path t v w k → path t u w (S k).
Proof.
  intros Huv Hp. induction Hp as [| x w k Hp IH Hxw].
  - eapply path_snoc; [apply path_nil | exact Huv].
  - eapply path_snoc; [apply IH; exact Huv | exact Hxw].
Qed.

Lemma path_zero (t : IslTopology) (u v : N) : path t u v 0 → u = v.
Proof. intros Hp. inversion Hp. reflexivity. Qed.

(** A path of at least one edge starts with an edge. *)
Lemma path_head (t : IslTopology) (u w : N) (k : nat) :
  path t u w (S k) → ∃ v, is_neighbor t u v ∧ path t v w k.
Proof.
  revert w. induction k as [|k IH]; intros w Hp.
  - inversion Hp as [|v ? ? Hp' Hvw]; subst.
    apply path_zero in Hp' as <-. exists w. split; [exact Hvw | apply path_nil].
  - inversion Hp as [|v ? ? Hp' Hvw]; subst.
    destruct (IH v Hp') as (x & Hux & Hxv).
    exists x. split; [exact Hux|]. eapply path_snoc; eassumption.
Qed.

Lemma path_in_range (t : IslTopology) (u v : N) (k : nat) :
  neighbors_in_range t → u < numSatellites t → path t u v k → v < numSatellites t.
Proof.
  intros Hrange Hu Hp. induction Hp as [| v w k Hp IH (l & Hl & Hin)].
  - exact Hu.
  - eapply Hrange; eassumption.
Qed.

Lemma shortest_unique (t : IslTopology) (u v : N) (d d' : nat) :
  shortest t u v d → shortest t u v d' → d = d'.
Proof.
  intros [Hp Hmin] [Hp' Hmin']. specialize (Hmin _ Hp'). specialize (Hmin' _ Hp). lia.
Qed.

(** ** The invariant of the queue loop *)

Section Search.

Variable t : IslTopology.
Variable src : N.

Hypothesis Huint32 : numSatellites t < 4294967296.
Hypothesis Hrange : neighbors_in_range t.
Hypothesis Hsrc : src < numSatellites t.

Lemma search_inv_weaken (relaxed relaxed' : N → N → Prop) (st : dijkstra_state) :
  (∀ a b, relaxed' a b → relaxed a b) →
  search_inv t src relaxed st → search_inv t src relaxed' st.
Proof.
  intros Hsub [H1 H2 H3 H4 H5 H6 H7 H8 H9 H10 H11].
  constructor; try assumption.
  intros u v du Hu Hr Hdu. eapply H9; eauto.
Qed.

Lemma settled_below (relaxed : N → N → Prop) (st : dijkstra_state) (v dv : N) :
  search_inv t src relaxed st →
  vec_at (st_visited st) v = Some true → vec_at (st_dist st) v = Some dv →
  dv < numSatellites t.
Proof.
  intros Hinv Hv Hdv.
  destruct (inv_settled _ _ _ _ Hinv v Hv) as (dv' & Hdv' & Hlt & _).
  rewrite Hdv in Hdv'. injection Hdv' as <-.
  pose proof (count_true_le (st_visited st)) as Hc.
  rewrite (inv_len_visited _ _ _ _ Hinv) in Hc. lia.
Qed.

(** A finite distance is the length of a path over the predecessors. *)
Lemma search_inv_realizable (relaxed : N → N → Prop) (st : dijkstra_state) :
  search_inv t src relaxed st →
  ∀ v dv, vec_at (st_dist st) v = Some dv → dv ≠ UINT32_MAX →
          path t src v (N.to_nat dv).
Proof.
  intros Hinv v dv. remember (N.to_nat dv) as k eqn:Hk.
  revert v dv Hk. induction k as [k IH] using lt_wf_ind. intros v dv Hk Hdv Hfin.
  destruct (N.eq_dec v src) as [-> | Hne].
  - rewrite (inv_src _ _ _ _ Hinv) in Hdv. injection Hdv as <-. subst k. apply path_nil.
  - destruct (inv_tree _ _ _ _ Hinv v dv Hdv Hfin Hne)
      as (u & du & _ & Hu & Hdu & -> & Hedge).
    assert (Hdu' : du ≠ UINT32_MAX).
    { pose proof (settled_below _ _ _ _ Hinv Hu Hdu). unfold UINT32_MAX. lia. }
    subst k. replace (N.to_nat (du + 1)) with (S (N.to_nat du)) by lia.
    eapply path_snoc; [|exact Hedge].
    eapply (IH (N.to_nat du)); [lia | reflexivity | exact Hdu | exact Hdu'].
Qed.

(** With an unsettled node around, the settled distances leave room for one
    more hop below the number of satellites. *)
Lemma settled_room (relaxed : N → N → Prop) (st : dijkstra_state) (u du w : N) :
  search_inv t src relaxed st →
  vec_at (st_visited st) u = Some true → vec_at (st_dist st) u = Some du →
  vec_at (st_visited st) w = Some false →
  du + 1 < numSatellites t.
Proof.
  intros Hinv Hu Hdu Hw.
  destruct (inv_settled _ _ _ _ Hinv u Hu) as (du' & Hdu' & Hlt & _).
  rewrite Hdu in Hdu'. injection Hdu' as <-.
  pose proof (count_true_false _ _ Hw) as Hc.
  rewrite (inv_len_visited _ _ _ _ Hinv) in Hc. lia.
Qed.

(** Every path from [src] ends in a settled node whose distance it does not
    beat, or is at least as long as the key of some queue entry. *)
Lemma search_inv_frontier (st : dijkstra_state) :
  search_inv t src (is_neighbor t) st →
  ∀ v k, path t src v k →
    (∃ dv, vec_at (st_visited st) v = Some true
           ∧ vec_at (st_dist st) v = Some dv ∧ dv ≤ N.of_nat k)
    ∨ (∃ dw w, (dw, w) ∈ st_pq st ∧ dw ≤ N.of_nat k).
Proof.
  intros Hinv v k Hp.
  induction Hp as [| v w k Hp IH Hvw].
  - destruct (vec_at_is_Some (st_visited st) src) as [[|] Hb].
    { rewrite (inv_len_visited _ _ _ _ Hinv). lia. }
    + left. exists 0. split; [exact Hb|]. split; [apply (inv_src _ _ _ _ Hinv) | lia].
    + right. exists 0, src. split; [|lia].
      apply (inv_frontier _ _ _ _ Hinv); [exact Hb | apply (inv_src _ _ _ _ Hinv) | discriminate].
  - destruct IH as [(dv & Hv & Hdv & Hle) | (dw & x & Hin & Hle)].
    + destruct (inv_relaxed _ _ _ _ Hinv v w dv Hv Hvw Hdv) as (dw & Hdw & Hdwle).
      assert (Hw : w < numSatellites t).
      { destruct Hvw as (l & Hl & Hin). eapply Hrange; eassumption. }
      destruct (vec_at_is_Some (st_visited st) w) as [[|] Hb].
      { rewrite (inv_len_visited _ _ _ _ Hinv). lia. }
      * left. exists dw. split; [exact Hb|]. split; [exact Hdw | lia].
      * right. exists dw, w. split; [|lia].
        apply (inv_frontier _ _ _ _ Hinv); [exact Hb | exact Hdw |].
        pose proof (settled_room _ _ _ _ _ Hinv Hv Hdv Hb).
        unfold UINT32_MAX. lia.
    + right. exists dw, x. split; [exact Hin | lia].
Qed.

Lemma initial_state_inv : search_inv t src (is_neighbor t) (initial_state t src).
Proof.
  assert (Hlen : (N.to_nat src < length (replicate (N.to_nat (numSatellites t)) UINT32_MAX))%nat).
  { rewrite length_replicate. lia. }
  assert (Hdist : ∀ v dv, vec_at (st_dist (initial_state t src)) v = Some dv →
                          dv ≠ UINT32_MAX → v = src ∧ dv = 0).
  { intros v dv Hv Hfin. simpl in Hv. rewrite vec_at_insert in Hv by exact Hlen.
    destruct (decide (src = v)) as [<- | Hne].
    - injection Hv as <-. auto.
    - apply vec_at_replicate in Hv. contradiction. }
  assert (Hnone : ∀ v, vec_at (st_visited (initial_state t src)) v ≠ Some true).
  { intros v Hv. simpl in Hv. apply vec_at_replicate in Hv. discriminate. }
  constructor; simpl.
  - rewrite length_insert, length_replicate. reflexivity.
  - apply length_replicate.
  - apply length_replicate.
  - intros d v Hin. apply list_elem_of_singleton in Hin. injection Hin as -> ->.
    split; [exact Hsrc|]. split; [reflexivity|].
    exists 0. split; [|lia]. rewrite vec_at_insert by exact Hlen. by rewrite decide_True.
  - split; [|exact I]. intros y Hy. by apply elem_of_nil in Hy.
  - rewrite vec_at_insert by exact Hlen. by rewrite decide_True.
  - intros v dv Hv Hfin Hne. destruct (Hdist v dv Hv Hfin) as [-> _]. contradiction.
  - intros v Hv. destruct (Hnone v Hv).
  - intros u v du Hu. destruct (Hnone u Hu).
  - intros v dv _ Hv Hfin. destruct (Hdist v dv Hv Hfin) as [-> ->].
    apply list_elem_of_singleton. reflexivity.
  - intros v Hv. destruct (Hnone v Hv).
Qed.

(** Dropping a stale queue entry. *)
Lemma pop_stale_inv (st : dijkstra_state) (d u : N) (pq' : list (N * N)) :
  search_inv t src (is_neighbor t) st →
  st_pq st = (d, u) :: pq' →
  vec_at (st_visited st) u = Some true →
  search_inv t src (is_neighbor t)
    {| st_dist := st_dist st; st_prev := st_prev st;
       st_visited := st_visited st; st_pq := pq' |}.
Proof.
  intros Hinv Hpq Hu.
  destruct Hinv as [H1 H2 H3 H4 H5 H6 H7 H8 H9 H10 H11].
  rewrite Hpq in H4, H5, H10.
  constructor; simpl; try assumption.
  - intros d' v Hin. apply H4. by apply list_elem_of_further.
  - apply H5.
  - intros v dv Hv Hdv Hfin.
    specialize (H10 v dv Hv Hdv Hfin). apply elem_of_cons in H10 as [Heq | Hin]; [|exact Hin].
    injection Heq as -> ->. congruence.
Qed.

(** Settling the node at the head of the queue. *)
Lemma pop_fresh_inv (st : dijkstra_state) (d u : N) (pq' : list (N * N)) :
  search_inv t src (is_neighbor t) st →
  st_pq st = (d, u) :: pq' →
  vec_at (st_visited st) u = Some false →
  search_inv t src (λ a b, is_neighbor t a b ∧ a ≠ u)
    {| st_dist := st_dist st; st_prev := st_prev st;
       st_visited := <[N.to_nat u := true]> (st_visited st); st_pq := pq' |}.
Proof.
  intros Hinv Hpq Hu.
  pose proof (search_inv_frontier st Hinv) as Hfront.
  pose proof Hinv as [H1 H2 H3 H4 H5 H6 H7 H8 H9 H10 H11].
  rewrite Hpq in H4, H5, H10, Hfront.
  pose proof (vec_at_lt _ _ _ Hu) as Hulen.
  destruct (H4 d u ltac:(left)) as (Hun & Hd & du & Hdu & Hdud).
  assert (Hvis : ∀ x, vec_at (<[N.to_nat u := true]> (st_visited st)) x = Some true →
                      x = u ∨ vec_at (st_visited st) x = Some true).
  { intros x Hx. rewrite vec_at_insert in Hx by exact Hulen.
    destruct (decide (u = x)); auto. }
  assert (Hvis' : ∀ x, vec_at (st_visited st) x = Some true →
                       vec_at (<[N.to_nat u := true]> (st_visited st)) x = Some true).
  { intros x Hx. rewrite vec_at_insert by exact Hulen.
    destruct (decide (u = x)); auto. }
  assert (Hfin : du ≠ UINT32_MAX) by lia.
  constructor; simpl; try assumption.
  - rewrite length_insert. exact H3.
  - intros d' v Hin. apply H4. by apply list_elem_of_further.
  - apply H5.
  - intros v dv Hv Hdv Hne.
    destruct (H7 v dv Hv Hdv Hne) as (p & dp & Hp & Hpv & Hdp & Heq & Hedge).
    exists p, dp. repeat split; try assumption. apply Hvis'. exact Hpv.
  - intros v Hv. rewrite (count_true_insert _ _ Hu).
    apply Hvis in Hv as [-> | Hv].
    + exists du. split; [exact Hdu|]. split.
      * destruct (N.eq_dec u src) as [-> | Hne].
        { rewrite H6 in Hdu. injection Hdu as <-. lia. }
        destruct (H7 u du Hdu Hfin Hne) as (p & dp & _ & Hpv & Hdp & -> & _).
        destruct (H8 p Hpv) as (dp' & Hdp' & Hlt & _).
        rewrite Hdp in Hdp'. injection Hdp' as <-. lia.
      * intros k Hp.
        destruct (Hfront u k Hp) as [(dv & Hv & _) | (dw & w & Hin & Hle)].
        { congruence. }
        destruct H5 as [Hmin _].
        apply elem_of_cons in Hin as [Heq | Hin].
        { injection Heq as -> ->. lia. }
        specialize (Hmin _ Hin). apply pq_lt_false in Hmin. simpl in Hmin. lia.
    + destruct (H8 v Hv) as (dv & Hdv & Hlt & Hmin).
      exists dv. split; [exact Hdv|]. split; [lia | exact Hmin].
  - intros a b da Ha [Hedge Hne] Hda.
    apply Hvis in Ha as [-> | Ha]; [contradiction|].
    eapply H9; eassumption.
  - intros v dv Hv Hdv Hfinv.
    rewrite vec_at_insert in Hv by exact Hulen.
    destruct (decide (u = v)) as [-> | Hne]; [discriminate|].
    specialize (H10 v dv Hv Hdv Hfinv).
    apply elem_of_cons in H10 as [Heq | Hin]; [|exact Hin].
    injection Heq as -> ->. contradiction.
  - intros v Hv.
    destruct (N.eq_dec u src) as [-> | Hne].
    { rewrite vec_at_insert by exact Hulen. by rewrite decide_True. }
    apply Hvis'.
    destruct (H7 u du Hdu Hfin Hne) as (p & dp & _ & Hpv & _).
    eapply H11. exact Hpv.
Qed.

(** One more edge out of [u] counts as relaxed once the distance of its
    target is within one hop of the distance of [u]. *)
Lemma relaxed_extend (st : dijkstra_state) (u v : N) (rest : list N) :
  search_inv t src (relaxed_but t u (v :: rest)) st →
  (∀ du, vec_at (st_dist st) u = Some du →
         ∃ dv, vec_at (st_dist st) v = Some dv ∧ dv ≤ du + 1) →
  search_inv t src (relaxed_but t u rest) st.
Proof.
  intros [H1 H2 H3 H4 H5 H6 H7 H8 H9 H10 H11] Huv.
  constructor; try assumption.
  intros a b da Ha [Hedge Hrest] Hda.
  destruct (decide (a = u ∧ b = v)) as [[-> ->] | Hother].
  - apply Huv. exact Hda.
  - apply (H9 a b da Ha); [|exact Hda].
    split; [exact Hedge|]. intros ->. specialize (Hrest eq_refl).
    intros Hin. apply elem_of_cons in Hin as [-> | Hin]; tauto.
Qed.

(** The assignment [dist[v] = newDist; prev[v] = u; pq.push({newDist, v})]. *)
Lemma relax_update_inv (st : dijkstra_state) (u v du dv : N) (rest : list N) :
  search_inv t src (relaxed_but t u (v :: rest)) st →
  is_neighbor t u v →
  vec_at (st_visited st) u = Some true →
  vec_at (st_dist st) u = Some du →
  vec_at (st_visited st) v = Some false →
  vec_at (st_dist st) v = Some dv →
  du + 1 < dv →
  search_inv t src (relaxed_but t u rest)
    {| st_dist := <[N.to_nat v := du + 1]> (st_dist st);
       st_prev := <[N.to_nat v := u]> (st_prev st);
       st_visited := st_visited st;
       st_pq := pq_push (du + 1, v) (st_pq st) |}.
Proof.
  intros Hinv Hedge Hu Hdu Hv Hdv Hlt.
  pose proof (settled_room _ _ _ _ _ Hinv Hu Hdu Hv) as Hroom.
  pose proof Hinv as [H1 H2 H3 H4 H5 H6 H7 H8 H9 H10 H11].
  pose proof (vec_at_lt _ _ _ Hdv) as Hvlen.
  assert (Hvlen' : (N.to_nat v < length (st_prev st))%nat) by (rewrite H2, <- H1; exact Hvlen).
  assert (Hvn : v < numSatellites t) by lia.
  assert (Hsettled : ∀ x, vec_at (st_visited st) x = Some true → v ≠ x).
  { intros x Hx ->. congruence. }
  constructor; simpl.
  - rewrite length_insert. exact H1.
  - rewrite length_insert. exact H2.
  - exact H3.
  - intros d x Hin. rewrite vec_at_insert by exact Hvlen.
    apply pq_push_elem in Hin as [Heq | Hin].
    + injection Heq as -> ->. split; [exact Hvn|].
      split; [unfold UINT32_MAX; lia|].
      exists (du + 1). rewrite decide_True by reflexivity. split; [reflexivity | lia].
    + destruct (H4 d x Hin) as (Hx & Hd & dx & Hdx & Hle).
      split; [exact Hx|]. split; [exact Hd|].
      destruct (decide (v = x)) as [<- | Hne].
      * exists (du + 1). split; [reflexivity|].
        rewrite Hdv in Hdx. injection Hdx as <-. lia.
      * exists dx. auto.
  - apply pq_push_sorted. exact H5.
  - rewrite vec_at_insert by exact Hvlen.
    rewrite decide_False; [exact H6|]. apply Hsettled. eapply H11. exact Hu.
  - intros x dx Hx Hfin Hne.
    rewrite vec_at_insert in Hx by exact Hvlen.
    destruct (decide (v = x)) as [<- | Hvx].
    + injection Hx as <-. exists u, du.
      rewrite !vec_at_insert by assumption.
      rewrite (decide_True (P := v = v)) by reflexivity.
      rewrite (decide_False (P := v = u)) by (apply Hsettled; exact Hu). auto.
    + destruct (H7 x dx Hx Hfin Hne) as (p & dp & Hp & Hpv & Hdp & Heq & Hpx).
      exists p, dp. rewrite !vec_at_insert by assumption.
      rewrite (decide_False (P := v = x)) by exact Hvx.
      rewrite (decide_False (P := v = p)) by (apply Hsettled; exact Hpv). auto.
  - intros x Hx. rewrite vec_at_insert by exact Hvlen.
    rewrite decide_False by (apply Hsettled; exact Hx). apply H8. exact Hx.
  - intros a b da Ha [Hab Hrest] Hda.
    rewrite vec_at_insert in Hda by exact Hvlen.
    rewrite decide_False in Hda by (apply Hsettled; exact Ha).
    rewrite vec_at_insert by exact Hvlen.
    destruct (decide (v = b)) as [<- | Hvb].
    + exists (du + 1). split; [reflexivity|].
      destruct (N.eq_dec a u) as [-> | Hau].
      * rewrite Hdu in Hda. injection Hda as <-. lia.
      * destruct (H9 a v da Ha) as (dv' & Hdv' & Hle); [|exact Hda|].
        { split; [exact Hab | intros ->; contradiction]. }
        rewrite Hdv in Hdv'. injection Hdv' as <-. lia.
    + apply (H9 a b da Ha); [|exact Hda].
      split; [exact Hab|]. intros ->. specialize (Hrest eq_refl).
      intros Hin. apply elem_of_cons in Hin as [-> | Hin]; tauto.
  - intros x dx Hx Hdx Hfin. apply pq_push_elem.
    rewrite vec_at_insert in Hdx by exact Hvlen.
    destruct (decide (v = x)) as [<- | Hvx].
    + injection Hdx as <-. left. reflexivity.
    + right. apply H10; assumption.
  - exact H11.
Qed.

(** The relaxation loop over the neighbors of a settled node. *)
Lemma relax_inv (u : N) (rest : list N) :
  ∀ st,
    (∀ v, v ∈ rest → is_neighbor t u v) →
    vec_at (st_visited st) u = Some true →
    search_inv t src (relaxed_but t u rest) st →
    ∃ st', relax u rest st = Done st'
           ∧ search_inv t src (is_neighbor t) st'
           ∧ st_visited st' = st_visited st
           ∧ (length (st_pq st') ≤ length (st_pq st) + length rest)%nat.
Proof.
  induction rest as [|v rest IH]; intros st Hedges Hu Hinv.
  - exists st. split; [reflexivity|]. split; [|split; [reflexivity | simpl; lia]].
    eapply search_inv_weaken; [|exact Hinv].
    intros a b Hab. split; [exact Hab|]. intros _ Hin. by apply elem_of_nil in Hin.
  - assert (Hedge : is_neighbor t u v) by (apply Hedges; left).
    assert (Hrest : ∀ w, w ∈ rest → is_neighbor t u w).
    { intros w Hw. apply Hedges. by right. }
    assert (Hvn : v < numSatellites t).
    { destruct Hedge as (l & Hl & Hin). eapply Hrange; eassumption. }
    destruct (inv_settled _ _ _ _ Hinv u Hu) as (du & Hdu & _ & _).
    pose proof (settled_below _ _ _ _ Hinv Hu Hdu) as Hdulim.
    destruct (vec_at_is_Some (st_visited st) v) as [vis Hvis].
    { rewrite (inv_len_visited _ _ _ _ Hinv). lia. }
    destruct (vec_at_is_Some (st_dist st) v) as [dv Hdv].
    { rewrite (inv_len_dist _ _ _ _ Hinv). lia. }
    simpl. rewrite (vec_get_at _ _ _ Hvis). simpl.
    destruct vis; simpl.
    + (* [v] is settled: its distance cannot exceed a path through [u] *)
      destruct (IH st Hrest Hu) as (st' & Hrun & Hinv' & Hsame & Hlen).
      { apply (relaxed_extend st u v rest Hinv).
        intros du' Hdu'. rewrite Hdu in Hdu'. injection Hdu' as <-.
        destruct (inv_settled _ _ _ _ Hinv v Hvis) as (dv' & Hdv' & _ & Hmin).
        rewrite Hdv in Hdv'. injection Hdv' as <-.
        exists dv. split; [exact Hdv|].
        assert (Hpath : path t src v (S (N.to_nat du))).
        { eapply path_snoc; [|exact Hedge].
          eapply search_inv_realizable; [exact Hinv | exact Hdu |].
          unfold UINT32_MAX. lia. }
        specialize (Hmin _ Hpath). lia. }
      exists st'. split; [exact Hrun|]. split; [exact Hinv'|]. split; [exact Hsame|].
      simpl. lia.
    + rewrite (vec_get_at _ _ _ Hdu). simpl.
      pose proof (settled_room _ _ _ _ _ Hinv Hu Hdu Hvis) as Hroom.
      rewrite wrap32_small by lia.
      rewrite (vec_get_at _ _ _ Hdv). simpl.
      destruct (du + 1 <? dv) eqn:Hcmp.
      * apply N.ltb_lt in Hcmp.
        rewrite (vec_set_lt (st_dist st))
          by (rewrite (inv_len_dist _ _ _ _ Hinv); lia). simpl.
        rewrite (vec_set_lt (st_prev st))
          by (rewrite (inv_len_prev _ _ _ _ Hinv); lia). simpl.
        pose proof (relax_update_inv st u v du dv rest Hinv Hedge Hu Hdu Hvis Hdv Hcmp)
          as Hinv1.
        set (st1 := {| st_dist := <[N.to_nat v := du + 1]> (st_dist st);
                       st_prev := <[N.to_nat v := u]> (st_prev st);
                       st_visited := st_visited st;
                       st_pq := pq_push (du + 1, v) (st_pq st) |}) in *.
        destruct (IH st1 Hrest Hu Hinv1) as (st' & Hrun & Hinv' & Hsame & Hlen).
        exists st'. split; [exact Hrun|]. split; [exact Hinv'|]. split; [exact Hsame|].
        simpl in Hlen. rewrite pq_push_length in Hlen. simpl. lia.
      * apply N.ltb_ge in Hcmp.
        destruct (IH st Hrest Hu) as (st' & Hrun & Hinv' & Hsame & Hlen).
        { apply (relaxed_extend st u v rest Hinv).
          intros du' Hdu'. rewrite Hdu in Hdu'. injection Hdu' as <-.
          exists dv. split; [exact Hdv | exact Hcmp]. }
        exists st'. split; [exact Hrun|]. split; [exact Hinv'|]. split; [exact Hsame|].
        simpl. lia.
Qed.

Lemma pending_cons (visited : list bool) (x : N) (nodes : list N) :
  pending t visited (x :: nodes)
  = ((if decide (vec_at visited x = Some true) then 0
      else length (neighbor_list t x)) + pending t visited nodes)%nat.
Proof. reflexivity. Qed.

(** Settling a node takes its neighbor list out of the pending entries. *)
Lemma pending_visit (visited : list bool) (u : N) (nodes : list N) :
  NoDup nodes → vec_at visited u = Some false →
  (pending t (<[N.to_nat u := true]> visited) nodes
   + (if decide (u ∈ nodes) then length (neighbor_list t u) else 0)
   = pending t visited nodes)%nat.
Proof.
  intros Hnodup Hu. pose proof (vec_at_lt _ _ _ Hu) as Hlen.
  induction nodes as [|x nodes IH].
  - rewrite decide_False; [reflexivity|]. intros H. by apply elem_of_nil in H.
  - apply NoDup_cons in Hnodup as [Hx Hnodup]. specialize (IH Hnodup).
    rewrite !pending_cons.
    rewrite vec_at_insert by exact Hlen.
    destruct (decide (u = x)) as [<- | Hne].
    + rewrite (decide_True (P := Some true = Some true)) by reflexivity.
      rewrite (decide_False (P := vec_at visited u = Some true)) by congruence.
      rewrite (decide_True (P := u ∈ u :: nodes)) by left.
      rewrite (decide_False (P := u ∈ nodes)) in IH by exact Hx. lia.
    + destruct (decide (u ∈ nodes)) as [Hin | Hnin].
      * rewrite (decide_True (P := u ∈ x :: nodes)) by (by right). lia.
      * rewrite (decide_False (P := u ∈ x :: nodes)); [lia|].
        intros Hin. apply elem_of_cons in Hin as [-> | Hin]; tauto.
Qed.

Lemma pending_initial (k : nat) (nodes : list N) :
  pending t (replicate k false) nodes
  = foldr (λ u acc, (length (default [] (neighbors t !! u)) + acc)%nat) 0%nat nodes.
Proof.
  induction nodes as [|x nodes IH]; [reflexivity|].
  rewrite pending_cons, IH. rewrite decide_False; [reflexivity|].
  intros H. apply vec_at_replicate in H. discriminate.
Qed.

(** The queue loop: it empties the queue within its fuel and keeps the
    invariant. *)
Lemma dijkstra_loop_inv (fuel : nat) :
  ∀ st,
    search_inv t src (is_neighbor t) st →
    (loop_measure t st ≤ fuel)%nat →
    ∃ st', dijkstra_loop fuel t st = Done st'
           ∧ search_inv t src (is_neighbor t) st' ∧ st_pq st' = [].
Proof.
  induction fuel as [|fuel IH]; intros st Hinv Hfuel;
    destruct (st_pq st) as [|[d u] pq'] eqn:Hpq.
  - exists st. simpl. rewrite Hpq. auto.
  - unfold loop_measure in Hfuel. rewrite Hpq in Hfuel. simpl in Hfuel. lia.
  - exists st. simpl. rewrite Hpq. auto.
  - simpl. rewrite Hpq.
    unfold loop_measure in Hfuel. rewrite Hpq in Hfuel. simpl in Hfuel.
    destruct (inv_queue _ _ _ _ Hinv d u) as (Hun & _ & _); [rewrite Hpq; left|].
    destruct (vec_at_is_Some (st_visited st) u) as [vis Hvis].
    { rewrite (inv_len_visited _ _ _ _ Hinv). lia. }
    rewrite (vec_get_at _ _ _ Hvis). simpl.
    destruct vis.
    + apply IH.
      * eapply pop_stale_inv; eassumption.
      * unfold loop_measure. simpl. lia.
    + rewrite vec_set_lt by (eapply vec_at_lt; exact Hvis). simpl.
      pose proof (pop_fresh_inv st d u pq' Hinv Hpq Hvis) as Hinv1.
      set (st1 := {| st_dist := st_dist st; st_prev := st_prev st;
                     st_visited := <[N.to_nat u := true]> (st_visited st);
                     st_pq := pq' |}) in *.
      assert (Hu1 : vec_at (st_visited st1) u = Some true).
      { simpl. rewrite vec_at_insert by (eapply vec_at_lt; exact Hvis).
        by rewrite decide_True. }
      pose proof (pending_visit (st_visited st) u (N_range (numSatellites t))
                    (N_range_NoDup _) Hvis) as Hpend.
      rewrite decide_True in Hpend by (apply N_range_elem; exact Hun).
      unfold neighbor_list in Hpend.
      destruct (neighbors t !! u) as [nbrs|] eqn:Hnb; simpl in Hpend.
      * destruct (relax_inv u nbrs st1) as (st2 & Hrun & Hinv2 & Hsame & Hlen).
        { intros v Hv. exists nbrs. auto. }
        { exact Hu1. }
        { eapply search_inv_weaken; [|exact Hinv1].
          intros a b [Hab Hnot]. split; [exact Hab|]. intros ->.
          destruct Hab as (l & Hl & Hin). rewrite Hnb in Hl. injection Hl as <-.
          exact (Hnot eq_refl Hin). }
        rewrite Hrun. simpl. apply IH; [exact Hinv2|].
        unfold loop_measure. rewrite Hsame. simpl in Hlen |- *. lia.
      * simpl. apply IH.
        { eapply search_inv_weaken; [|exact Hinv1].
          intros a b Hab. split; [exact Hab|]. intros ->.
          destruct Hab as (l & Hl & _). rewrite Hnb in Hl. discriminate. }
        unfold loop_measure. simpl. lia.
Qed.

(** *** After the queue loop *)

Lemma final_settled (st : dijkstra_state) (v dv : N) :
  search_inv t src (is_neighbor t) st → st_pq st = [] →
  vec_at (st_dist st) v = Some dv → dv ≠ UINT32_MAX →
  vec_at (st_visited st) v = Some true.
Proof.
  intros Hinv Hpq Hdv Hfin.
  destruct (vec_at_is_Some (st_visited st) v) as [[|] Hb].
  { rewrite (inv_len_visited _ _ _ _ Hinv), <- (inv_len_dist _ _ _ _ Hinv).
    eapply vec_at_lt. exact Hdv. }
  - exact Hb.
  - pose proof (inv_frontier _ _ _ _ Hinv v dv Hb Hdv Hfin) as Hin.
    rewrite Hpq in Hin. by apply elem_of_nil in Hin.
Qed.

(** The distance vector holds the hop distance of every reachable node. *)
Lemma final_reachable (st : dijkstra_state) (v : N) (k : nat) :
  search_inv t src (is_neighbor t) st → st_pq st = [] →
  path t src v k →
  ∃ dv, vec_at (st_dist st) v = Some dv ∧ dv < numSatellites t
        ∧ shortest t src v (N.to_nat dv).
Proof.
  intros Hinv Hpq Hp.
  destruct (search_inv_frontier st Hinv v k Hp)
    as [(dv & Hv & Hdv & _) | (dw & w & Hin & _)].
  - pose proof (settled_below _ _ _ _ Hinv Hv Hdv) as Hlim.
    exists dv. split; [exact Hdv|]. split; [exact Hlim|]. split.
    + eapply search_inv_realizable; [exact Hinv | exact Hdv |]. unfold UINT32_MAX. lia.
    + intros j Hj. destruct (inv_settled _ _ _ _ Hinv v Hv) as (dv' & Hdv' & _ & Hmin).
      rewrite Hdv in Hdv'. injection Hdv' as <-. specialize (Hmin j Hj). lia.
  - rewrite Hpq in Hin. by apply elem_of_nil in Hin.
Qed.

(** The walk back over the predecessors ends at a neighbor of [src] that is
    one hop closer to the destination. *)
Lemma trace_back_inv (st : dijkstra_state) (fuel : nat) :
  search_inv t src (is_neighbor t) st →
  ∀ c dc,
    vec_at (st_dist st) c = Some dc → dc ≠ UINT32_MAX → c ≠ src →
    (N.to_nat dc ≤ S fuel)%nat →
    ∃ h, trace_back fuel (st_prev st) src c = Done h
         ∧ is_neighbor t src h ∧ h < numSatellites t
         ∧ (1 ≤ N.to_nat dc)%nat ∧ path t h c (N.to_nat dc - 1).
Proof.
  intros Hinv. induction fuel as [|fuel IH]; intros c dc Hdc Hfin Hne Hfuel.
  - destruct (inv_tree _ _ _ _ Hinv c dc Hdc Hfin Hne)
      as (p & dp & Hp & Hpv & Hdp & -> & Hedge).
    simpl. rewrite (vec_get_at _ _ _ Hp). simpl.
    destruct (N.eq_dec p src) as [-> | Hpsrc].
    + rewrite N.eqb_refl. simpl.
      rewrite (inv_src _ _ _ _ Hinv) in Hdp. injection Hdp as <-.
      exists c. split; [reflexivity|]. split; [exact Hedge|].
      split; [destruct Hedge as (l & Hl & Hin); eapply Hrange; eassumption|].
      split; [lia|]. simpl. apply path_nil.
    + pose proof (settled_below _ _ _ _ Hinv Hpv Hdp) as Hdplim.
      destruct (inv_tree _ _ _ _ Hinv p dp Hdp ltac:(unfold UINT32_MAX; lia) Hpsrc)
        as (q & dq & _ & _ & _ & -> & _).
      lia.
  - destruct (inv_tree _ _ _ _ Hinv c dc Hdc Hfin Hne)
      as (p & dp & Hp & Hpv & Hdp & -> & Hedge).
    simpl. rewrite (vec_get_at _ _ _ Hp). simpl.
    destruct (N.eq_dec p src) as [-> | Hpsrc].
    + rewrite N.eqb_refl. simpl.
      rewrite (inv_src _ _ _ _ Hinv) in Hdp. injection Hdp as <-.
      exists c. split; [reflexivity|]. split; [exact Hedge|].
      split; [destruct Hedge as (l & Hl & Hin); eapply Hrange; eassumption|].
      split; [lia|]. simpl. apply path_nil.
    + pose proof (settled_below _ _ _ _ Hinv Hpv Hdp) as Hdplim.
      pose proof (vec_at_lt _ _ _ Hpv) as Hplen.
      rewrite (inv_len_visited _ _ _ _ Hinv) in Hplen.
      rewrite (proj2 (N.eqb_neq p src) Hpsrc).
      rewrite (proj2 (N.eqb_neq p UINT32_MAX)) by (unfold UINT32_MAX; lia). simpl.
      destruct (IH p dp Hdp ltac:(unfold UINT32_MAX; lia) Hpsrc ltac:(lia))
        as (h & Hrun & Hsh & Hh & Hpos & Hpath).
      exists h. split; [exact Hrun|]. split; [exact Hsh|]. split; [exact Hh|].
      split; [lia|].
      replace (N.to_nat (dp + 1) - 1)%nat with (S (N.to_nat dp - 1)) by lia.
      eapply path_snoc; eassumption.
Qed.

Lemma GetNextHop_SetNextHop (r : RoutingTables.t) (s d h s' d' : N) :
  GetNextHop (SetNextHop r s d h) s' d'
  = if decide (s = s' ∧ d = d') then h else GetNextHop r s' d'.
Proof.
  unfold GetNextHop, SetNextHop. simpl.
  destruct (decide (s = s')) as [<- | Hs].
  - rewrite lookup_insert_eq.
    destruct (decide (d = d')) as [<- | Hd].
    + rewrite lookup_insert_eq. rewrite decide_True by auto. reflexivity.
    + rewrite lookup_insert_ne by exact Hd. rewrite decide_False by tauto.
      destruct (m_nextHop r !! s); reflexivity.
  - rewrite lookup_insert_ne by exact Hs. rewrite decide_False by tauto. reflexivity.
Qed.

(** The extraction loop fills the row of [src]. *)
Lemma extract_next_hops_inv (st : dijkstra_state) (dsts : list N) :
  search_inv t src (is_neighbor t) st → st_pq st = [] →
  (∀ d, d ∈ dsts → d < numSatellites t) →
  ∀ routes,
    ∃ routes',
      extract_next_hops (numSatellites t) src (st_dist st) (st_prev st) dsts routes
      = Done routes'
      ∧ row_ok t src dsts routes routes'.
Proof.
  intros Hinv Hpq. induction dsts as [|dst dsts IH]; intros Hdsts routes.
  - exists routes. split; [reflexivity|]. split; [auto|]. split; [auto|].
    intros d Hd. by apply elem_of_nil in Hd.
  - assert (Hrest : ∀ d, d ∈ dsts → d < numSatellites t).
    { intros d Hd. apply Hdsts. by right. }
    assert (Hdst : dst < numSatellites t) by (apply Hdsts; left).
    simpl. destruct (src =? dst) eqn:Hsd.
    { apply N.eqb_eq in Hsd. subst dst.
      destruct (IH Hrest routes) as (routes' & Hrun & H1 & H2 & H3).
      exists routes'. split; [exact Hrun|]. split; [exact H1|]. split.
      - intros d Hd. apply H2. destruct Hd as [Hd | Hd]; [left | right; exact Hd].
        intros Hin. apply Hd. by right.
      - intros d Hd Hne. apply H3; [|exact Hne].
        apply elem_of_cons in Hd as [-> | Hd]; [contradiction | exact Hd]. }
    apply N.eqb_neq in Hsd.
    destruct (vec_at_is_Some (st_dist st) dst) as [dd Hdd].
    { rewrite (inv_len_dist _ _ _ _ Hinv). lia. }
    rewrite (vec_get_at _ _ _ Hdd). simpl.
    destruct (dd =? UINT32_MAX) eqn:Hmax.
    { apply N.eqb_eq in Hmax. subst dd.
      destruct (IH Hrest routes) as (routes' & Hrun & H1 & H2 & H3).
      exists routes'. split; [exact Hrun|]. split; [exact H1|]. split.
      - intros d Hd. apply H2. destruct Hd as [Hd | Hd]; [left | right; exact Hd].
        intros Hin. apply Hd. by right.
      - intros d Hd Hne Hreach. apply H3; [|exact Hne|exact Hreach].
        apply elem_of_cons in Hd as [-> | Hd]; [|exact Hd].
        destruct Hreach as [k Hk].
        destruct (final_reachable st dst k Hinv Hpq Hk) as (dv & Hdv & Hlim & _).
        rewrite Hdd in Hdv. injection Hdv as <-. unfold UINT32_MAX in Hlim. lia. }
    apply N.eqb_neq in Hmax.
    pose proof (final_settled st dst dd Hinv Hpq Hdd Hmax) as Hvis.
    pose proof (settled_below _ _ _ _ Hinv Hvis Hdd) as Hlim.
    destruct (trace_back_inv st (N.to_nat (numSatellites t)) Hinv dst dd Hdd Hmax
                ltac:(congruence) ltac:(lia))
      as (h & Hrun & Hsh & Hh & Hpos & Hpath).
    rewrite Hrun. simpl.
    assert (Hreal : path t src dst (N.to_nat dd)).
    { eapply search_inv_realizable; eassumption. }
    assert (Hok : next_hop_ok t src dst h).
    { split; [exact Hh|]. split; [exact Hsh|].
      exists (N.to_nat dd - 1)%nat.
      destruct (final_reachable st dst _ Hinv Hpq Hreal) as (dv & Hdv & _ & Hshort).
      rewrite Hdd in Hdv. injection Hdv as <-.
      replace (S (N.to_nat dd - 1)) with (N.to_nat dd) by lia.
      split; [exact Hshort|]. split; [exact Hpath|].
      intros j Hj. destruct Hshort as [_ Hmin].
      specialize (Hmin (S j) (path_cons t src h dst j Hsh Hj)). lia. }
    destruct (IH Hrest (SetNextHop routes src dst h)) as (routes' & Hrun' & H1 & H2 & H3).
    exists routes'. split; [exact Hrun'|]. split; [|split].
    + intros s d Hs. rewrite (H1 s d Hs), GetNextHop_SetNextHop.
      rewrite decide_False by (intros [? _]; congruence). reflexivity.
    + intros d Hd. rewrite H2.
      * rewrite GetNextHop_SetNextHop. rewrite decide_False; [reflexivity|].
        intros [_ <-]. destruct Hd as [Hd | [Hd | Hd]].
        -- apply Hd. left.
        -- congruence.
        -- apply Hd. eexists. exact Hreal.
      * destruct Hd as [Hd | Hd]; [left | right; exact Hd].
        intros Hin. apply Hd. by right.
    + intros d Hd Hne Hreach.
      destruct (decide (d ∈ dsts)) as [Hin | Hnin]; [by apply H3|].
      apply elem_of_cons in Hd as [-> | Hd]; [|contradiction].
      rewrite H2 by (left; exact Hnin).
      rewrite GetNextHop_SetNextHop. rewrite decide_True by auto. exact Hok.
Qed.

(** One iteration of the outer loop of [ComputeStaticRoutes]. *)
Lemma routes_from_inv (routes : RoutingTables.t) :
  ∃ routes', routes_from t src routes = Done routes'
             ∧ row_ok t src (N_range (numSatellites t)) routes routes'.
Proof.
  unfold routes_from.
  rewrite vec_set_lt by (rewrite length_replicate; lia).
  cbn [mbind outcome_bind obind pq_push].
  destruct (dijkstra_loop_inv (S (adjacency_entries t)) (initial_state t src))
    as (st & Hrun & Hinv & Hpq).
  { apply initial_state_inv. }
  { unfold loop_measure, initial_state. simpl.
    rewrite pending_initial. unfold adjacency_entries. lia. }
  unfold initial_state in Hrun. rewrite Hrun.
  cbn [mbind outcome_bind obind].
  apply extract_next_hops_inv; [exact Hinv | exact Hpq |].
  intros d Hd. by apply N_range_elem in Hd.
Qed.

End Search.

(** ** The routing table *)

Lemma routes_loop_inv (t : IslTopology) :
  numSatellites t < 4294967296 → neighbors_in_range t →
  ∀ srcs routes,
    NoDup srcs → (∀ s, s ∈ srcs → s < numSatellites t) →
    ∃ routes',
      routes_loop t srcs routes = Done routes'
      ∧ (∀ s d, s ∉ srcs → GetNextHop routes' s d = GetNextHop routes s d)
      ∧ (∀ s d, s ∈ srcs →
           (numSatellites t ≤ d ∨ d = s ∨ ¬ reachable t s d →
            GetNextHop routes' s d = GetNextHop routes s d)
           ∧ (d < numSatellites t → d ≠ s → reachable t s d →
              next_hop_ok t s d (GetNextHop routes' s d))).
Proof.
  intros Huint32 Hrange srcs.
  induction srcs as [|src srcs IH]; intros routes Hnodup Hsrcs.
  - exists routes. split; [reflexivity|]. split; [auto|].
    intros s d Hs. by apply elem_of_nil in Hs.
  - apply NoDup_cons in Hnodup as [Hfresh Hnodup].
    assert (Hsrc : src < numSatellites t) by (apply Hsrcs; left).
    destruct (routes_from_inv t src Huint32 Hrange Hsrc routes)
      as (routes1 & Hrun1 & Hrow1 & Hrow2 & Hrow3).
    destruct (IH routes1 Hnodup) as (routes' & Hrun & Hout & Hin).
    { intros s Hs. apply Hsrcs. by right. }
    exists routes'. split; [simpl; rewrite Hrun1; exact Hrun|]. split.
    + intros s d Hs. rewrite Hout, Hrow1; [reflexivity | |].
      * intros ->. apply Hs. left.
      * intros Hs'. apply Hs. by right.
    + intros s d Hs. apply elem_of_cons in Hs as [-> | Hs].
      * rewrite (Hout src d Hfresh). split.
        -- intros Hd. apply Hrow2.
           destruct Hd as [Hd | [Hd | Hd]]; [left | right; left; exact Hd | right; right; exact Hd].
           intros Hmem. apply N_range_elem in Hmem. lia.
        -- intros Hd Hne Hreach. apply Hrow3; [apply N_range_elem; exact Hd | exact Hne | exact Hreach].
      * assert (Hne : s ≠ src) by (intros ->; contradiction).
        destruct (Hin s d Hs) as [Hkeep Hset].
        split.
        -- intros Hd. rewrite (Hkeep Hd). apply Hrow1. exact Hne.
        -- exact Hset.
Qed.

(** The table computed for a topology whose neighbor ids are node ids: a
    next hop for every reachable pair, and no entry otherwise. *)
Lemma ComputeStaticRoutes_correct (t : IslTopology) :
  numSatellites t < 4294967296 → neighbors_in_range t →
  ∃ routes,
    ComputeStaticRoutes t = Done routes
    ∧ (∀ s d, s < numSatellites t → d ≠ s → reachable t s d →
              next_hop_ok t s d (GetNextHop routes s d))
    ∧ (∀ s d, d = s ∨ ¬ reachable t s d ∨ numSatellites t ≤ s ∨ numSatellites t ≤ d →
              GetNextHop routes s d = UINT32_MAX).
Proof.
  intros Huint32 Hrange.
  destruct (routes_loop_inv t Huint32 Hrange (N_range (numSatellites t))
              RoutingTables.empty (N_range_NoDup _))
    as (routes & Hrun & Hout & Hin).
  { intros s Hs. by apply N_range_elem in Hs. }
  exists routes. split; [exact Hrun|]. split.
  - intros s d Hs Hne Hreach.
    apply (Hin s d); [apply N_range_elem; exact Hs | | exact Hne | exact Hreach].
    destruct Hreach as [k Hk]. eapply path_in_range; eassumption.
  - intros s d Hd.
    destruct (decide (s < numSatellites t)) as [Hs | Hs].
    + destruct (Hin s d) as [Hkeep _]; [apply N_range_elem; exact Hs|].
      rewrite Hkeep; [reflexivity|].
      destruct Hd as [Hd | [Hd | [Hd | Hd]]]; [tauto | tauto | lia | tauto].
    + rewrite Hout; [reflexivity|]. intros Hmem. apply N_range_elem in Hmem. contradiction.
Qed.

(** Whatever the topology, a table that is returned has no entry (x, x). *)
Lemma self_entry_SetNextHop (r : RoutingTables.t) (s d h x : N) :
  s ≠ d → self_entry (SetNextHop r s d h) x = self_entry r x.
Proof.
  intros Hsd. unfold self_entry, SetNextHop. simpl.
  destruct (decide (s = x)) as [<- | Hsx].
  - rewrite lookup_insert_eq. simpl. rewrite lookup_insert_ne by congruence.
    destruct (m_nextHop r !! s); reflexivity.
  - rewrite lookup_insert_ne by exact Hsx. reflexivity.
Qed.

Lemma self_entry_GetNextHop (r : RoutingTables.t) (x : N) :
  self_entry r x = None → GetNextHop r x x = UINT32_MAX.
Proof.
  unfold self_entry, GetNextHop.
  destruct (m_nextHop r !! x) as [row|]; simpl; [|reflexivity].
  intros ->. reflexivity.
Qed.

Lemma extract_next_hops_no_self (n src : N) (dist prev : list N) (dsts : list N) :
  ∀ routes routes',
    extract_next_hops n src dist prev dsts routes = Done routes' →
    (∀ x, self_entry routes x = None) →
    ∀ x, self_entry routes' x = None.
Proof.
  induction dsts as [|dst dsts IH]; intros routes routes' Hrun Hno; simpl in Hrun.
  - injection Hrun as <-. exact Hno.
  - destruct (src =? dst) eqn:Hsd; [eapply IH; eassumption|].
    apply N.eqb_neq in Hsd.
    destruct (vec_get dist dst) as [dd| | |]; simpl in Hrun; try discriminate.
    destruct (dd =? UINT32_MAX); [eapply IH; eassumption|].
    destruct (trace_back (N.to_nat n) prev src dst) as [h| | |]; simpl in Hrun;
      try discriminate.
    eapply IH; [exact Hrun|].
    intros x. rewrite self_entry_SetNextHop by exact Hsd. apply Hno.
Qed.

Lemma routes_loop_no_self (t : IslTopology) (srcs : list N) :
  ∀ routes routes',
    routes_loop t srcs routes = Done routes' →
    (∀ x, self_entry routes x = None) →
    ∀ x, self_entry routes' x = None.
Proof.
  induction srcs as [|src srcs IH]; intros routes routes' Hrun Hno; simpl in Hrun.
  - injection Hrun as <-. exact Hno.
  - destruct (routes_from t src routes) as [routes1| | |] eqn:Hfrom; simpl in Hrun;
      try discriminate.
    eapply IH; [exact Hrun|].
    unfold routes_from in Hfrom.
    destruct (vec_set _ src 0) as [dist'| | |]; cbn [mbind outcome_bind obind] in Hfrom;
      try discriminate.
    destruct (dijkstra_loop _ t _) as [st| | |]; cbn [mbind outcome_bind obind] in Hfrom;
      try discriminate.
    eapply extract_next_hops_no_self; eassumption.
Qed.

Lemma ComputeStaticRoutes_no_self (t : IslTopology) (routes : RoutingTables.t) :
  ComputeStaticRoutes t = Done routes → ∀ x, self_entry routes x = None.
Proof.
  intros Hrun. eapply routes_loop_no_self; [exact Hrun|]. reflexivity.
Qed.

(** ** Following the table *)

Section Walk.

Variable t : IslTopology.
Variable routes : RoutingTables.t.

Hypothesis Hrange : neighbors_in_range t.
Hypothesis Hroutes :
  ∀ s d, s < numSatellites t → d ≠ s → reachable t s d →
         next_hop_ok t s d (GetNextHop routes s d).

Lemma shortest_next_hop (s d : N) (k : nat) :
  s < numSatellites t → shortest t s d (S k) →
  d ≠ s ∧ GetNextHop routes s d < numSatellites t
  ∧ is_neighbor t s (GetNextHop routes s d)
  ∧ shortest t (GetNextHop routes s d) d k.
Proof.
  intros Hs Hshort.
  assert (Hne : d ≠ s).
  { intros ->. destruct Hshort as [_ Hmin]. specialize (Hmin 0%nat (path_nil t s)). lia. }
  destruct (Hroutes s d Hs Hne) as (Hh & Hedge & k' & Hsk' & Hhk').
  { exists (S k). apply Hshort. }
  pose proof (shortest_unique _ _ _ _ _ Hshort Hsk') as Heq.
  injection Heq as <-. auto.
Qed.

(** The walk over the next hops follows a shortest path. *)
Lemma walk_reaches (k : nat) :
  ∀ s d, s < numSatellites t → shortest t s d k →
    walk routes d k s = d
    ∧ ∀ i, (i < k)%nat →
        walk routes d i s ≠ d
        ∧ is_neighbor t (walk routes d i s) (walk routes d (S i) s).
Proof.
  induction k as [|k IH]; intros s d Hs Hshort.
  - destruct Hshort as [Hp _]. apply path_zero in Hp. split; [exact Hp | lia].
  - destruct (shortest_next_hop s d k Hs Hshort) as (Hne & Hh & Hedge & Hshort').
    destruct (IH _ d Hh Hshort') as [Hend Hsteps].
    split; [rewrite walk_shift; exact Hend|].
    intros [|i] Hi.
    + simpl. split; [congruence | exact Hedge].
    + rewrite (walk_shift routes d i s), (walk_shift routes d (S i) s).
      apply Hsteps. lia.
Qed.

(** [hop_loop] on a node at hop distance [k] of [dst], with [hops] hops
    behind it, all of them through nodes farther away from [dst]. *)
Lemma hop_loop_shortest (dst : N) (k : nat) :
  ∀ fuel current visited hops,
    current < numSatellites t → numSatellites t < 4294967296 →
    shortest t current dst k →
    (∀ y, y ∈ visited → ∀ j, path t y dst j → (k < j)%nat) →
    hops ≤ 100 → (101 - N.to_nat hops ≤ fuel)%nat →
    hop_loop fuel routes dst current visited hops
    = Done (if hops + N.of_nat k <=? 100 then hops + N.of_nat k else UINT32_MAX).
Proof.
  induction k as [|k IH]; intros fuel current visited hops Hcur Huint32 Hshort Hvis Hhops Hfuel.
  - destruct Hshort as [Hp _]. apply path_zero in Hp. subst dst.
    rewrite N.add_0_r. rewrite (proj2 (N.leb_le hops 100) Hhops).
    destruct fuel; simpl; rewrite N.eqb_refl; reflexivity.
  - destruct (shortest_next_hop current dst k Hcur Hshort) as (Hne & Hh & Hedge & Hshort').
    destruct fuel as [|fuel]; [lia|].
    simpl. rewrite (proj2 (N.eqb_neq current dst)) by congruence.
    rewrite decide_False.
    2:{ intros Hin. destruct Hshort as [Hp _]. specialize (Hvis _ Hin _ Hp). lia. }
    rewrite (proj2 (N.eqb_neq (GetNextHop routes current dst) UINT32_MAX))
      by (unfold UINT32_MAX; lia).
    rewrite wrap32_small by lia.
    destruct (100 <? hops + 1) eqn:Hcap.
    + apply N.ltb_lt in Hcap.
      rewrite (proj2 (N.leb_gt (hops + N.of_nat (S k)) 100)) by lia. reflexivity.
    + apply N.ltb_ge in Hcap.
      rewrite IH; try assumption; try lia.
      * replace (hops + 1 + N.of_nat k) with (hops + N.of_nat (S k)) by lia. reflexivity.
      * intros y Hy j Hj. apply elem_of_union in Hy as [Hy | Hy].
        -- apply elem_of_singleton in Hy. subst y.
           destruct Hshort as [_ Hmin]. specialize (Hmin j Hj). lia.
        -- specialize (Hvis y Hy j Hj). lia.
Qed.

Lemma GetHopCount_shortest (src dst : N) (k : nat) :
  src < numSatellites t → numSatellites t < 4294967296 →
  shortest t src dst k →
  GetHopCount routes src dst
  = Done (if N.of_nat k <=? 100 then N.of_nat k else UINT32_MAX).
Proof.
  intros Hsrc Huint32 Hshort. unfold GetHopCount.
  destruct (src =? dst) eqn:Hsd.
  - apply N.eqb_eq in Hsd. subst dst.
    destruct Hshort as [_ Hmin]. specialize (Hmin 0%nat (path_nil t src)).
    replace k with 0%nat by lia. reflexivity.
  - rewrite (hop_loop_shortest dst k 101 src ∅ 0); try assumption; try lia.
    + reflexivity.
    + intros y Hy. by apply not_elem_of_empty in Hy.
Qed.

End Walk.

Lemma is_pathb_sound (t : IslTopology) (nodes : list N) :
  ∀ x, is_pathb t x nodes = true → path t x (List.last nodes x) (length nodes).
Proof.
  induction nodes as [|y rest IH]; intros x Hb; simpl in Hb.
  - apply path_nil.
  - destruct (neighbors t !! x) as [l|] eqn:Hl; [|discriminate].
    apply andb_true_iff in Hb as [Hy Hrest]. apply bool_decide_eq_true in Hy.
    replace (List.last (y :: rest) x) with (List.last rest y).
    + apply (path_cons t x y); [exists l; auto | apply IH; exact Hrest].
    + clear. revert y. induction rest as [|z rest IH]; intros y; [reflexivity|].
      simpl. destruct rest; [reflexivity|]. simpl in IH. apply IH.
Qed.

(** ** ComputeStaticRoutes: the main results *)

Lemma walker24_in_range : neighbors_in_range walker24.
Proof. apply neighbors_in_rangeb_sound. vm_compute. reflexivity. Qed.

Lemma generated_in_range (n k : N) : neighbors_in_range (GenerateWalkerDeltaTopology n k).
Proof.
  destruct (generate_cases n k) as [[_ ->] | (_ & _ & ->)].
  - intros u l v Hl. simpl in Hl. by rewrite lookup_empty in Hl.
  - apply walker24_in_range.
Qed.

(** C1 (as amended): for every topology whose neighbor ids are node ids, and
    every ordered pair of distinct nodes (src, dst) with dst reachable from
    src, ComputeStaticRoutes returns a table on which the repeated application
    of GetNextHop from src reaches dst after exactly d steps, d being the hop
    distance from src to dst, hence after no more steps than any bound on the
    hop distances of the graph such as its diameter; every step moves to a
    neighbor of the node it leaves; and GetHopCount returns d when d is at most
    100, and UINT32_MAX when d exceeds 100. *)
Theorem static_routes_follow_shortest_paths (t : IslTopology) (src dst : N) :
  numSatellites t < 4294967296 →
  neighbors_in_range t →
  src < numSatellites t →
  src ≠ dst →
  reachable t src dst →
  ∃ routes d,
    ComputeStaticRoutes t = Done routes
    ∧ shortest t src dst d
    ∧ walk routes dst d src = dst
    ∧ (∀ i, (i < d)%nat →
         walk routes dst i src ≠ dst
         ∧ is_neighbor t (walk routes dst i src) (walk routes dst (S i) src))
    ∧ (∀ D, diameter_bound t D → (d ≤ D)%nat)
    ∧ GetHopCount routes src dst
      = Done (if N.of_nat d <=? 100 then N.of_nat d else UINT32_MAX).
Proof.
  intros Huint32 Hrange Hsrc Hne Hreach.
  destruct (ComputeStaticRoutes_correct t Huint32 Hrange) as (routes & Hrun & Hok & _).
  destruct (Hok src dst Hsrc ltac:(congruence) Hreach) as (_ & _ & k & Hshort & _).
  exists routes, (S k).
  split; [exact Hrun|]. split; [exact Hshort|].
  destruct (walk_reaches t routes Hok (S k) src dst Hsrc Hshort) as [Hend Hsteps].
  split; [exact Hend|]. split; [exact Hsteps|].
  split; [intros D HD; exact (HD _ _ _ Hshort)|].
  apply (GetHopCount_shortest t routes Hok); assumption.
Qed.

(** On the 24-satellite mesh, from satellite 0 to its ring neighbor 1. *)
Lemma static_routes_walker24_0_1 :
  ∃ routes d,
    ComputeStaticRoutes walker24 = Done routes
    ∧ shortest walker24 0 1 d
    ∧ walk routes 1 d 0 = 1
    ∧ GetHopCount routes 0 1
      = Done (if N.of_nat d <=? 100 then N.of_nat d else UINT32_MAX).
Proof.
  destruct (static_routes_follow_shortest_paths walker24 0 1)
    as (routes & d & Hrun & Hshort & Hend & _ & _ & Hcount).
  - reflexivity.
  - exact walker24_in_range.
  - reflexivity.
  - discriminate.
  - exists 1%nat. apply (is_pathb_sound walker24 [1] 0). vm_compute. reflexivity.
  - exists routes, d. auto.
Defined.

(** C1 (as stated) fails on a line of 102 nodes: node 101 is reachable from
    node 0, over 101 hops, and GetHopCount returns the sentinel, which is not
    a hop distance. *)
Lemma hop_count_cap_on_line :
  numSatellites (line_topology 102) < 4294967296
  ∧ neighbors_in_range (line_topology 102)
  ∧ reachable (line_topology 102) 0 101
  ∧ shortest (line_topology 102) 0 101 101
  ∧ ∃ routes,
      ComputeStaticRoutes (line_topology 102) = Done routes
      ∧ GetHopCount routes 0 101 = Done UINT32_MAX
      ∧ GetHopCount routes 0 101 ≠ Done 101.
Proof.
  assert (Hrange : neighbors_in_range (line_topology 102)).
  { apply neighbors_in_rangeb_sound. vm_compute. reflexivity. }
  assert (Hpath : path (line_topology 102) 0 101 101).
  { apply (is_pathb_sound (line_topology 102) (map N.of_nat (seq 1 101)) 0).
    vm_compute. reflexivity. }
  assert (Hrun : ∃ routes, ComputeStaticRoutes (line_topology 102) = Done routes
                           ∧ GetHopCount routes 0 101 = Done UINT32_MAX).
  { apply outcome_done. vm_compute. reflexivity. }
  destruct Hrun as (routes & Hrun & Hcount).
  split; [reflexivity|]. split; [exact Hrange|]. split; [exists 101%nat; exact Hpath|].
  split.
  - destruct (ComputeStaticRoutes_correct (line_topology 102) ltac:(reflexivity) Hrange)
      as (routes' & Hrun' & Hok & _).
    rewrite Hrun in Hrun'. injection Hrun' as <-.
    destruct (Hok 0 101 ltac:(reflexivity) ltac:(discriminate))
      as (_ & _ & k & Hshort & _); [exists 101%nat; exact Hpath|].
    pose proof (GetHopCount_shortest (line_topology 102) routes Hok 0 101 (S k)
                  ltac:(reflexivity) ltac:(reflexivity) Hshort) as Hcount'.
    rewrite Hcount in Hcount'.
    destruct (N.of_nat (S k) <=? 100) eqn:Hle.
    + injection Hcount' as Hcount'. apply N.leb_le in Hle. unfold UINT32_MAX in Hcount'. lia.
    + apply N.leb_gt in Hle. pose proof (proj2 Hshort _ Hpath) as Hmin.
      replace 101%nat with (S k) by lia. exact Hshort.
  - exists routes. split; [exact Hrun|]. split; [exact Hcount|].
    rewrite Hcount. discriminate.
Defined.

(** C8: a routing table returned by ComputeStaticRoutes has no entry for any
    pair (x, x), so that GetNextHop(x, x) is the UINT32_MAX sentinel; and the
    table is returned for every topology whose neighbor ids are node ids. *)
Theorem no_self_routes (t : IslTopology) (x : N) :
  (∀ routes, ComputeStaticRoutes t = Done routes →
             self_entry routes x = None ∧ GetNextHop routes x x = UINT32_MAX)
  ∧ (numSatellites t < 4294967296 → neighbors_in_range t →
     ∃ routes, ComputeStaticRoutes t = Done routes
               ∧ self_entry routes x = None ∧ GetNextHop routes x x = UINT32_MAX).
Proof.
  assert (Hany : ∀ routes, ComputeStaticRoutes t = Done routes →
                   self_entry routes x = None ∧ GetNextHop routes x x = UINT32_MAX).
  { intros routes Hrun.
    pose proof (ComputeStaticRoutes_no_self t routes Hrun x) as Hno.
    split; [exact Hno | apply self_entry_GetNextHop; exact Hno]. }
  split; [exact Hany|].
  intros Huint32 Hrange.
  destruct (ComputeStaticRoutes_correct t Huint32 Hrange) as (routes & Hrun & _).
  exists routes. split; [exact Hrun | apply Hany; exact Hrun].
Qed.

(** Satellite 7 of the 24-satellite mesh has no route to itself. *)
Lemma no_self_routes_walker24 :
  ∃ routes, ComputeStaticRoutes walker24 = Done routes
            ∧ self_entry routes 7 = None ∧ GetNextHop routes 7 7 = UINT32_MAX.
Proof.
  apply (proj2 (no_self_routes walker24 7)).
  - reflexivity.
  - exact walker24_in_range.
Defined.

(** *** BFS and Dijkstra test every neighbor id *)

Lemma bfs_scan_returns (n : N) (nbrs : list N) :
  ∀ visited q,
    N.to_nat n = length visited →
    ∃ visited' q',
      bfs_scan n nbrs visited q = Done (visited', q')
      ∧ length visited' = length visited
      ∧ (length q' + N.to_nat (count_true visited)
         = length q + N.to_nat (count_true visited'))%nat.
Proof.
  induction nbrs as [|v nbrs IH]; intros visited q Hlen; simpl.
  - eexists _, _. split; [reflexivity|]. split; [reflexivity | lia].
  - destruct (v <? n) eqn:Hv; [|apply IH; exact Hlen].
    apply N.ltb_lt in Hv.
    destruct (vec_at_is_Some visited v ltac:(lia)) as [vis Hvis].
    rewrite (vec_get_at _ _ _ Hvis). simpl.
    destruct vis; simpl; [apply IH; exact Hlen|].
    rewrite vec_set_lt by lia. simpl.
    destruct (IH (<[N.to_nat v := true]> visited) (q ++ [v]))
      as (visited' & q' & Hrun & Hlen' & Hcount).
    { rewrite length_insert. exact Hlen. }
    exists visited', q'. split; [exact Hrun|].
    rewrite length_insert in Hlen'. split; [exact Hlen'|].
    rewrite (count_true_insert _ _ Hvis) in Hcount.
    rewrite length_app in Hcount. simpl in Hcount. lia.
Qed.

Lemma bfs_loop_returns (t : IslTopology) (fuel : nat) :
  ∀ visited q,
    N.to_nat (numSatellites t) = length visited →
    (length q + (length visited - N.to_nat (count_true visited)) ≤ fuel)%nat →
    ∃ reached, bfs_loop fuel t visited q = Done reached.
Proof.
  induction fuel as [|fuel IH]; intros visited q Hlen Hfuel;
    destruct q as [|current q]; simpl; eauto.
  - simpl in Hfuel. lia.
  - simpl in Hfuel.
    destruct (neighbors t !! current) as [nbrs|]; [|apply IH; [exact Hlen | lia]].
    destruct (bfs_scan_returns (numSatellites t) nbrs visited q Hlen)
      as (visited' & q' & -> & Hlen' & Hcount).
    simpl. apply IH; [lia|].
    pose proof (count_true_le visited'). pose proof (count_true_le visited). lia.
Qed.

Lemma BFS_returns (t : IslTopology) (src : N) : ∃ reached, BFS t src = Done reached.
Proof.
  unfold BFS. destruct (src <? numSatellites t) eqn:Hsrc; cbn [negb]; [|eauto].
  apply N.ltb_lt in Hsrc.
  rewrite vec_set_lt by (rewrite length_replicate; lia).
  cbn [mbind outcome_bind obind].
  apply bfs_loop_returns.
  - rewrite length_insert, length_replicate. reflexivity.
  - rewrite length_insert, length_replicate. simpl. lia.
Qed.

Lemma dijkstra_select_returns (dist : list N) (visited : list bool) (vs : list N) :
  ∀ u minDist,
    length dist = length visited →
    (∀ v, v ∈ vs → (N.to_nat v < length visited)%nat) →
    ∃ u' minDist',
      dijkstra_select vs dist visited u minDist = Done (u', minDist')
      ∧ (u' = u ∨ u' ∈ vs).
Proof.
  induction vs as [|v vs IH]; intros u minDist Hlen Hvs; simpl.
  - eexists _, _. split; [reflexivity | left; reflexivity].
  - assert (Hv : (N.to_nat v < length visited)%nat) by (apply Hvs; left).
    assert (Hrest : ∀ w, w ∈ vs → (N.to_nat w < length visited)%nat).
    { intros w Hw. apply Hvs. by right. }
    destruct (vec_at_is_Some visited v Hv) as [vis Hvis].
    rewrite (vec_get_at _ _ _ Hvis). simpl.
    destruct (vec_at_is_Some dist v ltac:(lia)) as [dv Hdv].
    assert (Hkeep : ∃ u' minDist',
              dijkstra_select vs dist visited u minDist = Done (u', minDist')
              ∧ (u' = u ∨ u' ∈ v :: vs)).
    { destruct (IH u minDist Hlen Hrest) as (u' & m' & Hrun & Hu').
      exists u', m'. split; [exact Hrun|].
      destruct Hu' as [Hu' | Hu']; [left; exact Hu' | right; by right]. }
    destruct vis; simpl; [exact Hkeep|].
    rewrite (vec_get_at _ _ _ Hdv). simpl.
    destruct (dv <? minDist); [|exact Hkeep].
    destruct (IH v dv Hlen Hrest) as (u' & m' & Hrun & Hu').
    exists u', m'. split; [exact Hrun|]. right.
    destruct Hu' as [-> | Hu']; [left | by right].
Qed.

Lemma dijkstra_update_returns (n u : N) (visited : list bool) (nbrs : list N) :
  ∀ dist,
    length dist = length visited → N.to_nat n = length visited → u < n →
    ∃ dist', dijkstra_update n u nbrs dist visited = Done dist'
             ∧ length dist' = length dist.
Proof.
  induction nbrs as [|v nbrs IH]; intros dist Hlen Hn Hu; simpl; [eauto|].
  destruct (v <? n) eqn:Hv; [|apply IH; assumption].
  apply N.ltb_lt in Hv.
  destruct (vec_at_is_Some visited v ltac:(lia)) as [vis Hvis].
  rewrite (vec_get_at _ _ _ Hvis). simpl.
  destruct vis; simpl; [apply IH; assumption|].
  destruct (vec_at_is_Some dist u ltac:(lia)) as [du Hdu].
  rewrite (vec_get_at _ _ _ Hdu). simpl.
  destruct (vec_at_is_Some dist v ltac:(lia)) as [dv Hdv].
  rewrite (vec_get_at _ _ _ Hdv). simpl.
  destruct (wrap32 (du + 1) <? dv); [|apply IH; assumption].
  rewrite vec_set_lt by lia. simpl.
  destruct (IH (<[N.to_nat v := wrap32 (du + 1)]> dist)) as (dist' & Hrun & Hlen');
    [rewrite length_insert; exact Hlen | exact Hn | exact Hu |].
  exists dist'. split; [exact Hrun|]. rewrite Hlen', length_insert. reflexivity.
Qed.

Lemma dijkstra_rounds_returns (t : IslTopology) (rounds : nat) :
  ∀ dist visited,
    length dist = length visited →
    N.to_nat (numSatellites t) = length visited →
    ∃ dist', dijkstra_rounds rounds t dist visited = Done dist'.
Proof.
  induction rounds as [|rounds IH]; intros dist visited Hlen Hn; simpl; [eauto|].
  destruct (dijkstra_select_returns dist visited (N_range (numSatellites t))
              UINT32_MAX UINT32_MAX Hlen) as (u & m & -> & Hu).
  { intros v Hv. apply N_range_elem in Hv. lia. }
  simpl. destruct (u =? UINT32_MAX) eqn:Hmax; [eauto|].
  apply N.eqb_neq in Hmax.
  destruct Hu as [Hu | Hu]; [contradiction|].
  apply N_range_elem in Hu.
  rewrite vec_set_lt by lia. simpl.
  destruct (neighbors t !! u) as [nbrs|]; simpl.
  - destruct (dijkstra_update_returns (numSatellites t) u
                (<[N.to_nat u := true]> visited) nbrs dist)
      as (dist' & -> & Hlen'); [by rewrite length_insert | by rewrite length_insert | exact Hu |].
    simpl. apply IH; rewrite length_insert; lia.
  - apply IH; rewrite length_insert; lia.
Qed.

Lemma Dijkstra_returns (t : IslTopology) (src : N) : ∃ dist, Dijkstra t src = Done dist.
Proof.
  unfold Dijkstra. destruct (src <? numSatellites t) eqn:Hsrc; cbn [negb]; [|eauto].
  apply N.ltb_lt in Hsrc.
  rewrite vec_set_lt by (rewrite length_replicate; lia).
  cbn [mbind outcome_bind obind].
  apply dijkstra_rounds_returns.
  - rewrite length_insert, !length_replicate. reflexivity.
  - rewrite length_replicate. reflexivity.
Qed.

(** C9: for every topology in which every neighbor id of every neighbor list
    is below numSatellites, ComputeStaticRoutes runs to its end: no access to
    dist, prev or visited is out of bounds (and no loop runs out of fuel).
    Every topology returned by GenerateWalkerDeltaTopology is such a topology.
    BFS and Dijkstra test every neighbor id and return on every topology;
    ComputeStaticRoutes does not test it, and on a topology with a stray
    neighbor id it indexes out of range. *)
Theorem relaxation_in_bounds :
  (∀ t, numSatellites t < 4294967296 → neighbors_in_range t →
        ∃ routes, ComputeStaticRoutes t = Done routes)
  ∧ (∀ n k, neighbors_in_range (GenerateWalkerDeltaTopology n k))
  ∧ (∀ t src, (∃ reached, BFS t src = Done reached)
               ∧ (∃ dist, Dijkstra t src = Done dist))
  ∧ (¬ neighbors_in_range stray_topology
     ∧ ComputeStaticRoutes stray_topology = OutOfRange
     ∧ BFS stray_topology 0 = Done [true; false]
     ∧ Dijkstra stray_topology 0 = Done [0; UINT32_MAX]).
Proof.
  split.
  { intros t Huint32 Hrange.
    destruct (ComputeStaticRoutes_correct t Huint32 Hrange) as (routes & Hrun & _).
    exists routes. exact Hrun. }
  split; [exact generated_in_range|].
  split; [intros t src; split; [apply BFS_returns | apply Dijkstra_returns]|].
  split.
  { intros Hrange. specialize (Hrange 0 [5] 5).
    assert (H : 5 < 2).
    { apply Hrange; [vm_compute; reflexivity | left]. }
    discriminate H. }
  split; [vm_compute; reflexivity|].
  split; vm_compute; reflexivity.
Qed.

(** The table of the 24-satellite mesh is computed without any access out
    of bounds. *)
Lemma relaxation_in_bounds_walker24 :
  ∃ routes, ComputeStaticRoutes (GenerateWalkerDeltaTopology 24 4) = Done routes.
Proof.
  apply (proj1 relaxation_in_bounds).
  - reflexivity.
  - apply (proj1 (proj2 relaxation_in_bounds)).
Defined.

(** * Further properties *)

(** ** The routing table and the hop count *)

(** Reachability from a node is decided by the shortest-path search. *)
Lemma reachable_decidable (t : IslTopology) (s d : N) :
  numSatellites t < 4294967296 → neighbors_in_range t → s < numSatellites t →
  reachable t s d ∨ ¬ reachable t s d.
Proof.
  intros Huint32 Hrange Hs.
  destruct (dijkstra_loop_inv t s Huint32 Hrange Hs (S (adjacency_entries t))
              (initial_state t s)) as (st & _ & Hinv & Hpq).
  { apply initial_state_inv; assumption. }
  { unfold loop_measure, initial_state. simpl.
    rewrite pending_initial. unfold adjacency_entries. lia. }
  destruct (decide (d < numSatellites t)) as [Hd | Hd].
  - destruct (vec_at_is_Some (st_dist st) d) as [dd Hdd].
    { rewrite (inv_len_dist _ _ _ _ Hinv). lia. }
    destruct (N.eq_dec dd UINT32_MAX) as [-> | Hfin].
    + right. intros [k Hk].
      destruct (final_reachable t s Huint32 Hrange Hs st d k Hinv Hpq Hk)
        as (dv & Hdv & Hlim & _).
      rewrite Hdd in Hdv. injection Hdv as <-. unfold UINT32_MAX in Hlim. lia.
    + left. exists (N.to_nat dd).
      eapply search_inv_realizable; eassumption.
  - right. intros [k Hk]. apply Hd. eapply path_in_range; eassumption.
Qed.

Lemma hop_loop_no_route (routes : RoutingTables.t) (dst : N) (fuel : nat)
    (current : N) (visited : gset N) (hops : N) :
  current ≠ dst → current ∉ visited → GetNextHop routes current dst = UINT32_MAX →
  hop_loop (S fuel) routes dst current visited hops = Done UINT32_MAX.
Proof.
  intros Hne Hfresh Hnone. simpl.
  rewrite (proj2 (N.eqb_neq current dst) Hne).
  rewrite decide_False by exact Hfresh.
  rewrite Hnone. reflexivity.
Qed.

Lemma GetHopCount_no_route (routes : RoutingTables.t) (s d : N) :
  s ≠ d → GetNextHop routes s d = UINT32_MAX →
  GetHopCount routes s d = Done UINT32_MAX.
Proof.
  intros Hne Hnone. unfold GetHopCount.
  rewrite (proj2 (N.eqb_neq s d) Hne).
  apply (hop_loop_no_route routes d 100); [exact Hne | apply not_elem_of_empty | exact Hnone].
Qed.

Lemma path_reverse (t : IslTopology) (u v : N) (k : nat) :
  symmetric t → path t u v k → path t v u k.
Proof.
  intros Hsym Hp. induction Hp as [| v w k Hp IH Hvw].
  - apply path_nil.
  - apply (path_cons t w v u k); [apply Hsym; exact Hvw | exact IH].
Qed.

Lemma shortest_reverse (t : IslTopology) (u v : N) (k : nat) :
  symmetric t → shortest t u v k → shortest t v u k.
Proof.
  intros Hsym [Hp Hmin]. split; [apply path_reverse; assumption|].
  intros j Hj. apply Hmin. apply path_reverse; assumption.
Qed.

(** X1: for a topology whose neighbor ids are node ids, the table of
    ComputeStaticRoutes has a next hop for (src, dst) exactly when src is a
    node, dst differs from src and dst is reachable from src; a next hop that
    is defined is a node and a neighbor of src. *)
Theorem next_hop_defined_iff_reachable (t : IslTopology) :
  numSatellites t < 4294967296 → neighbors_in_range t →
  ∃ routes,
    ComputeStaticRoutes t = Done routes
    ∧ ∀ s d,
        (GetNextHop routes s d ≠ UINT32_MAX
         ↔ s < numSatellites t ∧ d ≠ s ∧ reachable t s d)
        ∧ (GetNextHop routes s d ≠ UINT32_MAX →
           GetNextHop routes s d < numSatellites t
           ∧ is_neighbor t s (GetNextHop routes s d)).
Proof.
  intros Huint32 Hrange.
  destruct (ComputeStaticRoutes_correct t Huint32 Hrange) as (routes & Hrun & Hok & Hnone).
  exists routes. split; [exact Hrun|].
  intros s d.
  assert (Hiff : GetNextHop routes s d ≠ UINT32_MAX
                 ↔ s < numSatellites t ∧ d ≠ s ∧ reachable t s d).
  { split.
    - intros Hdef.
      destruct (decide (s < numSatellites t)) as [Hs | Hs];
        [|exfalso; apply Hdef, Hnone; right; right; left; lia].
      destruct (N.eq_dec d s) as [Hd | Hd]; [exfalso; apply Hdef, Hnone; auto|].
      destruct (reachable_decidable t s d Huint32 Hrange Hs) as [Hr | Hr]; [auto|].
      exfalso. apply Hdef, Hnone. auto.
    - intros (Hs & Hd & Hr). destruct (Hok s d Hs Hd Hr) as (Hh & _).
      unfold UINT32_MAX. lia. }
  split; [exact Hiff|].
  intros Hdef. apply Hiff in Hdef as (Hs & Hd & Hr).
  destruct (Hok s d Hs Hd Hr) as (Hh & Hedge & _). auto.
Qed.

(** On the 24-satellite mesh, from satellite 3 to satellite 20. *)
Lemma next_hop_defined_walker24 :
  ∃ routes,
    ComputeStaticRoutes walker24 = Done routes
    ∧ (GetNextHop routes 3 20 ≠ UINT32_MAX
       ↔ 3 < numSatellites walker24 ∧ 20 ≠ 3 ∧ reachable walker24 3 20).
Proof.
  destruct (next_hop_defined_iff_reachable walker24) as (routes & Hrun & Hall).
  - reflexivity.
  - exact walker24_in_range.
  - exists routes. split; [exact Hrun | apply Hall].
Defined.

(** X2: a destination listed among the neighbors of src is routed directly:
    its next hop is the destination itself and its hop count is 1. *)
Theorem neighbors_are_routed_directly (t : IslTopology) (src dst : N) :
  numSatellites t < 4294967296 → neighbors_in_range t →
  src < numSatellites t → dst ≠ src → is_neighbor t src dst →
  ∃ routes,
    ComputeStaticRoutes t = Done routes
    ∧ GetNextHop routes src dst = dst
    ∧ GetHopCount routes src dst = Done 1.
Proof.
  intros Huint32 Hrange Hsrc Hne Hedge.
  destruct (ComputeStaticRoutes_correct t Huint32 Hrange) as (routes & Hrun & Hok & _).
  exists routes. split; [exact Hrun|].
  assert (Hshort : shortest t src dst 1).
  { split; [eapply path_snoc; [apply path_nil | exact Hedge]|].
    intros [|k] Hk; [|lia]. apply path_zero in Hk. congruence. }
  destruct (shortest_next_hop t routes Hok src dst 0 Hsrc Hshort) as (_ & _ & _ & [Hp _]).
  apply path_zero in Hp.
  split; [exact Hp|].
  apply (GetHopCount_shortest t routes Hok src dst 1 Hsrc Huint32 Hshort).
Qed.

(** On the 24-satellite mesh, from satellite 0 to satellite 16 of the
    previous plane. *)
Lemma neighbors_are_routed_directly_walker24 :
  ∃ routes,
    ComputeStaticRoutes walker24 = Done routes
    ∧ GetNextHop routes 0 16 = 16
    ∧ GetHopCount routes 0 16 = Done 1.
Proof.
  apply (neighbors_are_routed_directly walker24 0 16).
  - reflexivity.
  - exact walker24_in_range.
  - reflexivity.
  - discriminate.
  - exists [1; 7; 8; 16]. split; [vm_compute; reflexivity|].
    apply (bool_decide_unpack _). vm_compute. exact I.
Defined.

(** X3: on the computed table the hop count decreases by one along the next
    hop: for a satellite src and a destination dst other than src, when
    GetHopCount(src, dst) is a count c and not the sentinel, c is at least 1
    and the count from the next hop of src to dst is c - 1.  (For dst = src
    the count is 0 and there is no next hop.) *)
Theorem hop_count_decreases_along_next_hop (t : IslTopology) (src dst c : N) :
  numSatellites t < 4294967296 → neighbors_in_range t →
  src < numSatellites t → dst ≠ src →
  ∀ routes,
    ComputeStaticRoutes t = Done routes →
    GetHopCount routes src dst = Done c → c ≠ UINT32_MAX →
    1 ≤ c ∧ GetHopCount routes (GetNextHop routes src dst) dst = Done (c - 1).
Proof.
  intros Huint32 Hrange Hsrc Hne routes Hrun Hcount Hfin.
  destruct (ComputeStaticRoutes_correct t Huint32 Hrange) as (routes' & Hrun' & Hok & Hnone).
  rewrite Hrun in Hrun'. injection Hrun' as <-.
  destruct (reachable_decidable t src dst Huint32 Hrange Hsrc) as [Hr | Hr].
  - destruct (Hok src dst Hsrc Hne Hr) as (Hh & _ & k & Hshort & Hshort').
    rewrite (GetHopCount_shortest t routes Hok src dst (S k) Hsrc Huint32 Hshort) in Hcount.
    rewrite (GetHopCount_shortest t routes Hok _ dst k Hh Huint32 Hshort').
    destruct (N.of_nat (S k) <=? 100) eqn:Hle; injection Hcount as <-; [|contradiction].
    apply N.leb_le in Hle.
    rewrite (proj2 (N.leb_le (N.of_nat k) 100)) by lia.
    split; [lia|]. f_equal. lia.
  - rewrite GetHopCount_no_route in Hcount; [congruence | congruence |].
    apply Hnone. auto.
Qed.

(** On the 24-satellite mesh, from satellite 0 to satellite 12 (5 hops). *)
Lemma hop_count_decreases_walker24 :
  ∃ routes,
    ComputeStaticRoutes walker24 = Done routes
    ∧ GetHopCount routes 0 12 = Done 5
    ∧ GetHopCount routes (GetNextHop routes 0 12) 12 = Done 4.
Proof.
  assert (Hrun : ∃ routes, ComputeStaticRoutes walker24 = Done routes
                           ∧ GetHopCount routes 0 12 = Done 5).
  { apply outcome_done. vm_compute. reflexivity. }
  destruct Hrun as (routes & Hrun & Hcount).
  exists routes. split; [exact Hrun|]. split; [exact Hcount|].
  apply (hop_count_decreases_along_next_hop walker24 0 12 5); try assumption.
  - reflexivity.
  - exact walker24_in_range.
  - reflexivity.
  - discriminate.
  - discriminate.
Defined.

(** X4: on a symmetric topology whose neighbor ids are node ids the hop count
    of the computed table is the same in both directions. *)
Theorem hop_count_symmetric (t : IslTopology) (a b : N) :
  numSatellites t < 4294967296 → neighbors_in_range t → symmetric t →
  a < numSatellites t → b < numSatellites t →
  ∃ routes,
    ComputeStaticRoutes t = Done routes
    ∧ GetHopCount routes a b = GetHopCount routes b a.
Proof.
  intros Huint32 Hrange Hsym Ha Hb.
  destruct (ComputeStaticRoutes_correct t Huint32 Hrange) as (routes & Hrun & Hok & Hnone).
  exists routes. split; [exact Hrun|].
  destruct (N.eq_dec a b) as [-> | Hne]; [reflexivity|].
  destruct (reachable_decidable t a b Huint32 Hrange Ha) as [Hr | Hr].
  - destruct (Hok a b Ha ltac:(congruence) Hr) as (_ & _ & k & Hshort & _).
    rewrite (GetHopCount_shortest t routes Hok a b (S k) Ha Huint32 Hshort).
    rewrite (GetHopCount_shortest t routes Hok b a (S k) Hb Huint32
               (shortest_reverse t a b (S k) Hsym Hshort)).
    reflexivity.
  - rewrite !GetHopCount_no_route; try congruence.
    + apply Hnone. right. left. intros [k Hk]. apply Hr. exists k.
      apply path_reverse; assumption.
    + apply Hnone. auto.
Qed.

(** On the 24-satellite mesh, between satellites 2 and 21. *)
Lemma hop_count_symmetric_walker24 :
  ∃ routes,
    ComputeStaticRoutes walker24 = Done routes
    ∧ GetHopCount routes 2 21 = GetHopCount routes 21 2.
Proof.
  apply (hop_count_symmetric walker24 2 21).
  - reflexivity.
  - exact walker24_in_range.
  - apply symmetricb_sound. vm_compute. reflexivity.
  - reflexivity.
  - reflexivity.
Defined.

Lemma walk_add (routes : RoutingTables.t) (dst : N) (a b : nat) (x : N) :
  walk routes dst (a + b) x = walk routes dst b (walk routes dst a x).
Proof.
  revert x. induction a as [|a IH]; intros x; [reflexivity|].
  change (S a + b)%nat with (S (a + b)).
  rewrite walk_shift, IH, <- walk_shift. reflexivity.
Qed.

(** A walk that arrives for the first time after [k] steps does not pass
    twice through a node before. *)
Lemma first_arrival_distinct (routes : RoutingTables.t) (src dst : N) (k : nat) :
  first_arrival routes src dst k →
  ∀ i j, (i < j)%nat → (j < k)%nat →
         walk routes dst i src ≠ walk routes dst j src.
Proof.
  intros [Hend Hbefore] i j Hij Hjk Heq.
  assert (Hlater : walk routes dst (i + (k - j)) src = walk routes dst (j + (k - j)) src).
  { rewrite !walk_add, Heq. reflexivity. }
  replace (j + (k - j))%nat with k in Hlater by lia.
  rewrite Hend in Hlater.
  destruct (Hbefore (i + (k - j))%nat ltac:(lia)) as [Hne _]. contradiction.
Qed.

Lemma first_arrival_step (routes : RoutingTables.t) (src dst : N) (k : nat) :
  first_arrival routes src dst (S k) →
  first_arrival routes (GetNextHop routes src dst) dst k.
Proof.
  intros [Hend Hbefore]. split; [rewrite <- walk_shift; exact Hend|].
  intros j Hj. rewrite <- walk_shift. apply Hbefore. lia.
Qed.

Lemma hop_loop_arrival (routes : RoutingTables.t) (dst : N) (k : nat) :
  ∀ fuel current visited hops,
    first_arrival routes current dst k →
    (∀ j, (j < k)%nat → walk routes dst j current ∉ visited) →
    hops + N.of_nat k ≤ 100 → (101 - N.to_nat hops ≤ fuel)%nat →
    hop_loop fuel routes dst current visited hops = Done (hops + N.of_nat k).
Proof.
  induction k as [|k IH]; intros fuel current visited hops Harr Hfresh Hcap Hfuel.
  - destruct Harr as [Hend _]. simpl in Hend. subst dst.
    rewrite N.add_0_r. destruct fuel; simpl; rewrite N.eqb_refl; reflexivity.
  - destruct fuel as [|fuel]; [lia|].
    pose proof (first_arrival_distinct _ _ _ _ Harr) as Hdistinct.
    pose proof (first_arrival_step _ _ _ _ Harr) as Harr'.
    destruct Harr as [Hend Hbefore].
    destruct (Hbefore 0%nat ltac:(lia)) as [Hne Hdef]. simpl in Hne, Hdef.
    simpl. rewrite (proj2 (N.eqb_neq current dst) Hne).
    rewrite decide_False by (apply (Hfresh 0%nat); lia).
    rewrite (proj2 (N.eqb_neq _ UINT32_MAX) Hdef).
    rewrite wrap32_small by lia.
    rewrite (proj2 (N.ltb_ge 100 (hops + 1))) by lia.
    rewrite IH; try assumption; try lia.
    + f_equal. lia.
    + intros j Hj Hin. rewrite <- walk_shift in Hin.
      apply elem_of_union in Hin as [Hin | Hin].
      * apply elem_of_singleton in Hin.
        apply (Hdistinct 0%nat (S j)); [lia | lia |]. simpl. symmetry. exact Hin.
      * apply (Hfresh (S j)); [lia | exact Hin].
Qed.

(** X5: GetHopCount returns either the UINT32_MAX sentinel or a count of at
    most 100; it returns the count k exactly when the next-hop walk from src
    is at dst after k steps and not before, every node on the way has a table
    entry, and k is at most 100. *)
Theorem hop_count_is_first_arrival (routes : RoutingTables.t) (src dst : N) :
  (∃ r, GetHopCount routes src dst = Done r ∧ (r = UINT32_MAX ∨ r ≤ 100))
  ∧ ∀ k, GetHopCount routes src dst = Done (N.of_nat k) ∧ N.of_nat k ≠ UINT32_MAX
         ↔ first_arrival routes src dst k ∧ (k ≤ 100)%nat.
Proof.
  split.
  - destruct (GetHopCount_returns routes src dst) as [r Hr].
    exists r. split; [exact Hr|].
    destruct (N.eq_dec r UINT32_MAX) as [|Hfin]; [left; assumption|].
    destruct (GetHopCount_finite _ _ _ _ Hr Hfin) as (k & _ & Hle & _). right. exact Hle.
  - intros k. split.
    + intros [Hrun Hfin].
      destruct (GetHopCount_finite _ _ _ _ Hrun Hfin) as (k' & Hk & Hle & Hend & Hbefore & _).
      apply Nat2N.inj in Hk. subst k'.
      split; [split; assumption | lia].
    + intros [Harr Hle].
      split; [|unfold UINT32_MAX; lia].
      unfold GetHopCount. destruct (src =? dst) eqn:Hsd.
      * apply N.eqb_eq in Hsd. subst dst.
        destruct k as [|k]; [reflexivity|].
        destruct Harr as [_ Hbefore]. destruct (Hbefore 0%nat ltac:(lia)) as [Hne _].
        simpl in Hne. contradiction.
      * rewrite (hop_loop_arrival routes dst k 101 src ∅ 0 Harr); try lia.
        -- reflexivity.
        -- intros j _. apply not_elem_of_empty.
Qed.

(** On the table 0 -> 1 -> 2 towards destination 2, from node 0. *)
Lemma hop_count_is_first_arrival_chain :
  GetHopCount chain_table 0 2 = Done 2 ∧ first_arrival chain_table 0 2 2.
Proof.
  assert (Hrun : GetHopCount chain_table 0 2 = Done (N.of_nat 2) ∧ N.of_nat 2 ≠ UINT32_MAX).
  { split; [vm_compute; reflexivity | discriminate]. }
  split; [apply Hrun|].
  apply (proj2 (hop_count_is_first_arrival chain_table 0 2) 2%nat) in Hrun.
  apply Hrun.
Defined.

(** X6: SetNextHop followed by GetNextHop reads the value back for the pair
    that was set and leaves every other pair as it was; GetAllNextHops is the
    row that GetNextHop reads, with the sentinel standing for a missing entry,
    and it is empty for a source without routes. *)
Theorem routing_table_set_get (r : RoutingTables.t) (s d h : N) :
  (∀ s' d', GetNextHop (SetNextHop r s d h) s' d'
            = if decide (s = s' ∧ d = d') then h else GetNextHop r s' d')
  ∧ (∀ s', GetAllNextHops (SetNextHop r s d h) s'
           = if decide (s = s') then <[d := h]> (GetAllNextHops r s)
             else GetAllNextHops r s')
  ∧ (∀ s' d', GetNextHop r s' d' = default UINT32_MAX (GetAllNextHops r s' !! d'))
  ∧ (∀ h', SetNextHop (SetNextHop r s d h) s d h' = SetNextHop r s d h')
  ∧ GetAllNextHops RoutingTables.empty s = ∅.
Proof.
  split; [intros s' d'; apply GetNextHop_SetNextHop|].
  split.
  { intros s'. unfold GetAllNextHops, SetNextHop. simpl.
    destruct (decide (s = s')) as [<- | Hne].
    - rewrite lookup_insert_eq. reflexivity.
    - rewrite lookup_insert_ne by exact Hne. reflexivity. }
  split.
  { intros s' d'. unfold GetNextHop, GetAllNextHops.
    destruct (m_nextHop r !! s') as [row|]; simpl; [|reflexivity].
    destruct (row !! d'); reflexivity. }
  split; [|reflexivity].
  intros h'. unfold SetNextHop. simpl. f_equal.
  rewrite lookup_insert_eq. simpl.
  rewrite insert_insert_eq. f_equal. apply insert_insert_eq.
Qed.

(** ** BFS *)

(** The scan of one neighbor list marks its nodes and queues those that
    were not marked before. *)
Lemma bfs_scan_spec (n : N) (nbrs : list N) :
  ∀ visited q,
    N.to_nat n = length visited → (∀ v, v ∈ nbrs → v < n) →
    ∃ visited' q',
      bfs_scan n nbrs visited q = Done (visited', q')
      ∧ length visited' = length visited
      ∧ (∀ x, vec_at visited' x = Some true ↔ vec_at visited x = Some true ∨ x ∈ nbrs)
      ∧ (∀ x, x ∈ q' → x ∈ q ∨ x ∈ nbrs)
      ∧ (∀ x, x ∈ q → x ∈ q')
      ∧ (∀ x, x ∈ nbrs → vec_at visited x = Some true ∨ x ∈ q')
      ∧ (length q' + N.to_nat (count_true visited)
         = length q + N.to_nat (count_true visited'))%nat.
Proof.
  induction nbrs as [|v nbrs IH]; intros visited q Hlen Hnbrs; simpl.
  - exists visited, q. split; [reflexivity|]. split; [reflexivity|].
    split; [intros x; split; [auto | intros [H | H]; [exact H | by apply elem_of_nil in H]]|].
    split; [auto|]. split; [auto|].
    split; [intros x H; by apply elem_of_nil in H | lia].
  - assert (Hv : v < n) by (apply Hnbrs; left).
    assert (Hrest : ∀ w, w ∈ nbrs → w < n) by (intros w Hw; apply Hnbrs; by right).
    rewrite (proj2 (N.ltb_lt v n) Hv).
    destruct (vec_at_is_Some visited v ltac:(lia)) as [vis Hvis].
    rewrite (vec_get_at _ _ _ Hvis). simpl.
    destruct vis; simpl.
    + destruct (IH visited q Hlen Hrest)
        as (visited' & q' & Hrun & Hlen' & Hmark & Hq & Hkeep & Hnew & Hcount).
      exists visited', q'. split; [exact Hrun|]. split; [exact Hlen'|].
      split.
      { intros x. rewrite Hmark, elem_of_cons. split; [tauto|].
        intros [H | [-> | H]]; auto. }
      split; [intros x Hx; destruct (Hq x Hx); [left | right; right]; assumption|].
      split; [exact Hkeep|].
      split; [|exact Hcount].
      intros x Hx. apply elem_of_cons in Hx as [-> | Hx]; [left; exact Hvis | by apply Hnew].
    + rewrite vec_set_lt by lia. simpl.
      destruct (IH (<[N.to_nat v := true]> visited) (q ++ [v]))
        as (visited' & q' & Hrun & Hlen' & Hmark & Hq & Hkeep & Hnew & Hcount);
        [rewrite length_insert; exact Hlen | exact Hrest |].
      assert (Hins : ∀ x, vec_at (<[N.to_nat v := true]> visited) x = Some true
                          ↔ vec_at visited x = Some true ∨ x = v).
      { intros x. rewrite vec_at_insert by lia.
        destruct (decide (v = x)) as [<- | Hne]; [tauto|].
        split; [auto | intros [H | H]; [exact H | congruence]]. }
      exists visited', q'. split; [exact Hrun|].
      rewrite length_insert in Hlen'. split; [exact Hlen'|].
      split.
      { intros x. rewrite Hmark, Hins, elem_of_cons. tauto. }
      split.
      { intros x Hx. destruct (Hq x Hx) as [Hin | Hin]; [|right; by right].
        apply elem_of_app in Hin as [Hin | Hin]; [left; exact Hin|].
        apply list_elem_of_singleton in Hin. subst x. right. left. }
      split; [intros x Hx; apply Hkeep, elem_of_app; left; exact Hx|].
      split.
      { intros x Hx. apply elem_of_cons in Hx as [-> | Hx].
        - right. apply Hkeep, elem_of_app. right. apply list_elem_of_singleton. reflexivity.
        - destruct (Hnew x Hx) as [H | H]; [|right; exact H].
          apply Hins in H as [H | ->]; [left; exact H|].
          right. apply Hkeep, elem_of_app. right. apply list_elem_of_singleton. reflexivity. }
      rewrite (count_true_insert _ _ Hvis) in Hcount.
      rewrite length_app in Hcount. simpl in Hcount. lia.
Qed.

Lemma bfs_loop_inv (t : IslTopology) (src : N) (fuel : nat) :
  neighbors_in_range t →
  ∀ visited q,
    bfs_inv t src visited q →
    (length q + (length visited - N.to_nat (count_true visited)) ≤ fuel)%nat →
    ∃ reached, bfs_loop fuel t visited q = Done reached ∧ bfs_inv t src reached [].
Proof.
  intros Hrange.
  induction fuel as [|fuel IH]; intros visited q Hinv Hfuel;
    destruct q as [|current q]; simpl; eauto.
  - simpl in Hfuel. lia.
  - simpl in Hfuel. destruct Hinv as [Hlen Hsrc Hsound Hqueue Hclosed].
    assert (Hcur : vec_at visited current = Some true) by (apply Hqueue; left).
    destruct (neighbors t !! current) as [nbrs|] eqn:Hnb.
    + destruct (bfs_scan_spec (numSatellites t) nbrs visited q ltac:(lia))
        as (visited' & q' & -> & Hlen' & Hmark & Hq & Hkeep & Hnew & Hcount).
      { intros v Hv. eapply Hrange; eassumption. }
      simpl. apply IH.
      * constructor.
        -- lia.
        -- apply Hmark. left. exact Hsrc.
        -- intros v Hv. apply Hmark in Hv as [Hv | Hv]; [by apply Hsound|].
           destruct (Hsound current Hcur) as [k Hk].
           exists (S k). eapply path_snoc; [exact Hk|]. exists nbrs. auto.
        -- intros u Hu. apply Hmark.
           destruct (Hq u Hu) as [Hin | Hin]; [left; apply Hqueue; by right | right; exact Hin].
        -- intros u v Hu Huv. apply Hmark in Hu as [Hu | Hu].
           ++ destruct (Hclosed u v Hu Huv) as [Hin | Hv].
              ** apply elem_of_cons in Hin as [-> | Hin]; [|left; by apply Hkeep].
                 right. apply Hmark. right.
                 destruct Huv as (l & Hl & Hin). rewrite Hnb in Hl. injection Hl as <-. exact Hin.
              ** right. apply Hmark. left. exact Hv.
           ++ destruct (Hnew u Hu) as [Hold | Hin]; [|left; exact Hin].
              destruct (Hclosed u v Hold Huv) as [Hin | Hv].
              ** apply elem_of_cons in Hin as [-> | Hin]; [|left; by apply Hkeep].
                 right. apply Hmark. right.
                 destruct Huv as (l & Hl & Hin). rewrite Hnb in Hl. injection Hl as <-. exact Hin.
              ** right. apply Hmark. left. exact Hv.
      * pose proof (count_true_le visited'). pose proof (count_true_le visited). lia.
    + apply IH; [|lia].
      constructor; try assumption.
      * intros u Hu. apply Hqueue. by right.
      * intros u v Hu Huv. destruct (Hclosed u v Hu Huv) as [Hin | Hv]; [|right; exact Hv].
        apply elem_of_cons in Hin as [-> | Hin]; [|left; exact Hin].
        destruct Huv as (l & Hl & _). rewrite Hnb in Hl. discriminate.
Qed.

Lemma BFS_spec (t : IslTopology) (src : N) :
  neighbors_in_range t → src < numSatellites t →
  ∃ reached,
    BFS t src = Done reached
    ∧ length reached = N.to_nat (numSatellites t)
    ∧ ∀ v, vec_at reached v = Some true ↔ reachable t src v.
Proof.
  intros Hrange Hsrc. unfold BFS.
  rewrite (proj2 (N.ltb_lt src (numSatellites t)) Hsrc). cbn [negb].
  rewrite vec_set_lt by (rewrite length_replicate; lia).
  cbn [mbind outcome_bind obind].
  set (visited := <[N.to_nat src := true]> (replicate (N.to_nat (numSatellites t)) false)).
  assert (Hlen : length visited = N.to_nat (numSatellites t)).
  { unfold visited. rewrite length_insert, length_replicate. reflexivity. }
  assert (Hmark : ∀ x, vec_at visited x = Some true ↔ x = src).
  { intros x. unfold visited. rewrite vec_at_insert by (rewrite length_replicate; lia).
    destruct (decide (src = x)) as [<- | Hne]; [tauto|].
    split; [|congruence]. intros H. apply vec_at_replicate in H. discriminate. }
  destruct (bfs_loop_inv t src (S (N.to_nat (numSatellites t))) Hrange visited [src])
    as (reached & Hrun & [Hlen' Hsrc' Hsound Hqueue Hclosed]).
  { constructor.
    - exact Hlen.
    - apply Hmark. reflexivity.
    - intros v Hv. apply Hmark in Hv as ->. exists 0%nat. apply path_nil.
    - intros u Hu. apply list_elem_of_singleton in Hu as ->. apply Hmark. reflexivity.
    - intros u v Hu _. apply Hmark in Hu as ->. left. left. }
  { simpl. lia. }
  exists reached. split; [exact Hrun|]. split; [exact Hlen'|].
  intros v. split; [apply Hsound|].
  intros [k Hk]. induction Hk as [| v w k Hk IH Hvw]; [exact Hsrc'|].
  destruct (Hclosed v w IH Hvw) as [Hin | Hw]; [by apply elem_of_nil in Hin | exact Hw].
Qed.


(** X7: for a topology whose neighbor ids are node ids and a source that is
    a node, BFS returns a vector of numSatellites flags in which a node is
    marked exactly when it is reachable from the source; for a source that is
    not a node it returns the vector of all-false flags. *)
Theorem BFS_marks_reachable (t : IslTopology) (src : N) :
  (numSatellites t ≤ src →
   BFS t src = Done (replicate (N.to_nat (numSatellites t)) false))
  ∧ (neighbors_in_range t → src < numSatellites t →
     ∃ reached,
       BFS t src = Done reached
       ∧ length reached = N.to_nat (numSatellites t)
       ∧ ∀ v, vec_at reached v = Some true ↔ reachable t src v).
Proof.
  split; [|apply BFS_spec].
  intros Hsrc. unfold BFS. rewrite (proj2 (N.ltb_ge src (numSatellites t)) Hsrc).
  reflexivity.
Qed.

(** On the 24-satellite mesh every satellite is marked from satellite 5, and
    none from the node id 30. *)
Lemma BFS_marks_reachable_walker24 :
  BFS walker24 30 = Done (replicate 24 false)
  ∧ ∃ reached,
      BFS walker24 5 = Done reached
      ∧ length reached = 24%nat
      ∧ ∀ v, vec_at reached v = Some true ↔ reachable walker24 5 v.
Proof.
  split.
  - apply (proj1 (BFS_marks_reachable walker24 30)). discriminate.
  - apply (proj2 (BFS_marks_reachable walker24 5)).
    + exact walker24_in_range.
    + reflexivity.
Defined.

(** X8: BFS and ComputeStaticRoutes agree on what is reachable: on a topology
    whose neighbor ids are node ids, a node is marked by BFS from src exactly
    when it is src itself or the table has a next hop from src towards it. *)
Theorem BFS_agrees_with_routes (t : IslTopology) (src : N) :
  numSatellites t < 4294967296 → neighbors_in_range t → src < numSatellites t →
  ∃ reached routes,
    BFS t src = Done reached
    ∧ ComputeStaticRoutes t = Done routes
    ∧ ∀ v, vec_at reached v = Some true
           ↔ v = src ∨ GetNextHop routes src v ≠ UINT32_MAX.
Proof.
  intros Huint32 Hrange Hsrc.
  destruct (BFS_spec t src Hrange Hsrc) as (reached & Hbfs & _ & Hmark).
  destruct (ComputeStaticRoutes_correct t Huint32 Hrange) as (routes & Hrun & Hok & Hnone).
  exists reached, routes. split; [exact Hbfs|]. split; [exact Hrun|].
  intros v. rewrite Hmark. split.
  - intros Hr. destruct (N.eq_dec v src) as [Hv | Hv]; [left; exact Hv | right].
    destruct (Hok src v Hsrc Hv Hr) as (Hh & _). unfold UINT32_MAX. lia.
  - intros [-> | Hdef]; [exists 0%nat; apply path_nil|].
    destruct (reachable_decidable t src v Huint32 Hrange Hsrc) as [Hr | Hr]; [exact Hr|].
    exfalso. apply Hdef, Hnone. auto.
Qed.

(** On the line of four nodes, from node 1. *)
Lemma BFS_agrees_with_routes_line :
  ∃ reached routes,
    BFS (line_topology 4) 1 = Done reached
    ∧ ComputeStaticRoutes (line_topology 4) = Done routes
    ∧ ∀ v, vec_at reached v = Some true
           ↔ v = 1 ∨ GetNextHop routes 1 v ≠ UINT32_MAX.
Proof.
  apply (BFS_agrees_with_routes (line_topology 4) 1).
  - reflexivity.
  - apply neighbors_in_rangeb_sound. vm_compute. reflexivity.
  - reflexivity.
Defined.

(** ** ComputeMeshConnectivity *)

Lemma wrap32_pred (x : N) : 1 ≤ x → wrap32 (wrap32 x + UINT32_MAX) = wrap32 (x - 1).
Proof.
  intros Hx. rewrite wrap32_add_l. unfold wrap32, UINT32_MAX.
  replace (x + 4294967295) with (x - 1 + 1 * 4294967296) by lia.
  apply N.Div0.mod_add.
Qed.

(** A power of two that divides a product with an odd factor divides the
    other factor. *)
Lemma pow2_divides_odd_factor (k : nat) :
  ∀ x m q, N.odd m = true → x * m = 2 ^ N.of_nat k * q → ∃ q', x = 2 ^ N.of_nat k * q'.
Proof.
  induction k as [|k IH]; intros x m q Hm Hq.
  - exists x. simpl. lia.
  - rewrite Nat2N.inj_succ, N.pow_succ_r' in Hq |- *.
    assert (Hx : N.odd x = false).
    { assert (Hprod : N.odd (x * m) = false).
      { rewrite Hq, <- N.mul_assoc, N.odd_mul. reflexivity. }
      rewrite N.odd_mul, Hm, andb_true_r in Hprod. exact Hprod. }
    assert (Heven : N.even x = true) by (rewrite <- N.negb_odd, Hx; reflexivity).
    apply N.even_spec in Heven as [x' ->].
    destruct (IH x' m q Hm) as [q' ->]; [nia|].
    exists q'. lia.
Qed.

(** The product n * (n - 1) of two consecutive numbers is not a multiple of
    2^32 unless one of them is. *)
Lemma total_pairs_nonzero (n : N) :
  2 ≤ n → n < 4294967296 → wrap32 (n * (n - 1)) ≠ 0.
Proof.
  intros Hlo Hhi Hzero. unfold wrap32 in Hzero.
  apply N.Div0.mod_divides in Hzero as [q Hq].
  change 4294967296 with (2 ^ N.of_nat 32) in Hq.
  destruct (N.odd n) eqn:Hodd.
  - destruct (pow2_divides_odd_factor 32 (n - 1) n q Hodd) as [q' Hq']; [lia|].
    change (2 ^ N.of_nat 32) with 4294967296 in Hq'.
    destruct q' as [|q']; lia.
  - assert (Hodd' : N.odd (n - 1) = true).
    { rewrite N.odd_sub by lia. rewrite Hodd. reflexivity. }
    destruct (pow2_divides_odd_factor 32 n (n - 1) q Hodd' Hq) as [q' Hq'].
    change (2 ^ N.of_nat 32) with 4294967296 in Hq'.
    destruct q' as [|q']; lia.
Qed.

Lemma count_true_all (v : list bool) :
  (∀ i, (i < length v)%nat → v !! i = Some true) →
  count_true v = N.of_nat (length v).
Proof.
  intros Hall. unfold count_true. f_equal.
  induction v as [|b v IH]; [reflexivity|].
  pose proof (Hall 0%nat ltac:(simpl; lia)) as Hb. simpl in Hb. injection Hb as ->.
  rewrite filter_cons_True by reflexivity. simpl. f_equal.
  apply IH. intros i Hi. apply (Hall (S i)). simpl. lia.
Qed.

Lemma count_true_one (v : list bool) (src : N) :
  (N.to_nat src < length v)%nat →
  (∀ x, vec_at v x = Some true ↔ x = src) →
  count_true v = 1.
Proof.
  intros Hsrc Hmark.
  assert (Hv : v = <[N.to_nat src := true]> (replicate (length v) false)).
  { apply list_eq. intros i.
    destruct (decide (i < length v)%nat) as [Hi | Hi].
    - destruct (decide (i = N.to_nat src)) as [-> | Hne].
      + rewrite list_lookup_insert_eq by (rewrite length_replicate; lia).
        apply (proj2 (Hmark src)). reflexivity.
      + rewrite list_lookup_insert_ne by lia.
        rewrite lookup_replicate_2 by lia.
        destruct (lookup_lt_is_Some_2 v i Hi) as [[|] Hb]; [|exact Hb].
        exfalso. apply Hne.
        assert (Hx : vec_at v (N.of_nat i) = Some true).
        { unfold vec_at. rewrite Nat2N.id. exact Hb. }
        apply Hmark in Hx. lia.
    - rewrite lookup_ge_None_2 by lia. symmetry. apply lookup_ge_None_2.
      rewrite length_insert, length_replicate. lia. }
  rewrite Hv. rewrite count_true_insert.
  - assert (Hzero : ∀ k, count_true (replicate k false) = 0).
    { intros k. unfold count_true. induction k as [|k IH]; [reflexivity|].
      simpl. rewrite filter_cons_False by discriminate. exact IH. }
    rewrite Hzero. reflexivity.
  - unfold vec_at. apply lookup_replicate_2. exact Hsrc.
Qed.

(** The accumulation loop when BFS marks the same number of nodes from every
    source. *)
Lemma mesh_reachable_pairs_uniform (t : IslTopology) (c : N) (srcs : list N) :
  1 ≤ c →
  (∀ s, s ∈ srcs → ∃ reached, BFS t s = Done reached ∧ count_true reached = c) →
  ∀ acc, acc < 4294967296 →
    mesh_reachable_pairs t srcs acc
    = Done (wrap32 (acc + N.of_nat (length srcs) * (c - 1))).
Proof.
  intros Hc. induction srcs as [|s srcs IH]; intros Hsrcs acc Hacc.
  - simpl. rewrite N.add_0_r, wrap32_small by exact Hacc. reflexivity.
  - destruct (Hsrcs s ltac:(left)) as (reached & Hbfs & Hcount).
    cbn [mesh_reachable_pairs]. rewrite Hbfs. cbn [mbind outcome_bind obind].
    rewrite Hcount, wrap32_pred by lia.
    rewrite IH.
    + rewrite wrap32_add_l. f_equal. cbn [length].
      rewrite Nat2N.inj_succ, N.mul_succ_l. f_equal.
      generalize (N.of_nat (length srcs) * (c - 1)). intros p. lia.
    + intros s' Hs'. apply Hsrcs. by right.
    + unfold wrap32. apply N.mod_lt. discriminate.
Qed.

Lemma ComputeMeshConnectivity_unfold (t : IslTopology) (rp : N) :
  2 ≤ numSatellites t → numSatellites t < 4294967296 →
  mesh_reachable_pairs t (N_range (numSatellites t)) 0 = Done rp →
  ComputeMeshConnectivity t
  = Done (PrimFloat.div (double_of_uint32 rp)
            (double_of_uint32 (wrap32 (numSatellites t * (numSatellites t - 1))))).
Proof.
  intros Hlo Hhi Hrp. unfold ComputeMeshConnectivity.
  replace (wrap32 (numSatellites t + UINT32_MAX)) with (numSatellites t - 1).
  2:{ rewrite <- (wrap32_small (numSatellites t)) at 2 by exact Hhi.
      rewrite wrap32_pred by lia. rewrite wrap32_small by lia. reflexivity. }
  rewrite (proj2 (N.eqb_neq _ 0) (total_pairs_nonzero _ Hlo Hhi)).
  rewrite Hrp. reflexivity.
Qed.

(** X9: ComputeMeshConnectivity never divides by zero: it returns 0.0 for
    fewer than two satellites, and for two or more the number of ordered pairs,
    n * (n - 1) modulo 2^32, is not zero.  On a topology whose neighbor ids are
    node ids the ratio has equal numerator and denominator when every node
    reaches every node, and numerator zero when no node reaches another one. *)
Theorem mesh_connectivity_cases (t : IslTopology) :
  numSatellites t < 4294967296 →
  (numSatellites t ≤ 1 → ComputeMeshConnectivity t = Done 0%float)
  ∧ (2 ≤ numSatellites t → neighbors_in_range t →
     let total := wrap32 (numSatellites t * (numSatellites t - 1)) in
     total ≠ 0
     ∧ ((∀ s d, s < numSatellites t → d < numSatellites t → reachable t s d) →
        ComputeMeshConnectivity t
        = Done (PrimFloat.div (double_of_uint32 total) (double_of_uint32 total)))
     ∧ ((∀ s d, s < numSatellites t → d ≠ s → ¬ reachable t s d) →
        ComputeMeshConnectivity t
        = Done (PrimFloat.div (double_of_uint32 0) (double_of_uint32 total)))).
Proof.
  intros Hhi. split.
  { intros Hsmall. unfold ComputeMeshConnectivity.
    assert (numSatellites t = 0 ∨ numSatellites t = 1) as [-> | ->] by lia; reflexivity. }
  intros Hlo Hrange total.
  split; [apply total_pairs_nonzero; assumption|].
  split.
  - intros Hall. apply ComputeMeshConnectivity_unfold; try assumption.
    rewrite (mesh_reachable_pairs_uniform t (numSatellites t)); try lia.
    + rewrite N_range_length, N2Nat.id, N.add_0_l. reflexivity.
    + intros s Hs. apply N_range_elem in Hs.
      destruct (BFS_spec t s Hrange Hs) as (reached & Hbfs & Hlen & Hmark).
      exists reached. split; [exact Hbfs|].
      rewrite count_true_all; [lia|].
      intros i Hi.
      assert (Hv : vec_at reached (N.of_nat i) = Some true).
      { apply Hmark, Hall; lia. }
      unfold vec_at in Hv. rewrite Nat2N.id in Hv. exact Hv.
  - intros Hnone. apply ComputeMeshConnectivity_unfold; try assumption.
    rewrite (mesh_reachable_pairs_uniform t 1); try lia.
    + rewrite N.mul_0_r. reflexivity.
    + intros s Hs. apply N_range_elem in Hs.
      destruct (BFS_spec t s Hrange Hs) as (reached & Hbfs & Hlen & Hmark).
      exists reached. split; [exact Hbfs|].
      apply (count_true_one reached s); [lia|].
      intros x. rewrite Hmark. split.
      * intros Hr. destruct (N.eq_dec x s) as [|Hne]; [assumption|].
        destruct (Hnone s x Hs Hne Hr).
      * intros ->. exists 0%nat. apply path_nil.
Qed.

Lemma no_neighbors_no_path (t : IslTopology) (s d : N) (k : nat) :
  neighbors t = ∅ → path t s d k → d = s.
Proof.
  intros Hempty Hp. destruct Hp as [| v w k Hp (l & Hl & _)]; [reflexivity|].
  rewrite Hempty, lookup_empty in Hl. discriminate.
Qed.

(** A line of two nodes is fully connected and has ratio 1.0; the bare
    topology returned for the request (10, 4) has ratio 0.0. *)
Lemma mesh_connectivity_line_and_bare :
  ComputeMeshConnectivity (line_topology 2) = Done 1%float
  ∧ ComputeMeshConnectivity (GenerateWalkerDeltaTopology 10 4) = Done 0%float.
Proof.
  split.
  - destruct (mesh_connectivity_cases (line_topology 2) ltac:(reflexivity)) as [_ Hbig].
    destruct Hbig as (_ & Hall & _).
    + discriminate.
    + apply neighbors_in_rangeb_sound. vm_compute. reflexivity.
    + rewrite Hall; [vm_compute; reflexivity|].
      intros s d Hs Hd.
      assert (s = 0 ∨ s = 1) as [-> | ->] by (simpl in Hs; lia);
        assert (d = 0 ∨ d = 1) as [-> | ->] by (simpl in Hd; lia).
      * exists 0%nat. apply path_nil.
      * exists 1%nat. apply (is_pathb_sound (line_topology 2) [1] 0). vm_compute. reflexivity.
      * exists 1%nat. apply (is_pathb_sound (line_topology 2) [0] 1). vm_compute. reflexivity.
      * exists 0%nat. apply path_nil.
  - destruct (mesh_connectivity_cases (GenerateWalkerDeltaTopology 10 4) ltac:(reflexivity))
      as [_ Hbig].
    destruct Hbig as (_ & _ & Hnone).
    + discriminate.
    + apply generated_in_range.
    + rewrite Hnone; [vm_compute; reflexivity|].
      intros s d _ Hne [k Hk]. apply Hne.
      eapply no_neighbors_no_path; [|exact Hk]. reflexivity.
Defined.

(** ** CreateIslMesh *)

(** The links created for one satellite: the listed neighbors above it that
    have no link yet. *)
Lemma mesh_links_spec (nNodes sat : N) (nbrs : list N) :
  ∀ createdLinks links,
    (∀ p, p ∈ createdLinks ↔ p ∈ links) → NoDup links →
    (∀ v, v ∈ nbrs → v < nNodes) →
    ∃ createdLinks' fresh,
      mesh_links nNodes sat nbrs createdLinks (link_devices links)
      = Done (createdLinks', link_devices (links ++ fresh))
      ∧ (∀ p, p ∈ createdLinks' ↔ p ∈ links ++ fresh)
      ∧ NoDup (links ++ fresh)
      ∧ (∀ p, p ∈ fresh → p.1 = sat ∧ sat < p.2 ∧ p.2 ∈ nbrs)
      ∧ (∀ b, b ∈ nbrs → sat < b → (sat, b) ∈ links ++ fresh).
Proof.
  induction nbrs as [|v nbrs IH]; intros created links Hset Hnodup Hnbrs; simpl.
  - exists created, []. rewrite app_nil_r.
    split; [reflexivity|]. split; [exact Hset|]. split; [exact Hnodup|].
    split; intros x Hx; by apply elem_of_nil in Hx.
  - assert (Hv : v < nNodes) by (apply Hnbrs; left).
    assert (Hrest : ∀ w, w ∈ nbrs → w < nNodes) by (intros w Hw; apply Hnbrs; by right).
    destruct (v <=? sat) eqn:Hle.
    { apply N.leb_le in Hle.
      destruct (IH created links Hset Hnodup Hrest)
        as (created' & fresh & Hrun & Hset' & Hnodup' & Hfresh & Hall).
      exists created', fresh. split; [exact Hrun|]. split; [exact Hset'|].
      split; [exact Hnodup'|]. split.
      - intros p Hp. destruct (Hfresh p Hp) as (H1 & H2 & H3). auto using list_elem_of_further.
      - intros b Hb Hlt. apply elem_of_cons in Hb as [-> | Hb]; [lia | by apply Hall]. }
    apply N.leb_gt in Hle.
    destruct (decide ((sat, v) ∈ created)) as [Hin | Hnin].
    { destruct (IH created links Hset Hnodup Hrest)
        as (created' & fresh & Hrun & Hset' & Hnodup' & Hfresh & Hall).
      exists created', fresh. split; [exact Hrun|]. split; [exact Hset'|].
      split; [exact Hnodup'|]. split.
      - intros p Hp. destruct (Hfresh p Hp) as (H1 & H2 & H3). auto using list_elem_of_further.
      - intros b Hb Hlt. apply elem_of_cons in Hb as [-> | Hb]; [|by apply Hall].
        apply elem_of_app. left. apply Hset. exact Hin. }
    rewrite (proj2 (N.ltb_lt v nNodes) Hv). cbn [negb].
    replace (link_devices links ++ [sat; v]) with (link_devices (links ++ [(sat, v)])).
    2:{ unfold link_devices. rewrite flat_map_app. simpl. reflexivity. }
    destruct (IH ({[(sat, v)]} ∪ created) (links ++ [(sat, v)]))
      as (created' & fresh & Hrun & Hset' & Hnodup' & Hfresh & Hall).
    { intros p. rewrite elem_of_union, elem_of_singleton, elem_of_app,
        list_elem_of_singleton, Hset. tauto. }
    { apply NoDup_app. split; [exact Hnodup|]. split; [|apply NoDup_singleton].
      intros p Hp Hp'. apply list_elem_of_singleton in Hp'. subst p.
      apply Hnin, Hset, Hp. }
    { exact Hrest. }
    rewrite <- app_assoc in Hrun, Hset', Hnodup', Hall.
    exists created', ((sat, v) :: fresh).
    split; [exact Hrun|]. split; [exact Hset'|]. split; [exact Hnodup'|]. split.
    + intros p Hp. apply elem_of_cons in Hp as [-> | Hp].
      * simpl. split; [reflexivity|]. split; [exact Hle | left].
      * destruct (Hfresh p Hp) as (H1 & H2 & H3). auto using list_elem_of_further.
    + intros b Hb Hlt. apply elem_of_cons in Hb as [-> | Hb]; [|by apply Hall].
      apply elem_of_app. right. left.
Qed.

Lemma mesh_loop_spec (t : IslTopology) (nNodes : N) (sats : list N) :
  (∀ u l v, neighbors t !! u = Some l → v ∈ l → v < nNodes) →
  (∀ s, s ∈ sats → is_Some (neighbors t !! s)) →
  ∀ createdLinks links,
    (∀ p, p ∈ createdLinks ↔ p ∈ links) → NoDup links →
    ∃ fresh,
      mesh_loop nNodes t sats createdLinks (link_devices links)
      = Done (link_devices (links ++ fresh))
      ∧ NoDup (links ++ fresh)
      ∧ (∀ p, p ∈ fresh → p.1 ∈ sats ∧ p.1 < p.2 ∧ is_neighbor t p.1 p.2)
      ∧ (∀ a b, a ∈ sats → a < b → is_neighbor t a b → (a, b) ∈ links ++ fresh).
Proof.
  intros Hrange. induction sats as [|sat sats IH]; intros Hsats created links Hset Hnodup.
  - exists []. rewrite app_nil_r. split; [reflexivity|]. split; [exact Hnodup|].
    split; [intros p Hp; by apply elem_of_nil in Hp|].
    intros a b Ha. by apply elem_of_nil in Ha.
  - destruct (Hsats sat ltac:(left)) as [nbrs Hnb].
    cbn [mesh_loop]. rewrite Hnb.
    destruct (mesh_links_spec nNodes sat nbrs created links Hset Hnodup)
      as (created1 & fresh1 & Hrun1 & Hset1 & Hnodup1 & Hfresh1 & Hall1).
    { intros v Hv. eapply Hrange; eassumption. }
    rewrite Hrun1. cbn [mbind outcome_bind obind].
    destruct (IH ltac:(intros s Hs; apply Hsats; by right) created1 (links ++ fresh1)
                Hset1 Hnodup1)
      as (fresh2 & Hrun2 & Hnodup2 & Hfresh2 & Hall2).
    rewrite <- app_assoc in Hrun2, Hnodup2, Hall2.
    exists (fresh1 ++ fresh2).
    split; [exact Hrun2|]. split; [exact Hnodup2|]. split.
    + intros p Hp. apply elem_of_app in Hp as [Hp | Hp].
      * destruct (Hfresh1 p Hp) as (H1 & H2 & H3).
        split; [rewrite H1; left|]. split; [lia|].
        exists nbrs. rewrite H1. auto.
      * destruct (Hfresh2 p Hp) as (H1 & H2 & H3).
        split; [by right | auto].
    + intros a b Ha Hab Hedge. apply elem_of_cons in Ha as [-> | Ha].
      * destruct Hedge as (l & Hl & Hin). rewrite Hnb in Hl. injection Hl as <-.
        specialize (Hall1 b Hin Hab).
        rewrite app_assoc. apply elem_of_app. left. exact Hall1.
      * by apply Hall2.
Qed.

Lemma CreateIslMesh_spec (t : IslTopology) :
  neighbors_in_range t →
  (∀ s, s < numSatellites t → is_Some (neighbors t !! s)) →
  ∃ links,
    CreateIslMesh (numSatellites t) t = Done (link_devices links)
    ∧ NoDup links
    ∧ ∀ a b, (a, b) ∈ links ↔ a < numSatellites t ∧ a < b ∧ is_neighbor t a b.
Proof.
  intros Hrange Hentries. unfold CreateIslMesh. rewrite N.eqb_refl. cbn [negb].
  destruct (mesh_loop_spec t (numSatellites t) (N_range (numSatellites t)) Hrange)
    with (createdLinks := (∅ : gset (N * N))) (links := @nil (N * N))
    as (links & Hrun & Hnodup & Hfresh & Hall).
  { intros s Hs. apply Hentries. by apply N_range_elem. }
  { intros p. split; intros H; [by apply not_elem_of_empty in H | by apply elem_of_nil in H]. }
  { apply NoDup_nil_2. }
  simpl in Hrun, Hnodup, Hall.
  exists links. split; [exact Hrun|]. split; [exact Hnodup|].
  intros a b. split.
  - intros Hin. destruct (Hfresh _ Hin) as (H1 & H2 & H3). simpl in *.
    apply N_range_elem in H1. auto.
  - intros (Ha & Hab & Hedge). apply Hall; [by apply N_range_elem | exact Hab | exact Hedge].
Qed.

Lemma link_devices_length (links : list (N * N)) :
  length (link_devices links) = (2 * length links)%nat.
Proof.
  unfold link_devices. induction links as [|p links IH]; [reflexivity|].
  simpl. rewrite IH. lia.
Qed.

(** X10: for a topology whose neighbor ids are node ids and in which every
    satellite has a neighbor list, CreateIslMesh creates exactly one link, of
    two devices, for every pair a < b with b listed among the neighbors of a,
    however often b is listed and whether or not a is listed by b. *)
Theorem create_mesh_one_link_per_edge (t : IslTopology) :
  neighbors_in_range t →
  (∀ s, s < numSatellites t → is_Some (neighbors t !! s)) →
  ∃ links,
    CreateIslMesh (numSatellites t) t = Done (link_devices links)
    ∧ length (link_devices links) = (2 * length links)%nat
    ∧ NoDup links
    ∧ ∀ a b, (a, b) ∈ links ↔ a < numSatellites t ∧ a < b ∧ is_neighbor t a b.
Proof.
  intros Hrange Hentries.
  destruct (CreateIslMesh_spec t Hrange Hentries) as (links & Hrun & Hnodup & Hiff).
  exists links. split; [exact Hrun|]. split; [apply link_devices_length|]. auto.
Qed.

(** A triangle in which node 0 lists node 1 twice and node 2 lists nobody:
    three links, six devices. *)
Lemma create_mesh_triangle :
  ∃ links,
    CreateIslMesh 3 triangle_topology = Done (link_devices links)
    ∧ link_devices links = [0; 1; 0; 2; 1; 2]
    ∧ NoDup links.
Proof.
  destruct (create_mesh_one_link_per_edge triangle_topology)
    as (links & Hrun & _ & Hnodup & _).
  - apply neighbors_in_rangeb_sound. vm_compute. reflexivity.
  - intros s Hs. simpl in Hs.
    assert (s = 0 ∨ s = 1 ∨ s = 2) as [-> | [-> | ->]] by lia; vm_compute; eauto.
  - exists links. split; [exact Hrun|]. split; [|exact Hnodup].
    assert (Hrun' : CreateIslMesh 3 triangle_topology = Done [0; 1; 0; 2; 1; 2])
      by (vm_compute; reflexivity).
    change (numSatellites triangle_topology) with 3 in Hrun.
    rewrite Hrun' in Hrun. injection Hrun as <-. reflexivity.
Defined.

Lemma mesh_loop_missing (t : IslTopology) (nNodes : N) (sats : list N) (s : N) :
  (∀ u l v, neighbors t !! u = Some l → v ∈ l → v < nNodes) →
  s ∈ sats → neighbors t !! s = None →
  ∀ createdLinks links,
    (∀ p, p ∈ createdLinks ↔ p ∈ links) → NoDup links →
    mesh_loop nNodes t sats createdLinks (link_devices links) = Aborted.
Proof.
  intros Hrange. induction sats as [|sat sats IH]; intros Hs Hnone created links Hset Hnodup.
  - by apply elem_of_nil in Hs.
  - cbn [mesh_loop]. destruct (neighbors t !! sat) as [nbrs|] eqn:Hnb; [|reflexivity].
    destruct (mesh_links_spec nNodes sat nbrs created links Hset Hnodup)
      as (created1 & fresh1 & Hrun1 & Hset1 & Hnodup1 & _).
    { intros v Hv. eapply Hrange; eassumption. }
    rewrite Hrun1. cbn [mbind outcome_bind obind].
    apply IH; try assumption.
    apply elem_of_cons in Hs as [-> | Hs]; [congruence | exact Hs].
Qed.

(** X11: CreateIslMesh aborts when the number of nodes differs from the
    satellite count of the topology, and when a satellite has no neighbor list;
    in particular it aborts on the bare topology that
    GenerateWalkerDeltaTopology returns for an unsupported request with at
    least one satellite, and creates nothing for zero satellites. *)
Theorem create_mesh_aborts :
  (∀ nNodes t, nNodes ≠ numSatellites t → CreateIslMesh nNodes t = Aborted)
  ∧ (∀ t s, neighbors_in_range t → s < numSatellites t → neighbors t !! s = None →
            CreateIslMesh (numSatellites t) t = Aborted)
  ∧ (∀ n k, ¬ (n = 24 ∧ k = 4) →
            CreateIslMesh n (GenerateWalkerDeltaTopology n k)
            = if n =? 0 then Done [] else Aborted).
Proof.
  assert (Hmissing : ∀ t s, neighbors_in_range t → s < numSatellites t →
            neighbors t !! s = None → CreateIslMesh (numSatellites t) t = Aborted).
  { intros t s Hrange Hs Hnone. unfold CreateIslMesh. rewrite N.eqb_refl. cbn [negb].
    apply (mesh_loop_missing t (numSatellites t) (N_range (numSatellites t)) s Hrange
             ltac:(by apply N_range_elem) Hnone ∅ []).
    - intros p. split; intros H; [by apply not_elem_of_empty in H | by apply elem_of_nil in H].
    - apply NoDup_nil_2. }
  split.
  { intros nNodes t Hne. unfold CreateIslMesh.
    rewrite (proj2 (N.eqb_neq nNodes (numSatellites t)) Hne). reflexivity. }
  split; [exact Hmissing|].
  intros n k Hne.
  destruct (generate_cases n k) as [[_ Heq] | (Hn & Hk & _)]; [|tauto].
  rewrite Heq. destruct (n =? 0) eqn:Hzero.
  - apply N.eqb_eq in Hzero. subst n. reflexivity.
  - apply N.eqb_neq in Hzero.
    apply (Hmissing {| numSatellites := n; numLinks := 0; neighbors := ∅ |} 0).
    + intros u l v Hl. simpl in Hl. by rewrite lookup_empty in Hl.
    + simpl. lia.
    + apply lookup_empty.
Qed.

(** Ten satellites requested: the generator returns the bare topology and
    the mesh creation aborts on it. *)
Lemma create_mesh_aborts_10_4 :
  CreateIslMesh 10 (GenerateWalkerDeltaTopology 10 4) = Aborted
  ∧ CreateIslMesh 23 walker24 = Aborted.
Proof.
  split.
  - apply (proj2 (proj2 create_mesh_aborts) 10 4). intros [H _]. discriminate H.
  - apply (proj1 create_mesh_aborts 23 walker24). discriminate.
Defined.

(** ** Dijkstra over the distance array (isl-topology-generator.cc) *)

(** The selection loop returns the first unvisited node of least distance
    below the initial bound, or leaves the initial pair. *)
Lemma dijkstra_select_spec (dist : list N) (visited : list bool) (vs : list N) :
  ∀ u m,
    length dist = length visited →
    (∀ v, v ∈ vs → (N.to_nat v < length visited)%nat) →
    ∃ u' m',
      dijkstra_select vs dist visited u m = Done (u', m')
      ∧ m' ≤ m
      ∧ (∀ v dv, v ∈ vs → vec_at visited v = Some false →
                 vec_at dist v = Some dv → m' ≤ dv)
      ∧ ((u' = u ∧ m' = m)
         ∨ (u' ∈ vs ∧ vec_at visited u' = Some false
            ∧ vec_at dist u' = Some m' ∧ m' < m)).
Proof.
  induction vs as [|v vs IH]; intros u m Hlen Hvs; simpl.
  - exists u, m. split; [reflexivity|]. split; [lia|].
    split; [|left; auto]. intros v dv Hv. by apply elem_of_nil in Hv.
  - assert (Hv : (N.to_nat v < length visited)%nat) by (apply Hvs; left).
    assert (Hrest : ∀ w, w ∈ vs → (N.to_nat w < length visited)%nat).
    { intros w Hw. apply Hvs. by right. }
    destruct (vec_at_is_Some visited v Hv) as [vis Hvis].
    destruct (vec_at_is_Some dist v ltac:(lia)) as [dv Hdv].
    rewrite (vec_get_at _ _ _ Hvis). cbn [mbind outcome_bind obind].
    assert (Hkeep : (dv <? m) = false ∨ vis = true →
      ∃ u' m',
        dijkstra_select vs dist visited u m = Done (u', m')
        ∧ m' ≤ m
        ∧ (∀ x dx, x ∈ v :: vs → vec_at visited x = Some false →
                   vec_at dist x = Some dx → m' ≤ dx)
        ∧ ((u' = u ∧ m' = m)
           ∨ (u' ∈ v :: vs ∧ vec_at visited u' = Some false
              ∧ vec_at dist u' = Some m' ∧ m' < m))).
    { intros Hcase.
      destruct (IH u m Hlen Hrest) as (u' & m' & Hrun & Hle & Hmin & Hsel).
      exists u', m'. split; [exact Hrun|]. split; [exact Hle|]. split.
      - intros x dx Hx Hxv Hxd. apply elem_of_cons in Hx as [-> | Hx].
        + destruct Hcase as [Hcase | ->]; [|congruence].
          apply N.ltb_ge in Hcase. rewrite Hdv in Hxd. injection Hxd as <-. lia.
        + eapply Hmin; eassumption.
      - destruct Hsel as [Hsel | (Hin & Hsel)]; [left; exact Hsel|].
        right. split; [by right | exact Hsel]. }
    destruct vis; cbn [negb]; [apply Hkeep; by right|].
    rewrite (vec_get_at _ _ _ Hdv). cbn [mbind outcome_bind obind].
    destruct (dv <? m) eqn:Hlt; [|apply Hkeep; by left].
    apply N.ltb_lt in Hlt.
    destruct (IH v dv Hlen Hrest) as (u' & m' & Hrun & Hle & Hmin & Hsel).
    exists u', m'. split; [exact Hrun|]. split; [lia|]. split.
    + intros x dx Hx Hxv Hxd. apply elem_of_cons in Hx as [-> | Hx].
      * rewrite Hdv in Hxd. injection Hxd as <-. exact Hle.
      * eapply Hmin; eassumption.
    + right. destruct Hsel as [[-> ->] | (Hin & Hu' & Hd' & Hlt')].
      * split; [by left|]. auto.
      * split; [by right|]. split; [exact Hu'|]. split; [exact Hd' | lia].
Qed.

Section ArraySearch.

Variable t : IslTopology.
Variable src : N.

Hypothesis Huint32 : numSatellites t < 4294967296.
Hypothesis Hrange : neighbors_in_range t.
Hypothesis Hsrc : src < numSatellites t.

Lemma scan_inv_weaken (relaxed relaxed' : N → N → Prop) (dist : list N)
    (visited : list bool) :
  (∀ a b, relaxed' a b → relaxed a b) →
  scan_inv t src relaxed dist visited → scan_inv t src relaxed' dist visited.
Proof.
  intros Hsub [H1 H2 H3 H4 H5 H6 H7].
  constructor; try assumption.
  intros u v du Hu Hr Hdu. eapply H6; eauto.
Qed.

Lemma scan_count_le (relaxed : N → N → Prop) (dist : list N) (visited : list bool) :
  scan_inv t src relaxed dist visited → count_true visited ≤ numSatellites t.
Proof.
  intros Hinv. pose proof (count_true_le visited) as Hc.
  rewrite (scan_len_visited _ _ _ _ _ Hinv) in Hc. lia.
Qed.

(** Every path from [src] ends in a visited node whose distance it does not
    beat, or is at least as long as the finite distance of an unvisited node. *)
Lemma scan_inv_frontier (dist : list N) (visited : list bool) :
  scan_inv t src (is_neighbor t) dist visited →
  ∀ v k, path t src v k →
    (∃ dv, vec_at visited v = Some true ∧ vec_at dist v = Some dv ∧ dv ≤ N.of_nat k)
    ∨ (∃ w dw, vec_at visited w = Some false ∧ vec_at dist w = Some dw
               ∧ dw ≤ N.of_nat k ∧ dw < UINT32_MAX).
Proof.
  intros Hinv v k Hp.
  induction Hp as [| v w k Hp IH Hvw].
  - destruct (vec_at_is_Some visited src) as [[|] Hb].
    { rewrite (scan_len_visited _ _ _ _ _ Hinv). lia. }
    + left. exists 0. split; [exact Hb|]. split; [apply (scan_src _ _ _ _ _ Hinv) | lia].
    + right. exists src, 0. split; [exact Hb|]. split; [apply (scan_src _ _ _ _ _ Hinv)|].
      split; [lia | reflexivity].
  - destruct IH as [(dv & Hv & Hdv & Hle) | (x & dx & Hx & Hdx & Hle & Hfin)].
    + destruct (scan_relaxed _ _ _ _ _ Hinv v w dv Hv Hvw Hdv) as (dw & Hdw & Hdwle).
      assert (Hw : w < numSatellites t).
      { destruct Hvw as (l & Hl & Hin). eapply Hrange; eassumption. }
      destruct (vec_at_is_Some visited w) as [[|] Hb].
      { rewrite (scan_len_visited _ _ _ _ _ Hinv). lia. }
      * left. exists dw. split; [exact Hb|]. split; [exact Hdw | lia].
      * right. exists w, dw. split; [exact Hb|]. split; [exact Hdw|]. split; [lia|].
        destruct (scan_settled _ _ _ _ _ Hinv v Hv) as (dv' & Hdv' & Hlt & _).
        rewrite Hdv in Hdv'. injection Hdv' as <-.
        pose proof (count_true_false _ _ Hb) as Hc.
        rewrite (scan_len_visited _ _ _ _ _ Hinv) in Hc.
        unfold UINT32_MAX. lia.
    + right. exists x, dx. split; [exact Hx|]. split; [exact Hdx|]. split; [lia | exact Hfin].
Qed.

Lemma scan_initial :
  scan_inv t src (is_neighbor t)
    (<[N.to_nat src := 0]> (replicate (N.to_nat (numSatellites t)) UINT32_MAX))
    (replicate (N.to_nat (numSatellites t)) false).
Proof.
  assert (Hlen : (N.to_nat src < length (replicate (N.to_nat (numSatellites t)) UINT32_MAX))%nat).
  { rewrite length_replicate. lia. }
  assert (Hnone : ∀ v, vec_at (replicate (N.to_nat (numSatellites t)) false) v ≠ Some true).
  { intros v Hv. apply vec_at_replicate in Hv. discriminate. }
  constructor.
  - rewrite length_insert, length_replicate. reflexivity.
  - apply length_replicate.
  - rewrite vec_at_insert by exact Hlen. by rewrite decide_True.
  - intros v dv Hv Hfin. rewrite vec_at_insert in Hv by exact Hlen.
    destruct (decide (src = v)) as [<- | Hne].
    + injection Hv as <-. split; [apply path_nil | lia].
    + apply vec_at_replicate in Hv. contradiction.
  - intros v Hv. destruct (Hnone v Hv).
  - intros u v du Hu. destruct (Hnone u Hu).
  - intros v Hv. destruct (Hnone v Hv).
Qed.

(** Marking the selected node. *)
Lemma scan_mark (dist : list N) (visited : list bool) (u du : N) :
  scan_inv t src (is_neighbor t) dist visited →
  vec_at visited u = Some false → vec_at dist u = Some du → du < UINT32_MAX →
  (∀ v dv, vec_at visited v = Some false → vec_at dist v = Some dv → du ≤ dv) →
  scan_inv t src (relaxed_but t u (neighbor_list t u)) dist (<[N.to_nat u := true]> visited).
Proof.
  intros Hinv Hu Hdu Hfin Hmin.
  pose proof (vec_at_lt _ _ _ Hu) as Hulen.
  pose proof (count_true_insert _ _ Hu) as Hcount.
  destruct (scan_real _ _ _ _ _ Hinv u du Hdu ltac:(lia)) as [Hpath Hdule].
  constructor.
  - apply (scan_len_dist _ _ _ _ _ Hinv).
  - rewrite length_insert. apply (scan_len_visited _ _ _ _ _ Hinv).
  - apply (scan_src _ _ _ _ _ Hinv).
  - intros v dv Hv Hvfin.
    destruct (scan_real _ _ _ _ _ Hinv v dv Hv Hvfin) as [Hp Hle]. split; [exact Hp | lia].
  - intros v Hv. rewrite vec_at_insert in Hv by exact Hulen.
    destruct (decide (u = v)) as [<- | Hne].
    + exists du. split; [exact Hdu|]. split; [lia|].
      intros k Hp.
      destruct (scan_inv_frontier dist visited Hinv u k Hp)
        as [(dv & Hv' & _) | (w & dw & Hw & Hdw & Hle & _)]; [congruence|].
      specialize (Hmin w dw Hw Hdw). lia.
    + destruct (scan_settled _ _ _ _ _ Hinv v Hv) as (dv & Hdv & Hlt & Hbest).
      exists dv. split; [exact Hdv|]. split; [lia | exact Hbest].
  - intros a b da Ha [Hedge Hrest] Hda. rewrite vec_at_insert in Ha by exact Hulen.
    destruct (decide (u = a)) as [<- | Hne].
    + exfalso. apply Hrest; [reflexivity|].
      destruct Hedge as (l & Hl & Hin). unfold neighbor_list. rewrite Hl. exact Hin.
    + eapply (scan_relaxed _ _ _ _ _ Hinv); eassumption.
  - intros v Hv. rewrite vec_at_insert in Hv |- * by exact Hulen.
    destruct (decide (u = src)) as [_ | Hsu]; [reflexivity|].
    destruct (decide (u = v)) as [<- | Hne].
    + destruct (vec_at_is_Some visited src) as [[|] Hb].
      { rewrite (scan_len_visited _ _ _ _ _ Hinv). lia. }
      * exact Hb.
      * specialize (Hmin src 0 Hb (scan_src _ _ _ _ _ Hinv)).
        assert (du = 0) as -> by lia.
        apply path_zero in Hpath. congruence.
    + apply (scan_src_first _ _ _ _ _ Hinv v Hv).
Qed.

(** The update loop over the neighbors of the node just marked. *)
Lemma dijkstra_update_inv (visited : list bool) (u : N) (rest : list N) :
  ∀ dist,
    scan_inv t src (relaxed_but t u rest) dist visited →
    vec_at visited u = Some true →
    (∀ w, w ∈ rest → is_neighbor t u w) →
    ∃ dist',
      dijkstra_update (numSatellites t) u rest dist visited = Done dist'
      ∧ scan_inv t src (is_neighbor t) dist' visited.
Proof.
  induction rest as [|w rest IH]; intros dist Hinv Hu Hedges.
  - exists dist. split; [reflexivity|].
    eapply scan_inv_weaken; [|exact Hinv].
    intros a b Hab. split; [exact Hab|]. intros _ Hin. by apply elem_of_nil in Hin.
  - assert (Huw : is_neighbor t u w) by (apply Hedges; left).
    assert (Hrest : ∀ x, x ∈ rest → is_neighbor t u x).
    { intros x Hx. apply Hedges. by right. }
    assert (Hw : w < numSatellites t).
    { destruct Huw as (l & Hl & Hin). eapply Hrange; eassumption. }
    destruct (scan_settled _ _ _ _ _ Hinv u Hu) as (du & Hdu & Hdult & Hdubest).
    pose proof (scan_count_le _ _ _ Hinv) as Hcount.
    destruct (scan_real _ _ _ _ _ Hinv u du Hdu ltac:(unfold UINT32_MAX; lia))
      as [Hpu _].
    assert (Hpw : path t src w (S (N.to_nat du))).
    { eapply path_snoc; eassumption. }
    destruct (vec_at_is_Some visited w) as [vis Hvis].
    { rewrite (scan_len_visited _ _ _ _ _ Hinv). lia. }
    destruct (vec_at_is_Some dist w) as [dw Hdw].
    { rewrite (scan_len_dist _ _ _ _ _ Hinv). lia. }
    (* the invariant once the edge to [w] is known to be relaxed *)
    assert (Hskip : dw ≤ du + 1 → scan_inv t src (relaxed_but t u rest) dist visited).
    { intros Hle. destruct Hinv as [H1 H2 H3 H4 H5 H6 H7].
      constructor; try assumption.
      intros a b da Ha [Hab Hnot] Hda.
      destruct (decide (a = u ∧ b = w)) as [[-> ->] | Hother].
      - rewrite Hdu in Hda. injection Hda as <-. eauto.
      - apply (H6 a b da Ha); [|exact Hda]. split; [exact Hab|].
        intros -> Hin. apply elem_of_cons in Hin as [-> | Hin]; [tauto|].
        by apply Hnot. }
    cbn [dijkstra_update]. rewrite (proj2 (N.ltb_lt w (numSatellites t)) Hw).
    rewrite (vec_get_at _ _ _ Hvis). cbn [mbind outcome_bind obind].
    destruct vis; cbn [negb].
    + apply IH; [|exact Hu | exact Hrest]. apply Hskip.
      destruct (scan_settled _ _ _ _ _ Hinv w Hvis) as (dw' & Hdw' & _ & Hbest).
      rewrite Hdw in Hdw'. injection Hdw' as <-.
      specialize (Hbest _ Hpw). lia.
    + rewrite (vec_get_at _ _ _ Hdu). cbn [mbind outcome_bind obind].
      rewrite (vec_get_at _ _ _ Hdw). cbn [mbind outcome_bind obind].
      rewrite (wrap32_small (du + 1)) by lia.
      destruct (du + 1 <? dw) eqn:Hlt.
      * apply N.ltb_lt in Hlt.
        pose proof (vec_at_lt _ _ _ Hdw) as Hwlen.
        rewrite vec_set_lt by exact Hwlen. cbn [mbind outcome_bind obind].
        apply IH; [|exact Hu | exact Hrest].
        assert (Hsrcv : vec_at visited src = Some true).
        { apply (scan_src_first _ _ _ _ _ Hinv u Hu). }
        destruct Hinv as [H1 H2 H3 H4 H5 H6 H7].
        constructor; try assumption.
        -- rewrite length_insert. exact H1.
        -- rewrite vec_at_insert by exact Hwlen.
           destruct (decide (w = src)) as [-> | _]; [congruence | exact H3].
        -- intros v dv Hv Hvfin. rewrite vec_at_insert in Hv by exact Hwlen.
           destruct (decide (w = v)) as [<- | Hne]; [|by apply H4].
           injection Hv as <-.
           replace (N.to_nat (du + 1)) with (S (N.to_nat du)) by lia.
           split; [exact Hpw | lia].
        -- intros v Hv. rewrite vec_at_insert by exact Hwlen.
           destruct (decide (w = v)) as [<- | Hne]; [congruence | by apply H5].
        -- intros a b da Ha [Hab Hnot] Hda.
           rewrite vec_at_insert in Hda by exact Hwlen.
           destruct (decide (w = a)) as [<- | Hwa]; [congruence|].
           rewrite vec_at_insert by exact Hwlen.
           destruct (decide (w = b)) as [<- | Hwb].
           ++ exists (du + 1). split; [reflexivity|].
              destruct (decide (a = u)) as [-> | Hau].
              ** rewrite Hdu in Hda. injection Hda as <-. lia.
              ** destruct (H6 a w da Ha) as (dw' & Hdw' & Hle); [|exact Hda|].
                 { split; [exact Hab|]. intros ->. contradiction. }
                 rewrite Hdw in Hdw'. injection Hdw' as <-. lia.
           ++ apply (H6 a b da Ha); [|exact Hda]. split; [exact Hab|].
              intros -> Hin. apply elem_of_cons in Hin as [-> | Hin]; [congruence|].
              by apply Hnot.
      * apply N.ltb_ge in Hlt. apply IH; [|exact Hu | exact Hrest].
        apply Hskip. exact Hlt.
Qed.

Lemma dijkstra_rounds_inv (rounds : nat) :
  ∀ dist visited,
    scan_inv t src (is_neighbor t) dist visited →
    count_true visited + N.of_nat rounds = numSatellites t →
    ∃ dist' visited',
      dijkstra_rounds rounds t dist visited = Done dist'
      ∧ scan_inv t src (is_neighbor t) dist' visited'
      ∧ ∀ v dv, vec_at visited' v = Some false → vec_at dist' v = Some dv →
                UINT32_MAX ≤ dv.
Proof.
  induction rounds as [|rounds IH]; intros dist visited Hinv Hcount.
  - exists dist, visited. split; [reflexivity|]. split; [exact Hinv|].
    intros v dv Hv _. pose proof (count_true_false _ _ Hv) as Hc.
    rewrite (scan_len_visited _ _ _ _ _ Hinv) in Hc. lia.
  - cbn [dijkstra_rounds].
    destruct (dijkstra_select_spec dist visited (N_range (numSatellites t))
                UINT32_MAX UINT32_MAX)
      as (u & m & Hrun & Hle & Hmin & Hsel).
    { rewrite (scan_len_dist _ _ _ _ _ Hinv), (scan_len_visited _ _ _ _ _ Hinv).
      reflexivity. }
    { intros v Hv. apply N_range_elem in Hv.
      rewrite (scan_len_visited _ _ _ _ _ Hinv). lia. }
    rewrite Hrun. cbn [mbind outcome_bind obind].
    assert (Hall : ∀ v dv, vec_at visited v = Some false → vec_at dist v = Some dv →
                           m ≤ dv).
    { intros v dv Hv Hdv. apply (Hmin v dv); [|exact Hv | exact Hdv].
      apply N_range_elem. apply vec_at_lt in Hv.
      rewrite (scan_len_visited _ _ _ _ _ Hinv) in Hv. lia. }
    destruct Hsel as [[-> ->] | (Hin & Hu & Hdu & Hlt)].
    + rewrite N.eqb_refl. exists dist, visited. auto.
    + apply N_range_elem in Hin.
      rewrite (proj2 (N.eqb_neq u UINT32_MAX)) by (unfold UINT32_MAX; lia).
      pose proof (vec_at_lt _ _ _ Hu) as Hulen.
      rewrite vec_set_lt by exact Hulen. cbn [mbind outcome_bind obind].
      pose proof (scan_mark dist visited u m Hinv Hu Hdu Hlt Hall) as Hmark.
      assert (Hu' : vec_at (<[N.to_nat u := true]> visited) u = Some true).
      { rewrite vec_at_insert by exact Hulen. by rewrite decide_True. }
      assert (Hcount' : count_true (<[N.to_nat u := true]> visited) + N.of_nat rounds
                        = numSatellites t).
      { rewrite (count_true_insert _ _ Hu). lia. }
      destruct (neighbors t !! u) as [nbrs|] eqn:Hnb.
      * destruct (dijkstra_update_inv (<[N.to_nat u := true]> visited) u nbrs dist)
          as (dist' & Hupd & Hinv'); [| exact Hu' | |].
        { unfold neighbor_list in Hmark. rewrite Hnb in Hmark. exact Hmark. }
        { intros w Hw. exists nbrs. auto. }
        rewrite Hupd. cbn [mbind outcome_bind obind].
        apply IH; assumption.
      * cbn [mbind outcome_bind obind]. apply IH; [|exact Hcount'].
        eapply scan_inv_weaken; [|exact Hmark].
        intros a b Hab. split; [exact Hab|]. intros -> _.
        destruct Hab as (l & Hl & _). congruence.
Qed.

(** The run of [Dijkstra] from a valid source: the array holds the hop
    distance of every reachable node and the sentinel for the others. *)
Lemma Dijkstra_spec :
  ∃ dist,
    Dijkstra t src = Done dist
    ∧ length dist = N.to_nat (numSatellites t)
    ∧ ∀ v, v < numSatellites t →
        ∃ dv, vec_at dist v = Some dv
              ∧ (dv ≠ UINT32_MAX → dv < numSatellites t ∧ shortest t src v (N.to_nat dv))
              ∧ (dv = UINT32_MAX → ¬ reachable t src v).
Proof.
  unfold Dijkstra.
  rewrite (proj2 (N.ltb_lt src (numSatellites t)) Hsrc). cbn [negb].
  rewrite vec_set_lt by (rewrite length_replicate; lia).
  cbn [mbind outcome_bind obind].
  destruct (dijkstra_rounds_inv (N.to_nat (numSatellites t)) _ _ scan_initial)
    as (dist & visited & Hrun & Hinv & Hdone).
  { assert (Hzero : ∀ k, count_true (replicate k false) = 0).
    { intros k. unfold count_true. induction k as [|k IHk]; [reflexivity|].
      simpl. rewrite filter_cons_False by discriminate. exact IHk. }
    rewrite Hzero. lia. }
  exists dist. split; [exact Hrun|].
  split; [apply (scan_len_dist _ _ _ _ _ Hinv)|].
  intros v Hv.
  destruct (vec_at_is_Some dist v) as [dv Hdv].
  { rewrite (scan_len_dist _ _ _ _ _ Hinv). lia. }
  destruct (vec_at_is_Some visited v) as [vis Hvis].
  { rewrite (scan_len_visited _ _ _ _ _ Hinv). lia. }
  pose proof (scan_count_le _ _ _ Hinv) as Hcount.
  exists dv. split; [exact Hdv|]. split.
  - intros Hfin.
    destruct (scan_real _ _ _ _ _ Hinv v dv Hdv Hfin) as [Hp Hle].
    destruct vis.
    + destruct (scan_settled _ _ _ _ _ Hinv v Hvis) as (dv' & Hdv' & Hlt & Hbest).
      rewrite Hdv in Hdv'. injection Hdv' as <-.
      split; [lia|]. split; [exact Hp|].
      intros k Hk. specialize (Hbest k Hk). lia.
    + specialize (Hdone v dv Hvis Hdv). unfold UINT32_MAX in *. lia.
  - intros -> [k Hk].
    destruct (scan_inv_frontier dist visited Hinv v k Hk)
      as [(dv & Hv' & Hdv' & _) | (w & dw & Hw & Hdw & _ & Hfin)].
    + destruct (scan_settled _ _ _ _ _ Hinv v Hv') as (dv' & Hdv'' & Hlt & _).
      rewrite Hdv in Hdv''. injection Hdv'' as <-.
      unfold UINT32_MAX in Hlt. lia.
    + specialize (Hdone w dw Hw Hdw). lia.
Qed.

End ArraySearch.

(** X12: Dijkstra returns an array with one entry per satellite.  For a source
    that is not a satellite every entry is the sentinel UINT32_MAX; for a valid
    source on a topology whose neighbor ids are all satellites, the entry of a
    node is its hop distance from the source when the node is reachable, and
    the sentinel when it is not. *)
Theorem Dijkstra_hop_distances (t : IslTopology) (src : N) :
  (numSatellites t ≤ src →
   Dijkstra t src = Done (replicate (N.to_nat (numSatellites t)) UINT32_MAX))
  ∧ (numSatellites t < 4294967296 → neighbors_in_range t → src < numSatellites t →
     ∃ dist,
       Dijkstra t src = Done dist
       ∧ length dist = N.to_nat (numSatellites t)
       ∧ ∀ v, v < numSatellites t →
           ∃ dv, vec_at dist v = Some dv
                 ∧ (∀ k, dv = N.of_nat k ∧ dv ≠ UINT32_MAX ↔ shortest t src v k)
                 ∧ (dv = UINT32_MAX ↔ ¬ reachable t src v)).
Proof.
  split.
  { intros Hsrc. unfold Dijkstra.
    rewrite (proj2 (N.ltb_ge src (numSatellites t)) Hsrc). reflexivity. }
  intros Huint32 Hrange Hsrc.
  destruct (Dijkstra_spec t src Huint32 Hrange Hsrc) as (dist & Hrun & Hlen & Hall).
  exists dist. split; [exact Hrun|]. split; [exact Hlen|].
  intros v Hv. destruct (Hall v Hv) as (dv & Hdv & Hfin & Hinf).
  exists dv. split; [exact Hdv|]. split.
  - intros k. split.
    + intros [-> Hne]. destruct (Hfin Hne) as [_ Hshort].
      rewrite Nat2N.id in Hshort. exact Hshort.
    + intros Hshort.
      destruct (N.eq_dec dv UINT32_MAX) as [Hmax | Hne].
      * exfalso. apply (Hinf Hmax). exists k. apply Hshort.
      * destruct (Hfin Hne) as [_ Hshort'].
        pose proof (shortest_unique _ _ _ _ _ Hshort Hshort'). split; [lia | exact Hne].
  - split; [exact Hinf|].
    intros Hunreach. destruct (N.eq_dec dv UINT32_MAX) as [Hmax | Hne]; [exact Hmax|].
    exfalso. apply Hunreach. destruct (Hfin Hne) as [_ [Hp _]]. eexists. exact Hp.
Qed.

(** On the 24-satellite mesh from satellite 0, and from the node id 30 that
    is no satellite. *)
Lemma Dijkstra_hop_distances_walker24 :
  Dijkstra walker24 30 = Done (replicate 24 UINT32_MAX)
  ∧ ∃ dist,
      Dijkstra walker24 0 = Done dist
      ∧ length dist = 24%nat
      ∧ ∀ v, v < 24 →
          ∃ dv, vec_at dist v = Some dv
                ∧ (∀ k, dv = N.of_nat k ∧ dv ≠ UINT32_MAX ↔ shortest walker24 0 v k)
                ∧ (dv = UINT32_MAX ↔ ¬ reachable walker24 0 v).
Proof.
  split.
  - apply (proj1 (Dijkstra_hop_distances walker24 30)). vm_compute. discriminate.
  - apply (proj2 (Dijkstra_hop_distances walker24 0)).
    + reflexivity.
    + exact walker24_in_range.
    + reflexivity.
Defined.

(** X13: the hop count read from the table of ComputeStaticRoutes is the
    distance that Dijkstra computes, cut off at 100 hops: on a topology whose
    neighbor ids are all satellites, GetHopCount from src to v returns the entry
    of v in the array of Dijkstra from src when that entry is at most 100, and
    UINT32_MAX otherwise. *)
Theorem hop_count_agrees_with_Dijkstra (t : IslTopology) (src : N) :
  numSatellites t < 4294967296 → neighbors_in_range t → src < numSatellites t →
  ∃ dist routes,
    Dijkstra t src = Done dist
    ∧ ComputeStaticRoutes t = Done routes
    ∧ ∀ v, v < numSatellites t →
        ∃ dv, vec_at dist v = Some dv
              ∧ GetHopCount routes src v
                = Done (if dv <=? 100 then dv else UINT32_MAX).
Proof.
  intros Huint32 Hrange Hsrc.
  destruct (Dijkstra_spec t src Huint32 Hrange Hsrc) as (dist & Hrun & _ & Hall).
  destruct (ComputeStaticRoutes_correct t Huint32 Hrange) as (routes & Hroutes & Hok & Hnone).
  exists dist, routes. split; [exact Hrun|]. split; [exact Hroutes|].
  intros v Hv. destruct (Hall v Hv) as (dv & Hdv & Hfin & Hinf).
  exists dv. split; [exact Hdv|].
  destruct (N.eq_dec dv UINT32_MAX) as [-> | Hne].
  - specialize (Hinf eq_refl).
    assert (Hsv : src ≠ v).
    { intros <-. apply Hinf. exists 0%nat. apply path_nil. }
    rewrite GetHopCount_no_route; [reflexivity | exact Hsv |].
    apply Hnone. auto.
  - destruct (Hfin Hne) as [_ Hshort].
    rewrite (GetHopCount_shortest t routes Hok src v _ Hsrc Huint32 Hshort).
    rewrite N2Nat.id. reflexivity.
Qed.

(** On a line of 120 nodes from node 0: the distances up to node 100 are
    returned, the longer ones are cut off. *)
Lemma hop_count_agrees_with_Dijkstra_line :
  ∃ dist routes,
    Dijkstra (line_topology 120) 0 = Done dist
    ∧ ComputeStaticRoutes (line_topology 120) = Done routes
    ∧ ∀ v, v < 120 →
        ∃ dv, vec_at dist v = Some dv
              ∧ GetHopCount routes 0 v
                = Done (if dv <=? 100 then dv else UINT32_MAX).
Proof.
  apply (hop_count_agrees_with_Dijkstra (line_topology 120) 0).
  - reflexivity.
  - apply neighbors_in_rangeb_sound. vm_compute. reflexivity.
  - reflexivity.
Defined.

(** ** The indexes of InstallStaticRoutes *)

Lemma pairs_ind {A : Type} (P : list A → Prop) :
  P [] → (∀ x, P [x]) → (∀ x y l, P l → P (x :: y :: l)) → ∀ l, P l.
Proof.
  intros Hnil Hone Hstep l.
  assert (H : P l ∧ ∀ x, P (x :: l)).
  { induction l as [|y l [IH1 IH2]]; [auto|].
    split; [apply IH2|]. intros x. apply Hstep. exact IH1. }
  apply H.
Qed.

Lemma link_side_swap (islInterfaces : list Ipv4Interface) (a b : N) :
  (∃ itf, link_side islInterfaces a b itf) → ∃ itf, link_side islInterfaces b a itf.
Proof.
  intros (itf & k & ifA & ifB & HA & HB & [(-> & Ha & Hb) | (-> & Ha & Hb)]).
  - exists ifB, k, ifA, ifB. auto 10.
  - exists ifA, k, ifA, ifB. auto 10.
Qed.

Lemma link_side_cons (ifA ifB : Ipv4Interface) (rest : list Ipv4Interface) (a b : N)
    (itf : Ipv4Interface) :
  link_side (ifA :: ifB :: rest) a b itf
  ↔ (itf = ifA ∧ if_node ifA = a ∧ if_node ifB = b)
    ∨ (itf = ifB ∧ if_node ifB = a ∧ if_node ifA = b)
    ∨ link_side rest a b itf.
Proof.
  split.
  - intros (k & xA & xB & HA & HB & Hside). destruct k as [|k].
    + simpl in HA, HB. injection HA as <-. injection HB as <-. tauto.
    + right. right. exists k, xA, xB.
      replace (2 * S k)%nat with (S (S (2 * k))) in HA by lia.
      replace (2 * S k + 1)%nat with (S (S (2 * k + 1))) in HB by lia.
      auto 10.
  - intros [H | [H | (k & xA & xB & HA & HB & Hside)]].
    + exists 0%nat, ifA, ifB. auto 10.
    + exists 0%nat, ifA, ifB. auto 10.
    + exists (S k), xA, xB.
      replace (2 * S k)%nat with (S (S (2 * k))) by lia.
      replace (2 * S k + 1)%nat with (S (S (2 * k + 1))) by lia.
      auto 10.
Qed.

(** Step 1 of InstallStaticRoutes: the keys of the index are the two
    directions of the links, and a value is read from the interface of the
    first node of its key on such a link. *)
Lemma build_link_index_spec (islInterfaces : list Ipv4Interface) :
  ∀ index index',
    build_link_index islInterfaces index = Done index' →
    (∀ a b, is_Some (index' !! (a, b))
            ↔ is_Some (index !! (a, b)) ∨ ∃ itf, link_side islInterfaces a b itf)
    ∧ (∀ a b idx addr,
         index' !! (a, b) = Some (idx, addr) →
         index !! (a, b) = Some (idx, addr)
         ∨ ∃ itf, link_side islInterfaces a b itf
                  ∧ idx = if_index itf ∧ addr = if_addr itf).
Proof.
  induction islInterfaces as [|x|ifA ifB rest IH] using pairs_ind;
    intros index index' Hrun.
  - injection Hrun as <-. split.
    + intros a b. split; [auto|]. intros [H | (itf & k & xA & xB & HA & _)]; [exact H|].
      rewrite lookup_nil in HA. discriminate.
    + auto.
  - discriminate.
  - cbn [build_link_index] in Hrun. destruct (IH _ _ Hrun) as [Hkeys Hvals]. split.
    + intros a b. rewrite Hkeys. split.
      * intros [Hsome | (itf & Hside)].
        -- destruct (decide ((if_node ifB, if_node ifA) = (a, b))) as [Heq | Hne1].
           { injection Heq as <- <-. right. exists ifB. apply link_side_cons. auto. }
           rewrite lookup_insert_ne in Hsome by exact Hne1.
           destruct (decide ((if_node ifA, if_node ifB) = (a, b))) as [Heq | Hne2].
           { injection Heq as <- <-. right. exists ifA. apply link_side_cons. auto. }
           rewrite lookup_insert_ne in Hsome by exact Hne2. auto.
        -- right. exists itf. apply link_side_cons. auto.
      * intros [Hsome | (itf & Hside)].
        -- left.
           destruct (decide ((if_node ifB, if_node ifA) = (a, b))) as [Heq | Hne1].
           { rewrite Heq. rewrite lookup_insert_eq. eauto. }
           rewrite lookup_insert_ne by exact Hne1.
           destruct (decide ((if_node ifA, if_node ifB) = (a, b))) as [Heq | Hne2].
           { rewrite Heq. rewrite lookup_insert_eq. eauto. }
           rewrite lookup_insert_ne by exact Hne2. exact Hsome.
        -- apply link_side_cons in Hside as [(-> & <- & <-) | [(-> & <- & <-) | Hside]].
           ++ left.
              destruct (decide ((if_node ifB, if_node ifA) = (if_node ifA, if_node ifB)))
                as [Heq | Hne1].
              { rewrite Heq. rewrite lookup_insert_eq. eauto. }
              rewrite lookup_insert_ne by exact Hne1.
              rewrite lookup_insert_eq. eauto.
           ++ left. rewrite lookup_insert_eq. eauto.
           ++ right. eauto.
    + intros a b idx addr Hlook.
      destruct (Hvals a b idx addr Hlook) as [Hold | (itf & Hside & -> & ->)].
      * destruct (decide ((if_node ifB, if_node ifA) = (a, b))) as [Heq | Hne1].
        { rewrite Heq, lookup_insert_eq in Hold. injection Hold as <- <-.
          injection Heq as <- <-.
          right. exists ifB. split; [apply link_side_cons|]; auto. }
        rewrite lookup_insert_ne in Hold by exact Hne1.
        destruct (decide ((if_node ifA, if_node ifB) = (a, b))) as [Heq | Hne2].
        { rewrite Heq, lookup_insert_eq in Hold. injection Hold as <- <-.
          injection Heq as <- <-.
          right. exists ifA. split; [apply link_side_cons|]; auto. }
        rewrite lookup_insert_ne in Hold by exact Hne2. auto.
      * right. exists itf. split; [apply link_side_cons|]; auto.
Qed.

(** Step 2: the address recorded for a satellite is the one of its interface
    1, and every satellite with more than one interface has one recorded. *)
Lemma build_satellite_address_spec (nodes : NodeInterfaces) (sats : list N) :
  ∀ index index',
    build_satellite_address sats nodes index = Done index' →
    (∀ s a, index' !! s = Some a →
            index !! s = Some a
            ∨ (s ∈ sats ∧ ∃ ifs, nodes !! N.to_nat s = Some ifs ∧ ifs !! 1%nat = Some a))
    ∧ (∀ s, is_Some (index !! s) → is_Some (index' !! s))
    ∧ (∀ s ifs, s ∈ sats → nodes !! N.to_nat s = Some ifs → (1 < length ifs)%nat →
                is_Some (index' !! s)).
Proof.
  induction sats as [|sat sats IH]; intros index index' Hrun.
  - injection Hrun as <-. split; [auto|]. split; [auto|].
    intros s ifs Hs. by apply elem_of_nil in Hs.
  - cbn [build_satellite_address] in Hrun.
    destruct (vec_get nodes sat) as [ifs| | |] eqn:Hget; try discriminate.
    apply vec_get_Done in Hget. cbn [mbind outcome_bind obind] in Hrun.
    destruct (1 <? length ifs)%nat eqn:Hn.
    + apply Nat.ltb_lt in Hn.
      destruct (vec_get ifs 1) as [a0| | |] eqn:Hget1; try discriminate.
      apply vec_get_Done in Hget1. cbn [mbind outcome_bind obind] in Hrun.
      change (N.to_nat 1) with 1%nat in Hget1.
      destruct (IH _ _ Hrun) as (Hval & Hmono & Hhas). split; [|split].
      * intros s a Hs. destruct (Hval s a Hs) as [Hold | [Hin Hnode]].
        -- destruct (decide (sat = s)) as [<- | Hne].
           ++ rewrite lookup_insert_eq in Hold. injection Hold as <-.
              right. split; [left | eauto].
           ++ rewrite lookup_insert_ne in Hold by exact Hne. auto.
        -- right. split; [by right | exact Hnode].
      * intros s Hs. apply Hmono.
        destruct (decide (sat = s)) as [<- | Hne].
        -- rewrite lookup_insert_eq. eauto.
        -- rewrite lookup_insert_ne by exact Hne. exact Hs.
      * intros s ifs' Hs Hnode Hlen. apply elem_of_cons in Hs as [-> | Hs].
        -- apply Hmono. rewrite lookup_insert_eq. eauto.
        -- eapply Hhas; eassumption.
    + apply Nat.ltb_ge in Hn.
      destruct (IH _ _ Hrun) as (Hval & Hmono & Hhas). split; [|split].
      * intros s a Hs. destruct (Hval s a Hs) as [Hold | [Hin Hnode]]; [auto|].
        right. split; [by right | exact Hnode].
      * exact Hmono.
      * intros s ifs' Hs Hnode Hlen. apply elem_of_cons in Hs as [-> | Hs].
        -- pose proof (eq_trans (eq_sym Hget) Hnode) as Heq. injection Heq as <-. lia.
        -- eapply Hhas; eassumption.
Qed.

(** The run of InstallStaticRoutes on an interface container of even size. *)
Lemma InstallStaticRoutes_unfold (nodes : NodeInterfaces) (routes : RoutingTables.t)
    (islInterfaces : list Ipv4Interface) :
  Nat.Even (length islInterfaces) →
  let n := wrap32 (N.of_nat (length nodes)) in
  ∃ links addrs res,
    InstallStaticRoutes nodes routes islInterfaces = Done res
    ∧ build_link_index islInterfaces ∅ = Done links
    ∧ build_satellite_address (N_range n) nodes ∅ = Done addrs
    ∧ installed res = omap (route_of routes links addrs) (ordered_pairs n)
    ∧ skipped res = omap (skip_of routes links addrs) (ordered_pairs n)
    ∧ totalRoutes res = wrap32 (N.of_nat (length (installed res))).
Proof.
  intros [half Hhalf] n.
  destruct (build_link_index_returns half islInterfaces ∅ Hhalf) as [links Hlinks].
  destruct (build_satellite_address_returns nodes (N_range n) ∅) as [addrs Haddrs].
  { apply Forall_forall. intros sat Hsat. apply N_range_elem in Hsat.
    assert (n ≤ N.of_nat (length nodes)).
    { unfold n, wrap32. apply N.Div0.mod_le. }
    lia. }
  destruct (install_srcs_spec routes links addrs n (N_range n)
              {| installed := []; totalRoutes := 0; skipped := [] |})
    as (Hi & Hs & Ht); [simpl; lia|].
  simpl in Hi, Hs, Ht.
  eexists links, addrs, _.
  split.
  { unfold InstallStaticRoutes. fold n. rewrite Hlinks. simpl. rewrite Haddrs. reflexivity. }
  split; [exact Hlinks|]. split; [exact Haddrs|].
  split; [exact Hi|]. split; [exact Hs|].
  simpl. rewrite Ht, Hi. reflexivity.
Qed.

(** X14: every host route that InstallStaticRoutes installs on a node src
    belongs to a destination dst with a next hop h in the table: it leaves
    through the interface of src on a link between src and h, its gateway is
    the address of the interface of h on a link between h and src, and its
    destination is the address of interface 1 of dst.  The index of step 1
    holds both directions of every link, so no pair is ever skipped for a
    missing gateway. *)
Theorem installed_routes_follow_links (nodes : NodeInterfaces)
    (routes : RoutingTables.t) (islInterfaces : list Ipv4Interface) :
  Nat.Even (length islInterfaces) →
  ∃ res,
    InstallStaticRoutes nodes routes islInterfaces = Done res
    ∧ (∀ src dst, (src, dst, NoGateway) ∉ skipped res)
    ∧ ∀ route, route ∈ installed res →
        ∃ dst ifL ifG ifsD,
          rt_node route ≠ dst
          ∧ GetNextHop routes (rt_node route) dst ≠ UINT32_MAX
          ∧ link_side islInterfaces (rt_node route)
              (GetNextHop routes (rt_node route) dst) ifL
          ∧ link_side islInterfaces (GetNextHop routes (rt_node route) dst)
              (rt_node route) ifG
          ∧ rt_interface route = if_index ifL
          ∧ rt_gateway route = if_addr ifG
          ∧ nodes !! N.to_nat dst = Some ifsD
          ∧ ifsD !! 1%nat = Some (rt_dest route).
Proof.
  intros Heven.
  destruct (InstallStaticRoutes_unfold nodes routes islInterfaces Heven)
    as (links & addrs & res & Hrun & Hlinks & Haddrs & Hi & Hs & _).
  destruct (build_link_index_spec _ _ _ Hlinks) as [Hkeys Hvals].
  destruct (build_satellite_address_spec _ _ _ _ Haddrs) as (Haddr & _ & _).
  exists res. split; [exact Hrun|]. split.
  - intros src dst Hin. rewrite Hs in Hin.
    apply list_elem_of_omap in Hin as ([s d] & _ & Hskip).
    unfold skip_of, install_pair in Hskip. simpl in Hskip.
    destruct (GetNextHop routes s d =? UINT32_MAX); [discriminate|].
    destruct (addrs !! d); [|discriminate].
    destruct (links !! (s, GetNextHop routes s d)) as [[idx a]|] eqn:Hfwd; [|discriminate].
    destruct (links !! (GetNextHop routes s d, s)) as [[idx' a']|] eqn:Hback; [discriminate|].
    assert (Hsome : is_Some (links !! (GetNextHop routes s d, s))).
    { apply Hkeys. right. apply link_side_swap.
      assert (Hf : is_Some (links !! (s, GetNextHop routes s d))) by eauto.
      apply Hkeys in Hf as [Hf | Hf]; [|exact Hf].
      rewrite lookup_empty in Hf. by destruct Hf. }
    rewrite Hback in Hsome. by destruct Hsome.
  - intros route Hin. rewrite Hi in Hin.
    apply list_elem_of_omap in Hin as ([s d] & Hpair & Hroute).
    apply ordered_pairs_elem in Hpair as (_ & _ & Hne).
    unfold route_of, install_pair in Hroute. simpl in Hroute.
    destruct (GetNextHop routes s d =? UINT32_MAX) eqn:Hmax; [discriminate|].
    apply N.eqb_neq in Hmax.
    destruct (addrs !! d) as [dstAddr|] eqn:Hd; [|discriminate].
    destruct (links !! (s, GetNextHop routes s d)) as [[idx a]|] eqn:Hfwd; [|discriminate].
    destruct (links !! (GetNextHop routes s d, s)) as [[idx' a']|] eqn:Hback; [|discriminate].
    injection Hroute as <-. simpl.
    destruct (Hvals _ _ _ _ Hfwd) as [Hf | (ifL & HsideL & -> & _)];
      [rewrite lookup_empty in Hf; discriminate|].
    destruct (Hvals _ _ _ _ Hback) as [Hb | (ifG & HsideG & _ & ->)];
      [rewrite lookup_empty in Hb; discriminate|].
    destruct (Haddr d dstAddr Hd) as [He | (_ & ifsD & HnodeD & HifD)];
      [rewrite lookup_empty in He; discriminate|].
    exists d, ifL, ifG, ifsD. auto 10.
Qed.

(** Three nodes and one link between nodes 0 and 1. *)
Lemma installed_routes_follow_links_partial :
  ∃ res,
    InstallStaticRoutes partial_nodes partial_routes partial_interfaces = Done res
    ∧ (∀ src dst, (src, dst, NoGateway) ∉ skipped res)
    ∧ ∀ route, route ∈ installed res →
        ∃ dst ifL ifG ifsD,
          rt_node route ≠ dst
          ∧ GetNextHop partial_routes (rt_node route) dst ≠ UINT32_MAX
          ∧ link_side partial_interfaces (rt_node route)
              (GetNextHop partial_routes (rt_node route) dst) ifL
          ∧ link_side partial_interfaces (GetNextHop partial_routes (rt_node route) dst)
              (rt_node route) ifG
          ∧ rt_interface route = if_index ifL
          ∧ rt_gateway route = if_addr ifG
          ∧ partial_nodes !! N.to_nat dst = Some ifsD
          ∧ ifsD !! 1%nat = Some (rt_dest route).
Proof.
  apply (installed_routes_follow_links partial_nodes partial_routes partial_interfaces).
  exists 1%nat. reflexivity.
Defined.

(** ** Counting the pairs of InstallStaticRoutes *)

Lemma filter_ne_absent (l : list N) (x : N) :
  x ∉ l → filter (λ d, x ≠ d) l = l.
Proof.
  induction l as [|y l IH]; intros Hx; [reflexivity|].
  apply not_elem_of_cons in Hx as [Hne Hx].
  rewrite filter_cons, decide_True by exact Hne. f_equal. apply IH. exact Hx.
Qed.

Lemma filter_ne_length (l : list N) (x : N) :
  NoDup l → x ∈ l → S (length (filter (λ d, x ≠ d) l)) = length l.
Proof.
  induction l as [|y l IH]; intros Hnodup Hx; [by apply elem_of_nil in Hx|].
  apply NoDup_cons in Hnodup as [Hy Hnodup].
  rewrite filter_cons. destruct (decide (x = y)) as [<- | Hne].
  - rewrite decide_False by tauto. rewrite filter_ne_absent by exact Hy. reflexivity.
  - rewrite decide_True by exact Hne. simpl. f_equal. apply IH; [exact Hnodup|].
    apply elem_of_cons in Hx as [Hx | Hx]; [contradiction | exact Hx].
Qed.

Lemma flat_map_length_uniform {A B : Type} (f : A → list B) (l : list A) (c : nat) :
  (∀ x, x ∈ l → length (f x) = c) → length (flat_map f l) = (length l * c)%nat.
Proof.
  induction l as [|x l IH]; intros Hc; [reflexivity|].
  simpl. rewrite length_app, Hc by left. f_equal. apply IH.
  intros y Hy. apply Hc. by right.
Qed.

Lemma ordered_pairs_length (n : N) :
  N.of_nat (length (ordered_pairs n)) = n * (n - 1).
Proof.
  unfold ordered_pairs.
  rewrite (flat_map_length_uniform _ _ (N.to_nat n - 1)).
  - rewrite N_range_length, Nat2N.inj_mul, Nat2N.inj_sub, N2Nat.id. reflexivity.
  - intros src Hsrc. rewrite length_map.
    pose proof (filter_ne_length (N_range n) src (N_range_NoDup n) Hsrc) as Hlen.
    rewrite N_range_length in Hlen. lia.
Qed.

(** Each pair gives a route or a skip record, never both. *)
Lemma route_or_skip_length (routes : RoutingTables.t)
    (links : gmap (N * N) (N * Ipv4Address)) (addrs : gmap N Ipv4Address)
    (ps : list (N * N)) :
  (length (omap (route_of routes links addrs) ps)
   + length (omap (skip_of routes links addrs) ps))%nat = length ps.
Proof.
  induction ps as [|p ps IH]; [reflexivity|].
  cbn [omap list_omap]. unfold route_of at 1, skip_of at 1.
  destruct (install_pair routes links addrs p.1 p.2); simpl; unfold omap in *; lia.
Qed.

Lemma GetNextHop_empty (s d : N) : GetNextHop RoutingTables.empty s d = UINT32_MAX.
Proof. unfold GetNextHop. simpl. rewrite lookup_empty. reflexivity. Qed.

(** X15: InstallStaticRoutes handles every ordered pair of distinct
    satellites exactly once: the installed routes and the skipped pairs
    together number n * (n - 1), n being the size of the node container.
    With an empty routing table nothing is installed and every pair is
    skipped for want of a route. *)
Theorem install_accounts_for_every_pair (nodes : NodeInterfaces)
    (islInterfaces : list Ipv4Interface) :
  Nat.Even (length islInterfaces) →
  let n := wrap32 (N.of_nat (length nodes)) in
  (∀ routes, ∃ res,
      InstallStaticRoutes nodes routes islInterfaces = Done res
      ∧ N.of_nat (length (installed res)) + N.of_nat (length (skipped res))
        = n * (n - 1))
  ∧ InstallStaticRoutes nodes RoutingTables.empty islInterfaces
    = Done {| installed := []; totalRoutes := 0;
              skipped := map (λ p, (p.1, p.2, NoRoute)) (ordered_pairs n) |}.
Proof.
  intros Heven n.
  assert (Hgen : ∀ routes, ∃ res,
      InstallStaticRoutes nodes routes islInterfaces = Done res
      ∧ (∃ links addrs,
           installed res = omap (route_of routes links addrs) (ordered_pairs n)
           ∧ skipped res = omap (skip_of routes links addrs) (ordered_pairs n)
           ∧ totalRoutes res = wrap32 (N.of_nat (length (installed res))))).
  { intros routes.
    destruct (InstallStaticRoutes_unfold nodes routes islInterfaces Heven)
      as (links & addrs & res & Hrun & _ & _ & Hi & Hs & Ht).
    exists res. split; [exact Hrun|]. exists links, addrs. auto. }
  split.
  - intros routes. destruct (Hgen routes) as (res & Hrun & links & addrs & Hi & Hs & _).
    exists res. split; [exact Hrun|].
    rewrite Hi, Hs, <- Nat2N.inj_add, route_or_skip_length. apply ordered_pairs_length.
  - destruct (Hgen RoutingTables.empty) as (res & Hrun & links & addrs & Hi & Hs & Ht).
    rewrite Hrun. f_equal.
    assert (Hnone : ∀ p, install_pair RoutingTables.empty links addrs p.1 p.2 = inr NoRoute).
    { intros p. unfold install_pair. rewrite GetNextHop_empty, N.eqb_refl. reflexivity. }
    assert (Hinst : installed res = []).
    { rewrite Hi. generalize (ordered_pairs n). intros ps.
      induction ps as [|p ps IH]; [reflexivity|].
      cbn [omap list_omap]. unfold route_of at 1. rewrite Hnone. exact IH. }
    assert (Hskip : skipped res = map (λ p, (p.1, p.2, NoRoute)) (ordered_pairs n)).
    { rewrite Hs. generalize (ordered_pairs n). intros ps.
      induction ps as [|p ps IH]; [reflexivity|].
      cbn [omap list_omap]. unfold skip_of at 1. rewrite Hnone. cbn [fst snd map]. f_equal; exact IH. }
    destruct res as [i tr sk]. simpl in Hinst, Hskip, Ht.
    rewrite Hinst in Ht. rewrite Hinst, Hskip, Ht. reflexivity.
Qed.

(** Three nodes and one link, with the table of the example and with the
    empty table. *)
Lemma install_accounts_partial :
  (∀ routes, ∃ res,
      InstallStaticRoutes partial_nodes routes partial_interfaces = Done res
      ∧ N.of_nat (length (installed res)) + N.of_nat (length (skipped res)) = 6)
  ∧ InstallStaticRoutes partial_nodes RoutingTables.empty partial_interfaces
    = Done {| installed := []; totalRoutes := 0;
              skipped := [(0, 1, NoRoute); (0, 2, NoRoute); (1, 0, NoRoute);
                          (1, 2, NoRoute); (2, 0, NoRoute); (2, 1, NoRoute)] |}.
Proof.
  apply (install_accounts_for_every_pair partial_nodes partial_interfaces).
  exists 1%nat. reflexivity.
Defined.

(** ** AssignIslAddresses: the nodes of the interfaces *)

Lemma interfaces_grow_refl (nodes : NodeInterfaces) : interfaces_grow nodes nodes.
Proof. split; [reflexivity|]. intros s ifs Hs. eauto. Qed.

Lemma interfaces_grow_trans (n1 n2 n3 : NodeInterfaces) :
  interfaces_grow n1 n2 → interfaces_grow n2 n3 → interfaces_grow n1 n3.
Proof.
  intros [Hlen1 H1] [Hlen2 H2]. split; [congruence|].
  intros s ifs Hs. destruct (H1 s ifs Hs) as (ifs' & Hs' & Hle).
  destruct (H2 s ifs' Hs') as (ifs'' & Hs'' & Hle'). exists ifs''. split; [exact Hs'' | lia].
Qed.

Lemma interfaces_grow_strict (n1 n2 n3 : NodeInterfaces) (d : nat)
    (ifs1 ifs2 : list Ipv4Address) :
  interfaces_grow n1 n2 → interfaces_grow n2 n3 →
  n1 !! d = Some ifs1 → n2 !! d = Some ifs2 → (length ifs1 < length ifs2)%nat →
  ∃ ifs3, n3 !! d = Some ifs3 ∧ (length ifs1 < length ifs3)%nat.
Proof.
  intros _ [_ H2] H1d H2d Hlt.
  destruct (H2 d ifs2 H2d) as (ifs3 & H3d & Hle). exists ifs3. split; [exact H3d | lia].
Qed.

Lemma assign_device_spec (nodes : NodeInterfaces) (dev : N) (addr : Ipv4Address) :
  (N.to_nat dev < length nodes)%nat →
  ∃ ifs nodes1,
    nodes !! N.to_nat dev = Some ifs
    ∧ assign_device nodes dev addr
      = Done (nodes1,
              {| if_node := dev; if_index := N.of_nat (length ifs); if_addr := addr |})
    ∧ interfaces_grow nodes nodes1
    ∧ nodes1 !! N.to_nat dev = Some (ifs ++ [addr]).
Proof.
  intros Hlt. unfold assign_device.
  destruct (vec_get_lt nodes dev Hlt) as (ifs & -> & Hifs). cbn [mbind outcome_bind obind].
  rewrite vec_set_lt by assumption. exists ifs. eexists.
  split; [exact Hifs|]. split; [reflexivity|].
  split; [|apply list_lookup_insert_eq; exact Hlt].
  split; [apply length_insert|].
  intros s l Hs. destruct (decide (s = N.to_nat dev)) as [-> | Hne].
  - exists (ifs ++ [addr]). split; [apply list_lookup_insert_eq; exact Hlt|].
    pose proof (eq_trans (eq_sym Hifs) Hs) as Heq. injection Heq as <-.
    rewrite length_app. lia.
  - exists l. split; [|lia]. etrans; [apply list_lookup_insert_ne; congruence | exact Hs].
Qed.

(** The loop of AssignIslAddresses: the interfaces added are those of the
    devices of the links, in order, and every node of such a device gets one
    more interface at least. *)
Lemma assign_links_nodes (islDevices : list N) (links : list N) :
  ∀ nodes interfaces,
    Forall (λ i, i < 16384 ∧ (N.to_nat (i * 2 + 1) < length islDevices)%nat) links →
    Forall (λ d, (N.to_nat d < length nodes)%nat) islDevices →
    ∃ nodes' interfaces',
      assign_links links islDevices nodes interfaces = Done (nodes', interfaces')
      ∧ interfaces_grow nodes nodes'
      ∧ map if_node interfaces'
        = map if_node interfaces ++ flat_map (link_nodes islDevices) links
      ∧ ∀ d, d ∈ flat_map (link_nodes islDevices) links →
          ∃ ifs0 ifs', nodes !! N.to_nat d = Some ifs0
                       ∧ nodes' !! N.to_nat d = Some ifs'
                       ∧ (length ifs0 < length ifs')%nat.
Proof.
  induction links as [|i links IH]; intros nodes interfaces Hlinks Hdevs.
  - exists nodes, interfaces. split; [reflexivity|].
    split; [apply interfaces_grow_refl|]. split; [simpl; by rewrite app_nil_r|].
    intros d Hd. by apply elem_of_nil in Hd.
  - apply Forall_cons in Hlinks as [[Hi Hidx] Hlinks].
    cbn [assign_links]. rewrite (SetBase_link_subnet i Hi).
    cbn [mbind outcome_bind obind].
    rewrite (wrap32_small (i * 2)) by lia.
    rewrite (wrap32_small (i * 2 + 1)) by lia.
    destruct (vec_get_lt islDevices (i * 2) ltac:(lia)) as (devA & -> & HA).
    cbn [mbind outcome_bind obind].
    destruct (vec_get_lt islDevices (i * 2 + 1) ltac:(lia)) as (devB & -> & HB).
    cbn [mbind outcome_bind obind].
    pose proof Hdevs as Hdevs'. rewrite Forall_lookup in Hdevs'.
    destruct (assign_device_spec nodes devA (host_address (link_network i) 1)
                (Hdevs' _ _ HA)) as (ifsA & nodes1 & HnA & -> & Hgrow1 & H1A).
    cbn [mbind outcome_bind obind].
    assert (Hlen1 : length nodes1 = length nodes) by apply Hgrow1.
    destruct (assign_device_spec nodes1 devB (host_address (link_network i) 2))
      as (ifsB & nodes2 & HnB & -> & Hgrow2 & H2B).
    { rewrite Hlen1. exact (Hdevs' _ _ HB). }
    cbn [mbind outcome_bind obind].
    assert (Hlen2 : length nodes2 = length nodes1) by apply Hgrow2.
    destruct (IH nodes2 (interfaces ++ [ {| if_node := devA; if_index := N.of_nat (length ifsA);
                                            if_addr := host_address (link_network i) 1 |};
                                         {| if_node := devB; if_index := N.of_nat (length ifsB);
                                            if_addr := host_address (link_network i) 2 |} ])
                Hlinks)
      as (nodes' & ifs' & Hrun & Hgrow3 & Hmap & Hmore).
    { apply Forall_lookup. intros k d Hd. rewrite Hlen2, Hlen1. exact (Hdevs' _ _ Hd). }
    exists nodes', ifs'. split; [exact Hrun|].
    assert (Hgrow12 : interfaces_grow nodes nodes2).
    { eapply interfaces_grow_trans; eassumption. }
    assert (Hgrow13 : interfaces_grow nodes1 nodes').
    { eapply interfaces_grow_trans; eassumption. }
    split; [eapply interfaces_grow_trans; eassumption|].
    assert (Hnodes : link_nodes islDevices i = [devA; devB]).
    { unfold link_nodes. rewrite HA, HB. reflexivity. }
    split.
    { rewrite Hmap, map_app. cbn [flat_map map if_node]. rewrite Hnodes, <- app_assoc.
      reflexivity. }
    intros d Hd. cbn [flat_map] in Hd. rewrite Hnodes in Hd.
    apply elem_of_app in Hd as [Hd | Hd].
    + apply elem_of_cons in Hd as [-> | Hd].
      * destruct (interfaces_grow_strict nodes nodes1 nodes' (N.to_nat devA) ifsA _
                    Hgrow1 Hgrow13 HnA H1A)
          as (ifs3 & H3 & Hlt); [rewrite length_app; simpl; lia|].
        eauto.
      * apply list_elem_of_singleton in Hd as ->.
        destruct (lookup_lt_is_Some_2 nodes (N.to_nat devB) (Hdevs' _ _ HB)) as [ifs0 H0].
        destruct (proj2 Hgrow1 _ _ H0) as (ifsB' & HnB' & Hle).
        pose proof (eq_trans (eq_sym HnB) HnB') as Heq. injection Heq as <-.
        destruct (proj2 Hgrow3 _ _ H2B) as (ifs3 & H3 & Hle3).
        exists ifs0, ifs3. split; [exact H0|]. split; [exact H3|].
        rewrite length_app in Hle3. simpl in Hle3. lia.
    + destruct (Hmore d Hd) as (ifs2 & ifs3 & H2 & H3 & Hlt).
      assert (Hd0 : (N.to_nat d < length nodes)%nat).
      { apply lookup_lt_Some in H2. rewrite Hlen2, Hlen1 in H2. exact H2. }
      destruct (lookup_lt_is_Some_2 nodes (N.to_nat d) Hd0) as [ifs0 H0].
      destruct (proj2 Hgrow12 _ _ H0) as (ifs2' & H2' & Hle).
      pose proof (eq_trans (eq_sym H2) H2') as Heq. injection Heq as <-.
      exists ifs0, ifs3. split; [exact H0|]. split; [exact H3 | lia].
Qed.

(** The container that AssignIslAddresses returns for at most 16384 links:
    interfaces [2k] and [2k + 1] belong to the nodes of devices [2k] and
    [2k + 1] and carry the two host addresses of the block of link [k]. *)
Lemma AssignIslAddresses_layout (nodes : NodeInterfaces) (islDevices : list N) :
  N.of_nat (length islDevices) / 2 ≤ 16384 →
  Forall (λ d, (N.to_nat d < length nodes)%nat) islDevices →
  ∃ nodes' interfaces,
    AssignIslAddresses nodes islDevices = Done (nodes', interfaces)
    ∧ interfaces_grow nodes nodes'
    ∧ length interfaces = (2 * (length islDevices / 2))%nat
    ∧ ∀ k devA devB,
        islDevices !! (2 * k)%nat = Some devA →
        islDevices !! (2 * k + 1)%nat = Some devB →
        ∃ ifA ifB,
          interfaces !! (2 * k)%nat = Some ifA
          ∧ interfaces !! (2 * k + 1)%nat = Some ifB
          ∧ if_node ifA = devA ∧ if_node ifB = devB
          ∧ if_addr ifA = host_address (link_network (N.of_nat k)) 1
          ∧ if_addr ifB = host_address (link_network (N.of_nat k)) 2
          ∧ ∀ d, d = devA ∨ d = devB →
              ∃ ifs0 ifs', nodes !! N.to_nat d = Some ifs0
                           ∧ nodes' !! N.to_nat d = Some ifs'
                           ∧ (length ifs0 < length ifs')%nat.
Proof.
  intros Hlen Hdevs.
  destruct (AssignIslAddresses_spec nodes islDevices Hlen Hdevs)
    as (nodes' & interfaces & Hrun & Haddr).
  exists nodes', interfaces. split; [exact Hrun|].
  assert (Hsmall : N.of_nat (length islDevices) < 4294967296).
  { pose proof (N.mul_succ_div_gt (N.of_nat (length islDevices)) 2 ltac:(lia)). lia. }
  unfold AssignIslAddresses in Hrun. rewrite wrap32_small in Hrun by assumption.
  set (linkCount := N.of_nat (length islDevices) / 2) in *.
  assert (Hcount : 2 * linkCount ≤ N.of_nat (length islDevices)).
  { unfold linkCount. apply N.Div0.mul_div_le. }
  destruct (assign_links_nodes islDevices (N_range linkCount) nodes [])
    as (nodes'' & ifs'' & Hrun' & Hgrow & Hmap & Hmore).
  { apply Forall_forall. intros i Hi. apply N_range_elem in Hi. lia. }
  { assumption. }
  rewrite Hrun in Hrun'. injection Hrun' as <- <-.
  split; [exact Hgrow|].
  simpl in Hmap.
  assert (Hcount' : N.to_nat linkCount = (length islDevices / 2)%nat).
  { unfold linkCount. rewrite N2Nat.inj_div, Nat2N.id. reflexivity. }
  split.
  { rewrite <- (length_map if_node), Hmap.
    rewrite (flat_map_length_uniform _ _ 2) by reflexivity.
    rewrite N_range_length, Hcount'. lia. }
  intros k devA devB HA HB.
  assert (Hk : (k < N.to_nat linkCount)%nat).
  { apply lookup_lt_Some in HB. rewrite Hcount'.
    apply Nat.div_le_lower_bound; lia. }
  destruct (flat_map_pairs_lookup
              (λ i, default 0 (islDevices !! N.to_nat (i * 2)))
              (λ i, default 0 (islDevices !! N.to_nat (i * 2 + 1)))
              (N_range linkCount) k (N.of_nat k)) as [H1 H2].
  { apply N_range_lookup. exact Hk. }
  change (flat_map (λ i, [default 0 (islDevices !! N.to_nat (i * 2));
                          default 0 (islDevices !! N.to_nat (i * 2 + 1))])
                   (N_range linkCount))
    with (flat_map (link_nodes islDevices) (N_range linkCount)) in H1, H2.
  rewrite <- Hmap in H1, H2.
  replace (N.to_nat (N.of_nat k * 2)) with (2 * k)%nat in H1 by lia.
  replace (N.to_nat (N.of_nat k * 2 + 1)) with (2 * k + 1)%nat in H2 by lia.
  rewrite HA in H1. rewrite HB in H2. simpl in H1, H2.
  apply list_lookup_fmap_Some_1 in H1 as (ifA & HnodeA & HifA).
  apply list_lookup_fmap_Some_1 in H2 as (ifB & HnodeB & HifB).
  change (k + (k + 0))%nat with (2 * k)%nat in HifA, HifB.
  destruct (Haddr (N.of_nat k)) as [HaddrA HaddrB]; [lia|].
  replace (N.to_nat (2 * N.of_nat k)) with (2 * k)%nat in HaddrA by lia.
  replace (N.to_nat (2 * N.of_nat k + 1)) with (2 * k + 1)%nat in HaddrB by lia.
  rewrite HifA in HaddrA. rewrite HifB in HaddrB. simpl in HaddrA, HaddrB.
  injection HaddrA as HaddrA. injection HaddrB as HaddrB.
  exists ifA, ifB. split; [exact HifA|]. split; [exact HifB|].
  split; [auto|]. split; [auto|]. split; [exact HaddrA|]. split; [exact HaddrB|].
  intros d Hd. apply Hmore.
  apply list_elem_of_In, in_flat_map. exists (N.of_nat k). split.
  - apply list_elem_of_In, N_range_elem. lia.
  - apply list_elem_of_In. unfold link_nodes.
    replace (N.to_nat (N.of_nat k * 2)) with (2 * k)%nat by lia.
    replace (N.to_nat (N.of_nat k * 2 + 1)) with (2 * k + 1)%nat by lia.
    rewrite HA, HB. simpl.
    destruct Hd as [-> | ->]; [left | right; left].
Qed.

(** X16: for a device container of at most 16384 links, AssignIslAddresses
    returns two interfaces for each of the GetN / 2 links, in the order of the
    devices: interfaces 2k and 2k + 1 sit on the nodes of devices 2k and 2k + 1
    and carry the first and the second host address of the block of link k,
    10.(k / 64).((k mod 64) * 4).1 and .2, which are 32-bit addresses.  A
    device left over by an odd count gets no interface, and no node loses an
    interface. *)
Theorem assigned_interfaces_follow_devices (nodes : NodeInterfaces)
    (islDevices : list N) :
  N.of_nat (length islDevices) / 2 ≤ 16384 →
  Forall (λ d, (N.to_nat d < length nodes)%nat) islDevices →
  ∃ nodes' interfaces,
    AssignIslAddresses nodes islDevices = Done (nodes', interfaces)
    ∧ interfaces_grow nodes nodes'
    ∧ length interfaces = (2 * (length islDevices / 2))%nat
    ∧ ∀ k devA devB,
        islDevices !! (2 * k)%nat = Some devA →
        islDevices !! (2 * k + 1)%nat = Some devB →
        ∃ ifA ifB,
          interfaces !! (2 * k)%nat = Some ifA
          ∧ interfaces !! (2 * k + 1)%nat = Some ifB
          ∧ if_node ifA = devA ∧ if_node ifB = devB
          ∧ if_addr ifA = host_address (link_network (N.of_nat k)) 1
          ∧ if_addr ifB = host_address (link_network (N.of_nat k)) 2
          ∧ valid_ipv4 (if_addr ifA) ∧ valid_ipv4 (if_addr ifB)
          ∧ octets (if_addr ifA)
            = {| num1 := 10; num2 := N.of_nat k / 64;
                 num3 := (N.of_nat k mod 64) * 4; num4 := 1 |}
          ∧ octets (if_addr ifB)
            = {| num1 := 10; num2 := N.of_nat k / 64;
                 num3 := (N.of_nat k mod 64) * 4; num4 := 2 |}.
Proof.
  intros Hlen Hdevs.
  destruct (AssignIslAddresses_layout nodes islDevices Hlen Hdevs)
    as (nodes' & interfaces & Hrun & Hgrow & Hcount & Hlayout).
  exists nodes', interfaces. split; [exact Hrun|]. split; [exact Hgrow|].
  split; [exact Hcount|].
  intros k devA devB HA HB.
  destruct (Hlayout k devA devB HA HB)
    as (ifA & ifB & H1 & H2 & H3 & H4 & H5 & H6 & _).
  assert (Hk : N.of_nat k < 16384).
  { apply lookup_lt_Some in HB.
    pose proof (N.Div0.mul_div_le (N.of_nat (length islDevices)) 2).
    assert (N.of_nat (2 * k + 1) < N.of_nat (length islDevices)) by lia.
    pose proof (N.mul_succ_div_gt (N.of_nat (length islDevices)) 2 ltac:(lia)). lia. }
  exists ifA, ifB.
  split; [exact H1|]. split; [exact H2|]. split; [exact H3|]. split; [exact H4|].
  split; [exact H5|]. split; [exact H6|].
  rewrite H5, H6. unfold valid_ipv4.
  rewrite !host_address_value, !host_address_octets by lia.
  split; [lia|]. split; [lia|]. split; reflexivity.
Qed.

(** Three nodes with their loopback interface and five devices: two links
    are addressed and the fifth device is left alone. *)
Lemma assigned_interfaces_five_devices :
  ∃ nodes' interfaces,
    AssignIslAddresses (replicate 3 [loopback]) [0; 1; 1; 2; 0] = Done (nodes', interfaces)
    ∧ interfaces_grow (replicate 3 [loopback]) nodes'
    ∧ length interfaces = 4%nat
    ∧ ∀ k devA devB,
        [0; 1; 1; 2; 0] !! (2 * k)%nat = Some devA →
        [0; 1; 1; 2; 0] !! (2 * k + 1)%nat = Some devB →
        ∃ ifA ifB,
          interfaces !! (2 * k)%nat = Some ifA
          ∧ interfaces !! (2 * k + 1)%nat = Some ifB
          ∧ if_node ifA = devA ∧ if_node ifB = devB
          ∧ if_addr ifA = host_address (link_network (N.of_nat k)) 1
          ∧ if_addr ifB = host_address (link_network (N.of_nat k)) 2
          ∧ valid_ipv4 (if_addr ifA) ∧ valid_ipv4 (if_addr ifB)
          ∧ octets (if_addr ifA)
            = {| num1 := 10; num2 := N.of_nat k / 64;
                 num3 := (N.of_nat k mod 64) * 4; num4 := 1 |}
          ∧ octets (if_addr ifB)
            = {| num1 := 10; num2 := N.of_nat k / 64;
                 num3 := (N.of_nat k mod 64) * 4; num4 := 2 |}.
Proof.
  apply (assigned_interfaces_follow_devices (replicate 3 [loopback]) [0; 1; 1; 2; 0]).
  - vm_compute. discriminate.
  - repeat (constructor; [simpl; lia|]). constructor.
Defined.



(** ** The protocol factory *)

Lemma tolower_idempotent (c : Ascii.ascii) : tolower (tolower c) = tolower c.
Proof. destruct c as [[] [] [] [] [] [] [] []]; reflexivity. Qed.

Lemma lowercase_idempotent (name : string) : lowercase (lowercase name) = lowercase name.
Proof.
  induction name as [|c rest IH]; [reflexivity|].
  simpl. rewrite tolower_idempotent, IH. reflexivity.
Qed.

Lemma Create_cases (name : string) :
  (lowercase name = "static"%string
   ∧ RoutingProtocolFactory.Create name = Done StaticRoutingProtocol)
  ∨ (lowercase name = "olsr"%string
     ∧ RoutingProtocolFactory.Create name = Done OlsrRoutingProtocol)
  ∨ (lowercase name = "aodv"%string
     ∧ RoutingProtocolFactory.Create name = Done AodvRoutingProtocol)
  ∨ (lowercase name = "dsdv"%string
     ∧ RoutingProtocolFactory.Create name = Done DsdvRoutingProtocol)
  ∨ ((lowercase name ∉ RoutingProtocolFactory.GetSupportedProtocols)
     ∧ RoutingProtocolFactory.Create name = Aborted).
Proof.
  unfold RoutingProtocolFactory.Create, RoutingProtocolFactory.GetSupportedProtocols.
  destruct (String.eqb_spec (lowercase name) "static") as [H1 | H1]; [auto|].
  destruct (String.eqb_spec (lowercase name) "olsr") as [H2 | H2]; [auto|].
  destruct (String.eqb_spec (lowercase name) "aodv") as [H3 | H3]; [auto|].
  destruct (String.eqb_spec (lowercase name) "dsdv") as [H4 | H4]; [auto 10|].
  do 4 right. split; [|reflexivity].
  intros Hin. repeat (apply elem_of_cons in Hin as [Hin | Hin]; [contradiction|]).
  by apply elem_of_nil in Hin.
Qed.

(** X18: the factory accepts a name exactly when its lower-case form is one
    of the names that GetSupportedProtocols lists, and throws otherwise; two
    names that differ only in the case of their letters give the same
    protocol, and the four listed names give four different protocols. *)
Theorem factory_accepts_supported_names :
  (∀ name, (∃ p, RoutingProtocolFactory.Create name = Done p)
           ↔ lowercase name ∈ RoutingProtocolFactory.GetSupportedProtocols)
  ∧ (∀ name, lowercase name ∉ RoutingProtocolFactory.GetSupportedProtocols →
             RoutingProtocolFactory.Create name = Aborted)
  ∧ (∀ n1 n2, lowercase n1 = lowercase n2 →
              RoutingProtocolFactory.Create n1 = RoutingProtocolFactory.Create n2)
  ∧ (∀ name, RoutingProtocolFactory.Create (lowercase name)
             = RoutingProtocolFactory.Create name)
  ∧ (∀ n1 n2 p,
       n1 ∈ RoutingProtocolFactory.GetSupportedProtocols →
       n2 ∈ RoutingProtocolFactory.GetSupportedProtocols →
       RoutingProtocolFactory.Create n1 = Done p →
       RoutingProtocolFactory.Create n2 = Done p → n1 = n2).
Proof.
  assert (Hsame : ∀ n1 n2, lowercase n1 = lowercase n2 →
            RoutingProtocolFactory.Create n1 = RoutingProtocolFactory.Create n2).
  { intros n1 n2 Heq. unfold RoutingProtocolFactory.Create. rewrite Heq. reflexivity. }
  split; [|split; [|split; [exact Hsame|split]]].
  - intros name. split.
    + intros [p Hp].
      destruct (Create_cases name)
        as [[-> _] | [[-> _] | [[-> _] | [[-> _] | [_ Hno]]]]];
        [| | | | rewrite Hno in Hp; discriminate];
        unfold RoutingProtocolFactory.GetSupportedProtocols;
        repeat (first [by left | right]).
    + intros Hin.
      destruct (Create_cases name)
        as [[_ Hc] | [[_ Hc] | [[_ Hc] | [[_ Hc] | [Hno _]]]]];
        [eauto | eauto | eauto | eauto | contradiction].
  - intros name Hno.
    destruct (Create_cases name)
      as [[Hl _] | [[Hl _] | [[Hl _] | [[Hl _] | [_ Hc]]]]]; [| | | | exact Hc];
      exfalso; apply Hno; rewrite Hl;
      unfold RoutingProtocolFactory.GetSupportedProtocols;
      repeat (first [by left | right]).
  - intros name. apply Hsame. apply lowercase_idempotent.
  - intros n1 n2 p H1 H2 Hp1 Hp2.
    unfold RoutingProtocolFactory.GetSupportedProtocols in H1, H2.
    repeat (apply elem_of_cons in H1 as [-> | H1]);
      try (by apply elem_of_nil in H1);
      repeat (apply elem_of_cons in H2 as [-> | H2]);
      try (by apply elem_of_nil in H2);
      try reflexivity;
      vm_compute in Hp1, Hp2; congruence.
Qed.

(** ** The packet tracer *)

Lemma wrap64_add_l (x y : N) : wrap64 (wrap64 x + y) = wrap64 (x + y).
Proof. unfold wrap64. apply N.Div0.add_mod_idemp_l. Qed.

Lemma wrap64_small (x : N) : x < 18446744073709551616 → wrap64 x = x.
Proof. intros H. unfold wrap64. apply N.mod_small. exact H. Qed.

Lemma wrap64_lt (x : N) : wrap64 x < 18446744073709551616.
Proof. unfold wrap64. apply N.mod_lt. discriminate. Qed.

(** The counters after a run of the callbacks, from any state. *)
Lemma run_trace_spec (events : list trace_event) :
  ∀ tr, counters_ok tr →
    PacketTracer.m_controlBytesTx (run_trace events tr)
    = wrap64 (PacketTracer.m_controlBytesTx tr + traced_bytes true false events)
    ∧ PacketTracer.m_controlBytesRx (run_trace events tr)
      = wrap64 (PacketTracer.m_controlBytesRx tr + traced_bytes false false events)
    ∧ PacketTracer.m_dataBytesTx (run_trace events tr)
      = wrap64 (PacketTracer.m_dataBytesTx tr + traced_bytes true true events)
    ∧ PacketTracer.m_dataBytesRx (run_trace events tr)
      = wrap64 (PacketTracer.m_dataBytesRx tr + traced_bytes false true events).
Proof.
  induction events as [|[packet | packet] events IH]; intros tr (H1 & H2 & H3 & H4).
  - simpl. rewrite !N.add_0_r, !wrap64_small by assumption. auto.
  - cbn [run_trace traced_bytes andb negb]. unfold PacketTracer.TxCallback.
    destruct (PacketTracer.IsDataPacket packet) eqn:Hdata.
    + destruct (IH {| PacketTracer.m_controlBytesTx := PacketTracer.m_controlBytesTx tr;
                      PacketTracer.m_controlBytesRx := PacketTracer.m_controlBytesRx tr;
                      PacketTracer.m_dataBytesTx :=
                        wrap64 (PacketTracer.m_dataBytesTx tr + pkt_size packet);
                      PacketTracer.m_dataBytesRx := PacketTracer.m_dataBytesRx tr |})
        as (-> & -> & -> & ->).
      { repeat split; simpl; try assumption. apply wrap64_lt. }
      simpl. rewrite wrap64_add_l. repeat split; f_equal; lia.
    + destruct (IH {| PacketTracer.m_controlBytesTx :=
                        wrap64 (PacketTracer.m_controlBytesTx tr + pkt_size packet);
                      PacketTracer.m_controlBytesRx := PacketTracer.m_controlBytesRx tr;
                      PacketTracer.m_dataBytesTx := PacketTracer.m_dataBytesTx tr;
                      PacketTracer.m_dataBytesRx := PacketTracer.m_dataBytesRx tr |})
        as (-> & -> & -> & ->).
      { repeat split; simpl; try assumption. apply wrap64_lt. }
      simpl. rewrite wrap64_add_l. repeat split; f_equal; lia.
  - cbn [run_trace traced_bytes andb negb]. unfold PacketTracer.RxCallback.
    destruct (PacketTracer.IsDataPacket packet) eqn:Hdata.
    + destruct (IH {| PacketTracer.m_controlBytesTx := PacketTracer.m_controlBytesTx tr;
                      PacketTracer.m_controlBytesRx := PacketTracer.m_controlBytesRx tr;
                      PacketTracer.m_dataBytesTx := PacketTracer.m_dataBytesTx tr;
                      PacketTracer.m_dataBytesRx :=
                        wrap64 (PacketTracer.m_dataBytesRx tr + pkt_size packet) |})
        as (-> & -> & -> & ->).
      { repeat split; simpl; try assumption. apply wrap64_lt. }
      simpl. rewrite wrap64_add_l. repeat split; f_equal; lia.
    + destruct (IH {| PacketTracer.m_controlBytesTx := PacketTracer.m_controlBytesTx tr;
                      PacketTracer.m_controlBytesRx :=
                        wrap64 (PacketTracer.m_controlBytesRx tr + pkt_size packet);
                      PacketTracer.m_dataBytesTx := PacketTracer.m_dataBytesTx tr;
                      PacketTracer.m_dataBytesRx := PacketTracer.m_dataBytesRx tr |})
        as (-> & -> & -> & ->).
      { repeat split; simpl; try assumption. apply wrap64_lt. }
      simpl. rewrite wrap64_add_l. repeat split; f_equal; lia.
Qed.

Lemma traced_bytes_total (tx : bool) (events : list trace_event) :
  traced_bytes tx true events + traced_bytes tx false events = total_bytes tx events.
Proof.
  induction events as [|[packet | packet] events IH]; [reflexivity| |];
    cbn [traced_bytes total_bytes];
    destruct tx, (PacketTracer.IsDataPacket packet); simpl; lia.
Qed.

(** X19: after a reset, whatever the order in which the trace sources fire,
    each of the four counters of the PacketTracer holds, modulo 2^64, the bytes
    of the packets of its direction and class, so that the control and the
    data counter of a direction add up to all the bytes traced in that
    direction.  A packet is a data packet exactly when it has an IPv4 header
    with protocol 17 and a UDP header with a destination port from 9 to 14. *)
Theorem tracer_counts_every_byte_once (events : list trace_event)
    (tr : PacketTracer.t) :
  let tr' := run_trace events (PacketTracer.Reset tr) in
  PacketTracer.GetControlBytesTx tr' = wrap64 (traced_bytes true false events)
  ∧ PacketTracer.GetControlBytesRx tr' = wrap64 (traced_bytes false false events)
  ∧ PacketTracer.GetDataBytesTx tr' = wrap64 (traced_bytes true true events)
  ∧ PacketTracer.GetDataBytesRx tr' = wrap64 (traced_bytes false true events)
  ∧ wrap64 (PacketTracer.GetDataBytesTx tr' + PacketTracer.GetControlBytesTx tr')
    = wrap64 (total_bytes true events)
  ∧ wrap64 (PacketTracer.GetDataBytesRx tr' + PacketTracer.GetControlBytesRx tr')
    = wrap64 (total_bytes false events)
  ∧ ∀ packet,
      PacketTracer.IsDataPacket packet = true
      ↔ pkt_ipv4_protocol packet = Some 17
        ∧ ∃ port, pkt_udp_dest_port packet = Some port ∧ 9 ≤ port ∧ port ≤ 14.
Proof.
  intros tr'.
  destruct (run_trace_spec events (PacketTracer.Reset tr)) as (H1 & H2 & H3 & H4).
  { repeat split; reflexivity. }
  fold tr' in H1, H2, H3, H4.
  change (PacketTracer.m_controlBytesTx (PacketTracer.Reset tr)) with 0 in H1.
  change (PacketTracer.m_controlBytesRx (PacketTracer.Reset tr)) with 0 in H2.
  change (PacketTracer.m_dataBytesTx (PacketTracer.Reset tr)) with 0 in H3.
  change (PacketTracer.m_dataBytesRx (PacketTracer.Reset tr)) with 0 in H4.
  rewrite N.add_0_l in H1, H2, H3, H4.
  unfold PacketTracer.GetControlBytesTx, PacketTracer.GetControlBytesRx,
    PacketTracer.GetDataBytesTx, PacketTracer.GetDataBytesRx.
  split; [exact H1|]. split; [exact H2|]. split; [exact H3|]. split; [exact H4|].
  assert (Hsum : ∀ x y, wrap64 (wrap64 x + wrap64 y) = wrap64 (x + y)).
  { intros x y. unfold wrap64. symmetry. apply N.Div0.add_mod. }
  split; [rewrite H3, H1, Hsum, traced_bytes_total; reflexivity|].
  split; [rewrite H4, H2, Hsum, traced_bytes_total; reflexivity|].
  intros packet. unfold PacketTracer.IsDataPacket. split.
  - destruct (pkt_ipv4_protocol packet) as [protocol|]; [|discriminate].
    destruct (protocol =? 17) eqn:Hp; [|discriminate]. apply N.eqb_eq in Hp as ->.
    cbn [negb]. destruct (pkt_udp_dest_port packet) as [port|]; [|discriminate].
    intros Hport. apply andb_true_iff in Hport as [Hlo Hhi].
    apply N.leb_le in Hlo, Hhi. eauto.
  - intros [-> (port & -> & Hlo & Hhi)]. simpl.
    apply andb_true_iff. split; apply N.leb_le; assumption.
Qed.

(** ** The rows of the computed table *)

Lemma SetNextHop_no_sentinel (r : RoutingTables.t) (s d h : N) :
  no_sentinel_stored r → h ≠ UINT32_MAX → no_sentinel_stored (SetNextHop r s d h).
Proof.
  intros Hwf Hh s' row d' Hrow. unfold SetNextHop in Hrow. simpl in Hrow.
  destruct (decide (s = s')) as [<- | Hne].
  - rewrite lookup_insert_eq in Hrow. injection Hrow as <-.
    destruct (decide (d = d')) as [<- | Hne'].
    + rewrite lookup_insert_eq. congruence.
    + rewrite lookup_insert_ne by exact Hne'.
      destruct (m_nextHop r !! s) as [row0|] eqn:Hrow0; simpl.
      * eapply Hwf. exact Hrow0.
      * rewrite lookup_empty. discriminate.
  - rewrite lookup_insert_ne in Hrow by exact Hne. eapply Hwf. exact Hrow.
Qed.

Lemma extract_next_hops_no_sentinel (t : IslTopology) (src : N) (st : dijkstra_state)
    (dsts : list N) :
  numSatellites t < 4294967296 → neighbors_in_range t → src < numSatellites t →
  search_inv t src (is_neighbor t) st → st_pq st = [] →
  ∀ routes routes',
    extract_next_hops (numSatellites t) src (st_dist st) (st_prev st) dsts routes
    = Done routes' →
    no_sentinel_stored routes → no_sentinel_stored routes'.
Proof.
  intros Huint32 Hrange Hsrc Hinv Hpq.
  induction dsts as [|dst dsts IH]; intros routes routes' Hrun Hwf.
  - injection Hrun as <-. exact Hwf.
  - cbn [extract_next_hops] in Hrun.
    destruct (src =? dst) eqn:Hsd; [eapply IH; eassumption|].
    apply N.eqb_neq in Hsd.
    destruct (vec_get (st_dist st) dst) as [dd| | |] eqn:Hget; try discriminate.
    apply vec_get_Done in Hget. cbn [mbind outcome_bind obind] in Hrun.
    destruct (dd =? UINT32_MAX) eqn:Hmax; [eapply IH; eassumption|].
    apply N.eqb_neq in Hmax.
    pose proof (final_settled t src st dst dd Hinv Hpq Hget Hmax) as Hvis.
    pose proof (settled_below t src Huint32 Hsrc _ _ _ _ Hinv Hvis Hget) as Hlim.
    destruct (trace_back_inv t src Huint32 Hrange Hsrc st (N.to_nat (numSatellites t))
                Hinv dst dd Hget Hmax ltac:(congruence) ltac:(lia))
      as (h & Htrace & _ & Hh & _).
    rewrite Htrace in Hrun. cbn [mbind outcome_bind obind] in Hrun.
    eapply IH; [exact Hrun|]. apply SetNextHop_no_sentinel; [exact Hwf|].
    unfold UINT32_MAX. lia.
Qed.

Lemma routes_loop_no_sentinel (t : IslTopology) :
  numSatellites t < 4294967296 → neighbors_in_range t →
  ∀ srcs routes routes',
    (∀ s, s ∈ srcs → s < numSatellites t) →
    routes_loop t srcs routes = Done routes' →
    no_sentinel_stored routes → no_sentinel_stored routes'.
Proof.
  intros Huint32 Hrange. induction srcs as [|src srcs IH];
    intros routes routes' Hsrcs Hrun Hwf.
  - injection Hrun as <-. exact Hwf.
  - assert (Hsrc : src < numSatellites t) by (apply Hsrcs; left).
    cbn [routes_loop] in Hrun.
    destruct (routes_from t src routes) as [routes1| | |] eqn:Hfrom; try discriminate.
    cbn [mbind outcome_bind obind] in Hrun.
    eapply IH; [|exact Hrun|].
    { intros s Hs. apply Hsrcs. by right. }
    unfold routes_from in Hfrom.
    rewrite vec_set_lt in Hfrom by (rewrite length_replicate; lia).
    cbn [mbind outcome_bind obind pq_push] in Hfrom.
    destruct (dijkstra_loop_inv t src Huint32 Hrange Hsrc (S (adjacency_entries t))
                (initial_state t src))
      as (st & Hloop & Hinv & Hpq).
    { apply initial_state_inv; assumption. }
    { unfold loop_measure, initial_state. simpl.
      rewrite pending_initial. unfold adjacency_entries. lia. }
    unfold initial_state in Hloop. rewrite Hloop in Hfrom.
    cbn [mbind outcome_bind obind] in Hfrom.
    eapply extract_next_hops_no_sentinel; eassumption.
Qed.

(** X20: in the table of ComputeStaticRoutes the row that GetAllNextHops
    returns for src has an entry exactly for the destinations other than src
    that can be reached from src, and the entry of a destination is the next
    hop that GetNextHop returns for it; the sentinel UINT32_MAX is never
    stored. *)
Theorem all_next_hops_are_the_reachable_destinations (t : IslTopology) :
  numSatellites t < 4294967296 → neighbors_in_range t →
  ∃ routes,
    ComputeStaticRoutes t = Done routes
    ∧ ∀ src d,
        (∀ h, GetAllNextHops routes src !! d = Some h
              ↔ GetNextHop routes src d = h ∧ h ≠ UINT32_MAX)
        ∧ (is_Some (GetAllNextHops routes src !! d)
           ↔ src < numSatellites t ∧ d ≠ src ∧ reachable t src d).
Proof.
  intros Huint32 Hrange.
  destruct (ComputeStaticRoutes_correct t Huint32 Hrange) as (routes & Hrun & Hok & Hnone).
  assert (Hwf : no_sentinel_stored routes).
  { eapply (routes_loop_no_sentinel t Huint32 Hrange (N_range (numSatellites t))).
    - intros s Hs. by apply N_range_elem.
    - exact Hrun.
    - intros s row d Hrow. simpl in Hrow. rewrite lookup_empty in Hrow. discriminate. }
  exists routes. split; [exact Hrun|]. intros src d.
  assert (Hrow : ∀ h, GetAllNextHops routes src !! d = Some h
                      ↔ GetNextHop routes src d = h ∧ h ≠ UINT32_MAX).
  { intros h. unfold GetAllNextHops, GetNextHop.
    destruct (m_nextHop routes !! src) as [row|] eqn:Hsrc; simpl.
    - destruct (row !! d) as [x|] eqn:Hd.
      + split.
        * intros Heq. injection Heq as <-. split; [reflexivity|].
          intros ->. exact (Hwf src row d Hsrc Hd).
        * intros [-> _]. reflexivity.
      + split; [discriminate|]. intros [<- Hne]. contradiction.
    - rewrite lookup_empty. split; [discriminate|]. intros [<- Hne]. contradiction. }
  split; [exact Hrow|]. split.
  - intros [h Hh]. apply Hrow in Hh as [Hget Hne].
    destruct (decide (src < numSatellites t)) as [Hs | Hs].
    + destruct (decide (d = src)) as [-> | Hds].
      { exfalso. apply Hne. rewrite <- Hget. apply Hnone. auto. }
      destruct (reachable_decidable t src d Huint32 Hrange Hs) as [Hr | Hr]; [auto|].
      exfalso. apply Hne. rewrite <- Hget. apply Hnone. auto.
    + exfalso. apply Hne. rewrite <- Hget. apply Hnone. right. right. left. lia.
  - intros (Hs & Hds & Hr). exists (GetNextHop routes src d). apply Hrow.
    split; [reflexivity|].
    destruct (Hok src d Hs Hds Hr) as [Hh _]. unfold UINT32_MAX. lia.
Qed.

(** On the 24-satellite mesh. *)
Lemma all_next_hops_walker24 :
  ∃ routes,
    ComputeStaticRoutes walker24 = Done routes
    ∧ ∀ src d,
        (∀ h, GetAllNextHops routes src !! d = Some h
              ↔ GetNextHop routes src d = h ∧ h ≠ UINT32_MAX)
        ∧ (is_Some (GetAllNextHops routes src !! d)
           ↔ src < 24 ∧ d ≠ src ∧ reachable walker24 src d).
Proof.
  apply (all_next_hops_are_the_reachable_destinations walker24).
  - reflexivity.
  - exact walker24_in_range.
Defined.

(** ** InstallStaticRoutes, pair by pair *)

(** The body of the inner loop does for a pair what the specification asks
    for, the two indexes being those of steps 1 and 2. *)
Lemma install_pair_handled (nodes : NodeInterfaces) (routes : RoutingTables.t)
    (islInterfaces : list Ipv4Interface) (n : N)
    (links : gmap (N * N) (N * Ipv4Address)) (addrs : gmap N Ipv4Address) :
  build_link_index islInterfaces ∅ = Done links →
  build_satellite_address (N_range n) nodes ∅ = Done addrs →
  ∀ src dst, dst < n →
    pair_handled nodes routes islInterfaces (src, dst)
      (install_pair routes links addrs src dst).
Proof.
  intros Hlinks Haddrs src dst Hdst.
  destruct (build_link_index_spec _ _ _ Hlinks) as [Hkeys Hvals].
  destruct (build_satellite_address_spec _ _ _ _ Haddrs) as (Haddr & _ & Hhas).
  assert (Hnode : addrs !! dst = node_address nodes dst).
  { destruct (addrs !! dst) as [a|] eqn:Ha.
    - destruct (Haddr dst a Ha) as [He | (_ & ifs & Hifs & H1)];
        [rewrite lookup_empty in He; discriminate|].
      unfold node_address. rewrite Hifs. symmetry. exact H1.
    - unfold node_address.
      destruct (nodes !! N.to_nat dst) as [ifs|] eqn:Hifs; [|reflexivity].
      destruct (ifs !! 1%nat) as [a|] eqn:H1; [|reflexivity].
      exfalso. destruct (Hhas dst ifs) as [a' Ha'].
      + by apply N_range_elem.
      + exact Hifs.
      + apply lookup_lt_Some in H1. exact H1.
      + congruence. }
  assert (Hside : ∀ a b, is_Some (links !! (a, b)) ↔ ∃ itf, link_side islInterfaces a b itf).
  { intros a b. rewrite Hkeys. split; [|auto].
    intros [He | H]; [|exact H]. rewrite lookup_empty in He. by destruct He. }
  unfold pair_handled, install_pair. cbn [fst snd].
  destruct (GetNextHop routes src dst =? UINT32_MAX) eqn:Hmax.
  { apply N.eqb_eq in Hmax. exact Hmax. }
  apply N.eqb_neq in Hmax. rewrite Hnode.
  destruct (node_address nodes dst) as [dstAddr|] eqn:Hd; [|auto].
  destruct (links !! (src, GetNextHop routes src dst)) as [[idx a]|] eqn:Hfwd.
  - assert (Hf : ∃ itf, link_side islInterfaces src (GetNextHop routes src dst) itf).
    { apply Hside. eauto. }
    destruct (links !! (GetNextHop routes src dst, src)) as [[idx' a']|] eqn:Hback.
    + destruct (Hvals _ _ _ _ Hfwd) as [He | (ifL & HsideL & -> & _)];
        [rewrite lookup_empty in He; discriminate|].
      destruct (Hvals _ _ _ _ Hback) as [He | (ifG & HsideG & _ & ->)];
        [rewrite lookup_empty in He; discriminate|].
      cbn [rt_node rt_dest rt_interface rt_gateway].
      split; [exact Hmax|]. split; [reflexivity|]. split; [reflexivity|].
      exists ifL, ifG. auto.
    + split; [exact Hmax|]. split; [eauto|]. split; [exact Hf|].
      intros Hb. apply Hside in Hb. rewrite Hback in Hb. by destruct Hb.
  - split; [exact Hmax|]. split; [eauto|].
    intros Hf. apply Hside in Hf. rewrite Hfwd in Hf. by destruct Hf.
Qed.

Lemma omap_route_of_outcomes (routes : RoutingTables.t)
    (links : gmap (N * N) (N * Ipv4Address)) (addrs : gmap N Ipv4Address)
    (ps : list (N * N)) :
  omap (route_of routes links addrs) ps
  = omap installed_of (map (λ p, install_pair routes links addrs p.1 p.2) ps)
  ∧ omap (skip_of routes links addrs) ps
    = omap skipped_of (zip ps (map (λ p, install_pair routes links addrs p.1 p.2) ps)).
Proof.
  induction ps as [|p ps [IH1 IH2]]; [split; reflexivity|].
  unfold omap in *. cbn [list_omap map zip zip_with].
  unfold route_of at 1, skip_of at 1. rewrite IH1, IH2.
  destruct (install_pair routes links addrs p.1 p.2); split; reflexivity.
Qed.

(** C7: over the 24-satellite mesh, with links created and addressed by
    CreateIslMesh and AssignIslAddresses, InstallStaticRoutes installs exactly
    552 host routes, one for each ordered pair of distinct satellites, and
    skips no pair.  For any input, the ordered pairs of distinct nodes are
    handled one by one, each on its own: a pair without a next hop, without
    an address of the destination, without an interface of the source on a
    link to the next hop, or without an interface of the next hop on a link
    to the source is skipped and recorded with that reason, and no route is
    installed for it; a pair for which all four are found gets its route;
    the installed routes and the records of the skipped pairs are the
    outcomes of the pairs in the order of the loops, one outcome per pair. *)
Theorem install_static_routes_complete :
  (∃ res, build_and_install walker24 = Done res
          ∧ totalRoutes res = 552
          ∧ length (installed res) = 552%nat
          ∧ skipped res = []
          ∧ map rt_node (installed res) = map fst (ordered_pairs 24)
          ∧ NoDup (map (λ r, (rt_node r, rt_dest r)) (installed res)))
  ∧ ∀ (nodes : NodeInterfaces) (routes : RoutingTables.t)
      (islInterfaces : list Ipv4Interface),
      Nat.Even (length islInterfaces) →
      let n := wrap32 (N.of_nat (length nodes)) in
      ∃ res outs,
        InstallStaticRoutes nodes routes islInterfaces = Done res
        ∧ Forall2 (pair_handled nodes routes islInterfaces) (ordered_pairs n) outs
        ∧ installed res = omap installed_of outs
        ∧ skipped res = omap skipped_of (zip (ordered_pairs n) outs)
        ∧ N.of_nat (length (installed res)) + N.of_nat (length (skipped res))
          = n * (n - 1)
        ∧ totalRoutes res = wrap32 (N.of_nat (length (installed res)))
        ∧ (∀ src dst, src < n → dst < n → src ≠ dst →
             (GetNextHop routes src dst = UINT32_MAX →
              (src, dst, NoRoute) ∈ skipped res)
             ∧ (GetNextHop routes src dst ≠ UINT32_MAX →
                node_address nodes dst = None →
                (src, dst, NoAddress) ∈ skipped res)
             ∧ (GetNextHop routes src dst ≠ UINT32_MAX →
                is_Some (node_address nodes dst) →
                ¬ (∃ itf, link_side islInterfaces src (GetNextHop routes src dst) itf) →
                (src, dst, NoInterface) ∈ skipped res)
             ∧ (GetNextHop routes src dst ≠ UINT32_MAX →
                is_Some (node_address nodes dst) →
                (∃ itf, link_side islInterfaces src (GetNextHop routes src dst) itf) →
                ¬ (∃ itf, link_side islInterfaces (GetNextHop routes src dst) src itf) →
                (src, dst, NoGateway) ∈ skipped res)
             ∧ (GetNextHop routes src dst ≠ UINT32_MAX →
                is_Some (node_address nodes dst) →
                (∃ itf, link_side islInterfaces src (GetNextHop routes src dst) itf) →
                (∃ itf, link_side islInterfaces (GetNextHop routes src dst) src itf) →
                ∃ route, route ∈ installed res
                         ∧ pair_handled nodes routes islInterfaces (src, dst) (inl route)))
        ∧ (∀ src dst why,
             (src, dst, why) ∈ skipped res →
             (src < n ∧ dst < n ∧ src ≠ dst)
             ∧ pair_handled nodes routes islInterfaces (src, dst) (inr why))
        ∧ (∀ route,
             route ∈ installed res →
             ∃ src dst, (src < n ∧ dst < n ∧ src ≠ dst)
                        ∧ pair_handled nodes routes islInterfaces (src, dst) (inl route)).
Proof.
  split.
  { apply outcome_done. vm_compute.
    split; [reflexivity|]. split; [reflexivity|]. split; [reflexivity|].
    split; [reflexivity|]. apply (bool_decide_unpack _). vm_compute. exact I. }
  intros nodes routes ifs Heven n.
  destruct (InstallStaticRoutes_unfold nodes routes ifs Heven)
    as (links & addrs & res & Hrun & Hlinks & Haddrs & Hi & Hs & Ht).
  fold n in Haddrs, Hi, Hs.
  pose proof (install_pair_handled nodes routes ifs n links addrs Hlinks Haddrs) as Hpair.
  destruct (omap_route_of_outcomes routes links addrs (ordered_pairs n)) as [Houts1 Houts2].
  set (outs := map (λ p, install_pair routes links addrs p.1 p.2) (ordered_pairs n)) in *.
  assert (Hskip : ∀ src dst why, src < n → dst < n → src ≠ dst →
            install_pair routes links addrs src dst = inr why →
            (src, dst, why) ∈ skipped res).
  { intros src dst why Hsrc Hdst Hne Ho. rewrite Hs. apply list_elem_of_omap.
    exists (src, dst). split; [by apply ordered_pairs_elem|].
    unfold skip_of. cbn [fst snd]. rewrite Ho. reflexivity. }
  assert (Hinst : ∀ src dst route, src < n → dst < n → src ≠ dst →
            install_pair routes links addrs src dst = inl route →
            route ∈ installed res).
  { intros src dst route Hsrc Hdst Hne Ho. rewrite Hi. apply list_elem_of_omap.
    exists (src, dst). split; [by apply ordered_pairs_elem|].
    unfold route_of. cbn [fst snd]. rewrite Ho. reflexivity. }
  exists res, outs.
  split; [exact Hrun|].
  split.
  { unfold outs.
    assert (Hgen : ∀ ps, Forall (λ p, p.2 < n) ps →
              Forall2 (pair_handled nodes routes ifs) ps
                (map (λ p, install_pair routes links addrs p.1 p.2) ps)).
    { clear -Hpair. intros ps Hall.
      induction Hall as [|[s d] ps Hd Hall IH]; [constructor|].
      cbn [map]. constructor; [apply Hpair; exact Hd | exact IH]. }
    apply Hgen. apply Forall_forall. intros [s d] Hin.
    apply ordered_pairs_elem in Hin. simpl. lia. }
  split; [rewrite Hi; exact Houts1|].
  split; [rewrite Hs; exact Houts2|].
  split.
  { rewrite Hi, Hs, <- Nat2N.inj_add, route_or_skip_length. apply ordered_pairs_length. }
  split; [exact Ht|].
  split.
  { intros src dst Hsrc Hdst Hne.
    pose proof (Hpair src dst Hdst) as Hh.
    pose proof (Hskip src dst) as Hsk. pose proof (Hinst src dst) as Hin.
    unfold pair_handled in Hh. cbn [fst snd] in Hh.
    destruct (install_pair routes links addrs src dst) as [route | why].
    - destruct Hh as (Hmax & Hnode & Haddr & ifL & ifG & HL & HG & Hidx & Hgw).
      split; [intros H; contradiction|].
      split; [intros _ H; congruence|].
      split; [intros _ _ H; exfalso; apply H; eauto|].
      split; [intros _ _ _ H; exfalso; apply H; eauto|].
      intros _ _ _ _. exists route. split; [apply Hin; auto|].
      unfold pair_handled. cbn [fst snd]. eauto 10.
    - destruct why.
      + split; [intros _; apply Hsk; auto|].
        split; [intros H; contradiction|].
        split; [intros H; contradiction|].
        split; intros H; contradiction.
      + destruct Hh as [Hmax Hnone].
        split; [intros H; contradiction|].
        split; [intros _ _; apply Hsk; auto|].
        assert (Hno : ¬ is_Some (node_address nodes dst)).
        { rewrite Hnone. intros [x Hx]. discriminate. }
        split; [intros _ H; contradiction|].
        split; intros _ H; contradiction.
      + destruct Hh as (Hmax & Hsome & Hnolink).
        split; [intros H; contradiction|].
        split; [intros _ H; rewrite H in Hsome; by destruct Hsome|].
        split; [intros _ _ _; apply Hsk; auto|].
        split; intros _ _ H; contradiction.
      + destruct Hh as (Hmax & Hsome & Hlink & Hnoback).
        split; [intros H; contradiction|].
        split; [intros _ H; rewrite H in Hsome; by destruct Hsome|].
        split; [intros _ _ H; contradiction|].
        split; [intros _ _ _ _; apply Hsk; auto|].
        intros _ _ _ H; contradiction. }
  split.
  - intros src dst why Hin. rewrite Hs in Hin.
    apply list_elem_of_omap in Hin as ([s d] & Hin & Hskip').
    unfold skip_of in Hskip'. cbn [fst snd] in Hskip'.
    apply ordered_pairs_elem in Hin as (Hs' & Hd' & Hne').
    pose proof (Hpair s d Hd') as Hh.
    destruct (install_pair routes links addrs s d) as [|why']; [discriminate|].
    injection Hskip' as <- <- <-. auto.
  - intros route Hin. rewrite Hi in Hin.
    apply list_elem_of_omap in Hin as ([s d] & Hin & Hroute).
    unfold route_of in Hroute. cbn [fst snd] in Hroute.
    apply ordered_pairs_elem in Hin as (Hs' & Hd' & Hne').
    pose proof (Hpair s d Hd') as Hh.
    destruct (install_pair routes links addrs s d) as [route'|]; [|discriminate].
    injection Hroute as <-. exists s, d. auto.
Qed.

(** Three nodes, one link between nodes 0 and 1, node 2 without any address:
    the two routes between 0 and 1 are installed and the four pairs that
    involve node 2 are skipped.  With the table that sends 1 to 0 through
    node 2, the pair (1, 0) is skipped for want of an interface and the route
    from 0 to 1 is still installed. *)
Lemma install_static_routes_partial :
  (∃ res, InstallStaticRoutes partial_nodes partial_routes partial_interfaces = Done res
          ∧ length (installed res) = 2%nat
          ∧ skipped res
            = [(0, 2, NoAddress); (1, 2, NoRoute); (2, 0, NoRoute); (2, 1, NoRoute)])
  ∧ (∃ res, InstallStaticRoutes partial_nodes detour_routes partial_interfaces = Done res
            ∧ installed res
              = [{| rt_node := 0; rt_dest := host_address (link_network 0) 2;
                    rt_gateway := host_address (link_network 0) 2; rt_interface := 1 |}]
            ∧ skipped res
              = [(0, 2, NoAddress); (1, 0, NoInterface); (1, 2, NoRoute);
                 (2, 0, NoRoute); (2, 1, NoRoute)]).
Proof.
  split.
  - destruct (proj2 install_static_routes_complete
                partial_nodes partial_routes partial_interfaces)
      as (res & outs & Hrun & _).
    { exists 1%nat. reflexivity. }
    exists res. split; [exact Hrun|].
    vm_compute in Hrun. injection Hrun as <-. split; reflexivity.
  - destruct (proj2 install_static_routes_complete
                partial_nodes detour_routes partial_interfaces)
      as (res & outs & Hrun & _).
    { exists 1%nat. reflexivity. }
    exists res. split; [exact Hrun|].
    vm_compute in Hrun. injection Hrun as <-. split; reflexivity.
Defined.
